(** * Morph client: invocation engine, lifecycle and fact cache

    A shallow embedding of [package client] (the wrapper over the neo-go
    web-socket client): argument conversion, the public operations that go
    through the switch lock, the terminal [inactiveMode] transition and the
    fact cache with its own lock.

    Go values are modelled as follows.
    - [int64], [uint32], [uint64], [fixedn.Fixed8] are [Z] with the
      wrap-around of the fixed width written out where the code computes.
    - [(res, err)] results are pairs [A * option error]; [nil] is [None].
    - every operation runs in a small monad [M] that threads a [world]:
      the number of requests already sent over the connection and the trace
      of observable events (lock operations, requests, log records, sleeps).
    - [panic] is an outcome of its own; deferred calls still run.

    After the client come three smaller pieces of the repository, each in
    a module of its own: the parser of node attributes
    ([package attributes]), the command that sets policy parameters
    ([package morph]) and the reader of a configuration directory
    ([package config]). *)

From Stdlib Require Import ZArith List String Ascii Bool Lia Arith.
From Equations Require Import Equations.
Import ListNotations.
Local Open Scope Z_scope.

(** ** Plain data *)

Definition bytes := list Byte.byte.

(** [util.Uint160], [util.Uint256]: fixed-size byte arrays, kept big-endian. *)
Record Uint160 := mkUint160 { BytesBE : bytes }.
Record Uint256 := mkUint256 { BytesBE256 : bytes }.

(** [keys.PublicKey]; [Bytes] is its compressed encoding. *)
Record PublicKey := mkPublicKey { Bytes : bytes }.
Definition PublicKeys := list PublicKey.

(** [noderoles.Role] is a byte. *)
Definition Role := Z.
Definition NeoFSAlphabet : Role := 16.

(** [sc.ParamType]; [AnyType] is the zero value of the type. *)
Inductive ParamType :=
| AnyType | BoolType | IntegerType | ByteArrayType | StringType | ArrayType.

(** A Go [interface{}] as the callers of [Invoke] can pass it.  The first
    ten constructors are the dynamic types listed in the type switch of
    [toStackParameter]; [GoOther] stands for a value of any other dynamic
    type (named by [tyname], printed as [repr] by the verb [%v]). *)
Inductive arg :=
| GoBytes (v : bytes)
| GoInt (v : Z)
| GoInt64 (v : Z)
| GoUint64 (v : Z)
| GoBytesSlice (v : list bytes)
| GoString (v : string)
| GoUint160 (v : Uint160)
| GoRole (v : Role)
| GoPublicKeys (v : PublicKeys)
| GoBool (v : bool)
| GoOther (tyname repr : string).

(** [sc.Parameter] (the bare name is reserved, hence [sc_Parameter]): a type
    tag and a value, itself an [interface{}]: the value as the caller gave
    it (or a byte slice or boolean made from it), a [*big.Int], or a slice
    of parameters. *)
Inductive sc_Parameter :=
| mkParameter (Type_ : ParamType) (Value : pvalue)
with pvalue :=
| Raw (value : arg)
| BigInt (v : Z)
| Params (arr : list sc_Parameter).

Definition param_type (p : sc_Parameter) : ParamType :=
  match p with mkParameter t _ => t end.

(** ** Errors *)

Inductive error :=
| ErrNilClient
| ErrConnectionLost
| errEmptyInvocationScript
| notHaltStateError (state exception : string)
| neofsError (err : error)
| errUnsupportedParameter (value : arg)
| errWrap (prefix : string) (err : error)
| errRPC (msg : string)
| errRuntime (msg : string).

Definition HaltState : string := "HALT".

(** [%v] of an argument, only needed for the text of an error. *)
Definition fmt_v (value : arg) : string :=
  match value with
  | GoOther _ repr => repr
  | GoString s => s
  | _ => "<value>"
  end.

(** The [Error()] methods. *)
Fixpoint Error (e : error) : string :=
  match e with
  | ErrNilClient => "client is nil"
  | ErrConnectionLost => "connection to the RPC node has been lost"
  | errEmptyInvocationScript => "got empty invocation script from neo node"
  | notHaltStateError state exception =>
      "chain/client: contract execution finished with state " ++ state
        ++ "; exception: " ++ exception
  | neofsError err => "neofs error: " ++ Error err
  | errUnsupportedParameter value =>
      "chain/client: unsupported parameter " ++ fmt_v value
  | errWrap prefix err => prefix ++ ": " ++ Error err
  | errRPC msg => msg
  | errRuntime msg => msg
  end%string.

Definition wrapNeoFSError (err : error) : error := neofsError err.

(** ** Argument conversion *)

(** Nesting depth of the recursion of [toStackParameter]: a key list is
    turned into a slice of byte slices, whose elements are byte slices. *)
Definition depth (value : arg) : nat :=
  match value with
  | GoPublicKeys _ => 2
  | GoBytesSlice _ => 1
  | _ => 0
  end%nat.

(** The loop [for i := range v] of the [[][]byte] case: convert every
    element with [conv], stop at the first error. *)
Fixpoint convert_elems (conv : bytes -> sc_Parameter * option error)
    (v : list bytes) (arr : list sc_Parameter) : list sc_Parameter + error :=
  match v with
  | [] => inl arr
  | x :: rest =>
      match conv x with
      | (_, Some err) => inr err
      | (elem, None) => convert_elems conv rest (arr ++ [elem])
      end
  end.

Equations toStackParameter (value : arg) : sc_Parameter * option error
  by wf (depth value) lt :=
toStackParameter (GoBytes v) := (mkParameter ByteArrayType (Raw (GoBytes v)), None);
toStackParameter (GoInt v) := (mkParameter IntegerType (BigInt v), None);
toStackParameter (GoInt64 v) := (mkParameter IntegerType (BigInt v), None);
toStackParameter (GoUint64 v) := (mkParameter IntegerType (BigInt v), None);
toStackParameter (GoBytesSlice v) :=
  match convert_elems (fun x => toStackParameter (GoBytes x)) v [] with
  | inr err => (mkParameter AnyType (Raw (GoBytesSlice v)), Some err)
  | inl arr => (mkParameter ArrayType (Params arr), None)
  end;
toStackParameter (GoString v) := (mkParameter StringType (Raw (GoString v)), None);
toStackParameter (GoUint160 v) := (mkParameter ByteArrayType (Raw (GoBytes (BytesBE v))), None);
toStackParameter (GoRole v) := (mkParameter IntegerType (BigInt v), None);
toStackParameter (GoPublicKeys v) := toStackParameter (GoBytesSlice (map Bytes v));
toStackParameter (GoBool v) := (mkParameter BoolType (Raw (GoBool v)), None);
toStackParameter (GoOther ty repr) :=
  (mkParameter AnyType (Raw (GoOther ty repr)),
   Some (wrapNeoFSError (errUnsupportedParameter (GoOther ty repr)))).

(** The loop over [args] at the head of [Invoke] and [TestInvoke]:
    [params] grows by one converted argument per pass; the first
    conversion error ends the call. *)
Fixpoint toStackParameters (args : list arg) (params : list sc_Parameter)
  : list sc_Parameter + error :=
  match args with
  | [] => inl params
  | a :: rest =>
      match toStackParameter a with
      | (_, Some err) => inr err
      | (param, None) => toStackParameters rest (params ++ [param])
      end
  end.

(** ** The connection and what it answers *)

(** [transaction.Signer] and [client.SignerAccount]. *)
Record Signer := mkSigner {
  Account : Uint160;
  Scopes : Z;
  AllowedContracts : list Uint160;
  AllowedGroups : list PublicKey
}.

(** [transaction.Global]. *)
Definition Global : Z := 128.

(** [wallet.Account]; [KeyScriptHash] is
    [PrivateKey().PublicKey().GetScriptHash()]. *)
Record wallet_Account := mkAccount { KeyScriptHash : Uint160 }.

Record SignerAccount := mkSignerAccount {
  sa_Signer : Signer;
  sa_Account : wallet_Account
}.

Inductive Item := ItemInt (v : Z) | ItemBytes (v : bytes) | ItemBool (v : bool).

(** [result.Invoke]. *)
Record result_Invoke := mkInvoke {
  State : string;
  GasConsumed : Z;
  Script : bytes;
  Stack : list Item;
  FaultException : string
}.

(** [vm.State] is a set of flags; [HasFlag] tests one of them. *)
Inductive vm_flag := vm_HaltState | vm_FaultState | vm_BreakState.

Record vm_State := mkState { halt : bool; fault : bool; break : bool }.

Definition vm_NoneState : vm_State := mkState false false false.

Definition HasFlag (s : vm_State) (f : vm_flag) : bool :=
  match f with
  | vm_HaltState => halt s
  | vm_FaultState => fault s
  | vm_BreakState => break s
  end.

(** [result.ApplicationLog], reduced to the states of its executions. *)
Record ApplicationLog := mkLog { Executions : list vm_State }.

(** [trigger.Application]. *)
Definition trigger_Application : Z := 64.

(** [nativenames]. *)
Definition nativenames_Gas : string := "GasToken".
Definition nativenames_Designation : string := "RoleManagement".

(** The neo-go client behind the wrapper.  The answer to a request may
    depend on the request and on how many requests the connection has
    served before ([nat]); every method returns the Go pair of a value and
    an error. *)
Record WSClient := mkWSClient {
  InvokeFunction : nat -> Uint160 -> string -> list sc_Parameter ->
                   list Signer -> result_Invoke * option error;
  SignAndPushInvocationTx : nat -> bytes -> wallet_Account -> Z -> Z ->
                   list SignerAccount -> Uint256 * option error;
  GetNativeContractHash : nat -> string -> Uint160 * option error;
  TransferNEP17 : nat -> wallet_Account -> Uint160 -> Uint160 -> Z -> Z ->
                   Uint256 * option error;
  GetBlockCount : nat -> Z * option error;
  NEP17BalanceOf : nat -> Uint160 -> Uint160 -> Z * option error;
  GetCommittee : nat -> PublicKeys * option error;
  GetApplicationLog : nat -> Uint256 -> Z -> ApplicationLog * option error;
  GetTransactionHeight : nat -> Uint256 -> Z * option error;
  GetDesignatedByRole : nat -> Role -> Z -> PublicKeys * option error;
  GetNetwork : nat -> Z * option error;
  GetVersion : nat -> Z * option error;
  InvokeScript : nat -> bytes -> list Signer -> result_Invoke * option error
}.

(** The requests as they appear in the trace. *)
Inductive request :=
| ReqInvokeFunction (contract : Uint160) (method : string)
    (params : list sc_Parameter) (signers : list Signer)
| ReqSignAndPushInvocationTx (script : bytes) (acc : wallet_Account)
    (sysFee netFee : Z) (cosigners : list SignerAccount)
| ReqGetNativeContractHash (name : string)
| ReqTransferNEP17 (acc : wallet_Account) (to token : Uint160) (amount gas : Z)
| ReqGetBlockCount
| ReqNEP17BalanceOf (token account : Uint160)
| ReqGetCommittee
| ReqGetApplicationLog (h : Uint256) (trig : Z)
| ReqGetTransactionHeight (h : Uint256)
| ReqGetDesignatedByRole (r : Role) (height : Z)
| ReqGetNetwork
| ReqGetVersion
| ReqInvokeScript (script : bytes) (signers : list Signer).

Inductive logfield :=
| zap_String (key val : string)
| zap_StringLE (key : string) (u : Uint160)
| zap_Hash (key : string) (h : Uint256).

Inductive event :=
| EvRLock | EvRUnlock            (* switchLock, shared *)
| EvLock | EvUnlock              (* switchLock, exclusive *)
| EvRequest (r : request)
| EvLog (level msg : string) (fields : list logfield)
| EvSleep (d : Z)
| EvClose                        (* close(c.notifications) *)
| EvInactiveModeCb (cb : nat).

(** ** The monad of the operations *)

Record world := mkWorld { sent : nat; trace : list event }.

Inductive outcome (A : Type) :=
| Returned (a : A)
| Panicked (e : error)
| OutOfFuel.
Arguments Returned {A} a.
Arguments Panicked {A} e.
Arguments OutOfFuel {A}.

Definition M (A : Type) : Type := world -> outcome A * world.

Definition ret {A} (a : A) : M A := fun w => (Returned a, w).

Definition bind {A B} (m : M A) (k : A -> M B) : M B :=
  fun w =>
    match m w with
    | (Returned a, w') => k a w'
    | (Panicked e, w') => (Panicked e, w')
    | (OutOfFuel, w') => (OutOfFuel, w')
    end.

Notation "x <- m ;; k" := (bind m (fun x => k))
  (at level 61, m at next level, right associativity).
Notation "m ;;; k" := (bind m (fun _ => k))
  (at level 61, right associativity).

Definition emit (e : event) : M unit :=
  fun w => (Returned tt, mkWorld (sent w) (trace w ++ [e])).

Definition panic {A} (e : error) : M A := fun w => (Panicked e, w).

Definition out_of_fuel {A} : M A := fun w => (OutOfFuel, w).

(** One request and its answer. *)
Definition call {A} (r : request) (answer : nat -> A) : M A :=
  fun w => (Returned (answer (sent w)),
            mkWorld (S (sent w)) (trace w ++ [EvRequest r])).

(** [defer d] followed by [body]: [d] runs when [body] returns or panics. *)
Definition defer {A} (d : M unit) (body : M A) : M A :=
  fun w =>
    match body w with
    | (OutOfFuel, w') => (OutOfFuel, w')
    | (o, w') => (o, snd (d w'))
    end.

(** A run from a connection that has served [t] requests. *)
Definition run {A} (m : M A) (t : nat) : outcome A * world := m (mkWorld t []).
Definition result_of {A} (m : M A) (t : nat) : outcome A := fst (run m t).
Definition trace_of {A} (m : M A) (t : nat) : list event := trace (snd (run m t)).

(** ** The client *)

Record cfg := mkCfg {
  waitInterval : Z;
  inactiveModeCb : option nat
}.

Record Client := mkClient {
  client : WSClient;
  acc : wallet_Account;
  signer : Signer;
  cfg_ : cfg;
  notifications_closed : bool;
  inactive : bool
}.

(** Fixed-width arithmetic of Go. *)
Definition int64 (z : Z) : Z := (z + 2 ^ 63) mod 2 ^ 64 - 2 ^ 63.
Definition uint32 (z : Z) : Z := z mod 2 ^ 32.
Definition uint64 (z : Z) : Z := z mod 2 ^ 64.

Definition Reverse (h : Uint256) : Uint256 := mkUint256 (rev (BytesBE256 h)).

Notation "' pat <- m ;; k" := (bind m (fun x => match x with pat => k end))
  (at level 61, pat pattern, m at next level, right associativity).

Definition RLock : M unit := emit EvRLock.
Definition RUnlock : M unit := emit EvRUnlock.

(** The signer list that [Invoke] builds from the account and the
    configured signer. *)
Definition invoke_cosigner (c : Client) : list Signer :=
  [ mkSigner (KeyScriptHash (acc c)) (Scopes (signer c))
      (AllowedContracts (signer c)) (AllowedGroups (signer c)) ].

(** The signer accounts of the submission: the one signer above
    ([cosigner[0]]) with the account of the client. *)
Definition invoke_cosignerAcc (c : Client) : list SignerAccount :=
  [ mkSignerAccount
      (mkSigner (KeyScriptHash (acc c)) (Scopes (signer c))
         (AllowedContracts (signer c)) (AllowedGroups (signer c)))
      (acc c) ].

Definition Invoke (c : Client) (contract : Uint160) (fee : Z)
    (method : string) (args : list arg) : M (option error) :=
  RLock ;;;
  defer RUnlock (
    if inactive c then ret (Some ErrConnectionLost) else
    match toStackParameters args [] with
    | inr err => ret (Some err)
    | inl params =>
        let cosigner := invoke_cosigner c in
        let cosignerAcc := invoke_cosignerAcc c in
        '(resp, err) <- call (ReqInvokeFunction contract method params cosigner)
              (fun t => InvokeFunction (client c) t contract method params cosigner) ;;
        match err with
        | Some e => ret (Some e)
        | None =>
            if negb (String.eqb (State resp) HaltState) then
              ret (Some (wrapNeoFSError
                           (notHaltStateError (State resp) (FaultException resp))))
            else if (List.length (Script resp) =? 0)%nat then
              ret (Some (wrapNeoFSError errEmptyInvocationScript))
            else
              let script := Script resp in
              let sysFee := int64 (GasConsumed resp + fee) in
              '(txHash, err) <-
                 call (ReqSignAndPushInvocationTx script (acc c) sysFee 0 cosignerAcc)
                   (fun t => SignAndPushInvocationTx (client c) t script (acc c)
                               sysFee 0 cosignerAcc) ;;
              match err with
              | Some e => ret (Some e)
              | None =>
                  emit (EvLog "debug" "neo client invoke"
                          [zap_String "method" method;
                           zap_Hash "tx_hash" (Reverse txHash)]) ;;;
                  ret None
              end
        end
    end).

Definition TestInvoke (c : Client) (contract : Uint160) (method : string)
    (args : list arg) : M (list Item * option error) :=
  RLock ;;;
  defer RUnlock (
    if inactive c then ret ([], Some ErrConnectionLost) else
    match toStackParameters args [] with
    | inr err => ret ([], Some err)
    | inl params =>
        let cosigner := [ mkSigner (KeyScriptHash (acc c)) Global [] [] ] in
        '(val, err) <- call (ReqInvokeFunction contract method params cosigner)
              (fun t => InvokeFunction (client c) t contract method params cosigner) ;;
        match err with
        | Some e => ret ([], Some e)
        | None =>
            if negb (String.eqb (State val) HaltState) then
              ret ([], Some (wrapNeoFSError
                               (notHaltStateError (State val) (FaultException val))))
            else ret (Stack val, None)
        end
    end).

Definition TransferGas (c : Client) (receiver : Uint160) (amount : Z)
  : M (option error) :=
  RLock ;;;
  defer RUnlock (
    if inactive c then ret (Some ErrConnectionLost) else
    '(gas, err) <- call (ReqGetNativeContractHash nativenames_Gas)
          (fun t => GetNativeContractHash (client c) t nativenames_Gas) ;;
    match err with
    | Some e => ret (Some e)
    | None =>
        '(txHash, err) <- call (ReqTransferNEP17 (acc c) receiver gas amount 0)
              (fun t => TransferNEP17 (client c) t (acc c) receiver gas amount 0) ;;
        match err with
        | Some e => ret (Some e)
        | None =>
            emit (EvLog "debug" "native gas transfer invoke"
                    [zap_StringLE "to" receiver;
                     zap_Hash "tx_hash" (Reverse txHash)]) ;;;
            ret None
        end
    end).

(** [context.Context], as far as [Wait] looks at it: [ctx k] tells whether
    [ctx.Done()] is closed when the [select] of the loop runs for the
    [k]-th time (counting from 0).  A context that is cancelled stays so. *)
Definition Context := nat -> bool.

Definition already_cancelled (ctx : Context) : Prop := forall k, ctx k = true.

Definition log_height_error (e : error) : M unit :=
  emit (EvLog "error" "can't get blockchain height" [zap_String "error" (Error e)]).

(** The [for] loop of [Wait]; [fuel] bounds the number of passes. *)
Fixpoint Wait_loop (fuel : nat) (c : Client) (ctx : Context) (height n : Z)
    (k : nat) : M (option error) :=
  match fuel with
  | O => out_of_fuel
  | S fuel' =>
      if ctx k then ret None else
      '(newHeight, err) <- call ReqGetBlockCount (GetBlockCount (client c)) ;;
      match err with
      | Some e => log_height_error e ;;; ret None
      | None =>
          if newHeight >=? uint32 (height + n) then ret None
          else emit (EvSleep (waitInterval (cfg_ c))) ;;;
               Wait_loop fuel' c ctx height n (S k)
      end
  end.

Definition Wait (fuel : nat) (c : Client) (ctx : Context) (n : Z)
  : M (option error) :=
  RLock ;;;
  defer RUnlock (
    if inactive c then ret (Some ErrConnectionLost) else
    '(height, err) <- call ReqGetBlockCount (GetBlockCount (client c)) ;;
    match err with
    | Some e => log_height_error e ;;; ret None
    | None => Wait_loop fuel c ctx height n 0
    end).

Definition GasBalance (c : Client) : M (Z * option error) :=
  RLock ;;;
  defer RUnlock (
    if inactive c then ret (0, Some ErrConnectionLost) else
    '(gas, err) <- call (ReqGetNativeContractHash nativenames_Gas)
          (fun t => GetNativeContractHash (client c) t nativenames_Gas) ;;
    match err with
    | Some e => ret (0, Some e)
    | None =>
        call (ReqNEP17BalanceOf gas (KeyScriptHash (acc c)))
          (fun t => NEP17BalanceOf (client c) t gas (KeyScriptHash (acc c)))
    end).

Definition Committee (c : Client) : M (PublicKeys * option error) :=
  RLock ;;;
  defer RUnlock (
    if inactive c then ret ([], Some ErrConnectionLost) else
    call ReqGetCommittee (GetCommittee (client c))).

Definition TxHalt (c : Client) (h : Uint256) : M (bool * option error) :=
  RLock ;;;
  defer RUnlock (
    if inactive c then ret (false, Some ErrConnectionLost) else
    let trig := trigger_Application in
    '(aer, err) <- call (ReqGetApplicationLog h trig)
          (fun t => GetApplicationLog (client c) t h trig) ;;
    match err with
    | Some e => ret (false, Some e)
    | None =>
        ret ((0 <? List.length (Executions aer))%nat
               && HasFlag (nth 0 (Executions aer) vm_NoneState) vm_HaltState, None)
    end).

Definition TxHeight (c : Client) (h : Uint256) : M (Z * option error) :=
  RLock ;;;
  defer RUnlock (
    if inactive c then ret (0, Some ErrConnectionLost) else
    call (ReqGetTransactionHeight h) (fun t => GetTransactionHeight (client c) t h)).

Definition roleList (c : Client) (r : Role) : M (PublicKeys * option error) :=
  '(height, err) <- call ReqGetBlockCount (GetBlockCount (client c)) ;;
  match err with
  | Some e => ret ([], Some (errWrap "can't get chain height" e))
  | None =>
      call (ReqGetDesignatedByRole r height)
        (fun t => GetDesignatedByRole (client c) t r height)
  end.

Definition NeoFSAlphabetList (c : Client) : M (PublicKeys * option error) :=
  RLock ;;;
  defer RUnlock (
    if inactive c then ret ([], Some ErrConnectionLost) else
    '(list, err) <- roleList c NeoFSAlphabet ;;
    match err with
    | Some e => ret ([], Some (errWrap "can't get alphabet nodes role list" e))
    | None => ret (list, None)
    end).

Definition GetDesignateHash (c : Client) : M (Uint160 * option error) :=
  RLock ;;;
  defer RUnlock (
    if inactive c then ret (mkUint160 (repeat Byte.x00 20), Some ErrConnectionLost) else
    call (ReqGetNativeContractHash nativenames_Designation)
      (fun t => GetNativeContractHash (client c) t nativenames_Designation)).

Definition MagicNumber (c : Client) : M (Z * option error) :=
  RLock ;;;
  defer RUnlock (
    if inactive c then ret (0, Some ErrConnectionLost) else
    '(mNum, err) <- call ReqGetNetwork (GetNetwork (client c)) ;;
    match err with
    | Some e => panic e
    | None => ret (uint64 mNum, None)
    end).

Definition BlockCount (c : Client) : M (Z * option error) :=
  RLock ;;;
  defer RUnlock (
    if inactive c then ret (0, Some ErrConnectionLost) else
    call ReqGetBlockCount (GetBlockCount (client c))).

Definition MsPerBlock (c : Client) : M (Z * option error) :=
  RLock ;;;
  defer RUnlock (
    if inactive c then ret (0, Some ErrConnectionLost) else
    '(v, err) <- call ReqGetVersion (GetVersion (client c)) ;;
    match err with
    | Some e => ret (0, Some (errWrap "getVersion" e))
    | None => ret (int64 v, None)
    end).

Definition IsValidScript (c : Client) (script : bytes) (signers : list Signer)
  : M (bool * option error) :=
  RLock ;;;
  defer RUnlock (
    if inactive c then ret (false, Some ErrConnectionLost) else
    '(result, err) <- call (ReqInvokeScript script signers)
          (fun t => InvokeScript (client c) t script signers) ;;
    match err with
    | Some e => ret (false, Some (errWrap "invokeScript" e))
    | None => ret (String.eqb (State result) "HALT", None)
    end).

(** [NotificationChannel]: the channel, here its state. *)
Definition NotificationChannel (c : Client) : bool := notifications_closed c.

Definition set_inactive (c : Client) : Client :=
  mkClient (client c) (acc c) (signer c) (cfg_ c) true true.

(** [inactiveMode].  [close] of a closed channel panics in Go; it is the
    first statement after the lock, so a panic leaves the fields as they
    were, and the deferred [Unlock] still runs. *)
Definition inactiveMode (c : Client) : M Client :=
  emit EvLock ;;;
  defer (emit EvUnlock) (
    (if notifications_closed c
     then panic (errRuntime "close of closed channel")
     else emit EvClose) ;;;
    let c' := set_inactive c in
    match inactiveModeCb (cfg_ c') with
    | Some cb => emit (EvInactiveModeCb cb) ;;; ret c'
    | None => ret c'
    end).

Definition sample_hash : Uint160 := mkUint160 (repeat Byte.x11 20).

(** ** The fact cache *)

(** [sync.RWMutex]: whether a writer holds it and how many readers do. *)
Record RWMutex := mkRWMutex { writer : bool; readers : nat }.

(** The fields of [cache] behind the lock; [txHeights] is the content of
    the LRU cache, most recently used first. *)
Record cache := mkCache {
  nnsHash : option Uint160;
  gKey : option PublicKey;
  txHeights : list (Uint256 * Z)
}.

(** The cache as it lies in memory, shared by all goroutines: the mutex
    that the field [m] points to, and the fields. *)
Record shared := mkShared { m : RWMutex; fields : cache }.

(** A value that an accessor has returned. *)
Inductive fact :=
| FactNNS (v : option Uint160)
| FactGroupKey (v : option PublicKey).

(** The atomic statements of the cache methods.  [nns] and [groupKey]
    have value receivers: the call copies the struct into the frame of the
    method ([SCopyReceiver]) before its first statement, and the method
    reads the copy.  The other methods have pointer receivers and work on
    the shared struct. *)
Inductive stmt :=
| SCopyReceiver
| SRLock | SRUnlock | SLock | SUnlock
| SSetNNSHash (v : option Uint160)
| SSetGKey (v : option PublicKey)
| SPurge
| SReturnNNSHash
| SReturnGKey.

(** The frame of a running method: the statements left, the receiver copy
    and the value returned so far. *)
Record frame := mkFrame {
  code : list stmt;
  receiver : cache;
  returned : option fact
}.

Definition nns_body : list stmt := [SCopyReceiver; SRLock; SReturnNNSHash; SRUnlock].
Definition setNNSHash_body (h : Uint160) : list stmt :=
  [SLock; SSetNNSHash (Some h); SUnlock].
Definition groupKey_body : list stmt := [SCopyReceiver; SRLock; SReturnGKey; SRUnlock].
Definition setGroupKey_body (k : option PublicKey) : list stmt :=
  [SLock; SSetGKey k; SUnlock].
Definition invalidate_body : list stmt :=
  [SLock; SSetNNSHash None; SSetGKey None; SPurge; SUnlock].

Definition zero_cache : cache := mkCache None None [].
Definition enter (body : list stmt) : frame := mkFrame body zero_cache None.

(** One statement of a frame on the shared cache; [None] when the
    statement has to wait for the mutex.  (In Go a waiting [Lock] also
    holds back new [RLock]s; that removes interleavings and adds none.) *)
Definition exec_stmt (s : stmt) (rest : list stmt) (sh : shared) (fr : frame)
  : option (shared * frame) :=
  let mu := m sh in
  let f := fields sh in
  match s with
  | SCopyReceiver => Some (sh, mkFrame rest f (returned fr))
  | SRLock =>
      if writer mu then None
      else Some (mkShared (mkRWMutex false (S (readers mu))) f,
                 mkFrame rest (receiver fr) (returned fr))
  | SRUnlock =>
      Some (mkShared (mkRWMutex (writer mu) (pred (readers mu))) f,
            mkFrame rest (receiver fr) (returned fr))
  | SLock =>
      if writer mu || negb (readers mu =? 0)%nat then None
      else Some (mkShared (mkRWMutex true 0) f,
                 mkFrame rest (receiver fr) (returned fr))
  | SUnlock =>
      Some (mkShared (mkRWMutex false (readers mu)) f,
            mkFrame rest (receiver fr) (returned fr))
  | SSetNNSHash v =>
      Some (mkShared mu (mkCache v (gKey f) (txHeights f)),
            mkFrame rest (receiver fr) (returned fr))
  | SSetGKey v =>
      Some (mkShared mu (mkCache (nnsHash f) v (txHeights f)),
            mkFrame rest (receiver fr) (returned fr))
  | SPurge =>
      Some (mkShared mu (mkCache (nnsHash f) (gKey f) []),
            mkFrame rest (receiver fr) (returned fr))
  | SReturnNNSHash =>
      Some (sh, mkFrame rest (receiver fr) (Some (FactNNS (nnsHash (receiver fr)))))
  | SReturnGKey =>
      Some (sh, mkFrame rest (receiver fr) (Some (FactGroupKey (gKey (receiver fr)))))
  end.

Definition step_frame (sh : shared) (fr : frame) : option (shared * frame) :=
  match code fr with
  | [] => None
  | s :: rest => exec_stmt s rest sh fr
  end.

(** A method run by one goroutine alone, from call to return. *)
Fixpoint run_frame (fuel : nat) (sh : shared) (fr : frame) : option (shared * frame) :=
  match code fr, fuel with
  | [], _ => Some (sh, fr)
  | _, O => None
  | _, S fuel' =>
      match step_frame sh fr with
      | None => None
      | Some (sh', fr') => run_frame fuel' sh' fr'
      end
  end.

Definition call_method (body : list stmt) (sh : shared) : option (shared * frame) :=
  run_frame (List.length body) sh (enter body).

Definition nns (sh : shared) : option (option Uint160) :=
  match call_method nns_body sh with
  | Some (_, mkFrame _ _ (Some (FactNNS v))) => Some v
  | _ => None
  end.

Definition groupKey (sh : shared) : option (option PublicKey) :=
  match call_method groupKey_body sh with
  | Some (_, mkFrame _ _ (Some (FactGroupKey v))) => Some v
  | _ => None
  end.

Definition setNNSHash (h : Uint160) (sh : shared) : option shared :=
  option_map fst (call_method (setNNSHash_body h) sh).

Definition setGroupKey (k : option PublicKey) (sh : shared) : option shared :=
  option_map fst (call_method (setGroupKey_body k) sh).

Definition invalidate (sh : shared) : option shared :=
  option_map fst (call_method invalidate_body sh).

(** Goroutines on one cache: one that runs [invalidate] and any number
    that run accessors.  A step is one statement of one of them. *)
Record config := mkConfig {
  mem : shared;
  invalidator : frame;
  accessors : list frame
}.

Fixpoint set_nth {A} (i : nat) (x : A) (l : list A) : list A :=
  match l, i with
  | [], _ => []
  | _ :: t, O => x :: t
  | h :: t, S j => h :: set_nth j x t
  end.

Inductive step : config -> config -> Prop :=
| step_invalidator cf sh' fr' :
    step_frame (mem cf) (invalidator cf) = Some (sh', fr') ->
    step cf (mkConfig sh' fr' (accessors cf))
| step_accessor cf i fr sh' fr' :
    nth_error (accessors cf) i = Some fr ->
    step_frame (mem cf) fr = Some (sh', fr') ->
    step cf (mkConfig sh' (invalidator cf) (set_nth i fr' (accessors cf))).

Inductive steps : config -> config -> Prop :=
| steps_refl cf : steps cf cf
| steps_step cf1 cf2 cf3 : steps cf1 cf2 -> step cf2 cf3 -> steps cf1 cf3.

Definition is_accessor_body (b : list stmt) : Prop :=
  b = nns_body \/ b = groupKey_body.

(** The start: the mutex is free, [invalidate] and the accessors have been
    called and none has run a statement yet. *)
Definition initial (f : cache) (bodies : list (list stmt)) : config :=
  mkConfig (mkShared (mkRWMutex false 0) f) (enter invalidate_body) (map enter bodies).

(** An accessor holds the read lock between its [RLock] and [RUnlock]. *)
Definition holds_rlock (fr : frame) : bool :=
  match code fr with
  | [SReturnNNSHash; SRUnlock] | [SReturnGKey; SRUnlock] | [SRUnlock] => true
  | _ => false
  end.

Definition cleared (f : cache) : Prop := f = mkCache None None [].

(** *** What holds in every configuration

    Where [invalidate] stands, with the mutex state and the fields of the
    shared cache that go with it; [f] is the content before the call. *)
Inductive invalidator_at (f : cache) : list stmt -> bool -> cache -> Prop :=
| at_call : invalidator_at f invalidate_body false f
| at_locked :
    invalidator_at f [SSetNNSHash None; SSetGKey None; SPurge; SUnlock] true f
| at_nns_cleared :
    invalidator_at f [SSetGKey None; SPurge; SUnlock] true
      (mkCache None (gKey f) (txHeights f))
| at_gkey_cleared :
    invalidator_at f [SPurge; SUnlock] true (mkCache None None (txHeights f))
| at_purged : invalidator_at f [SUnlock] true zero_cache
| at_return : invalidator_at f [] false zero_cache.

(** Where an accessor stands. *)
Inductive accessor_code : list stmt -> Prop :=
| nns_call : accessor_code nns_body
| nns_copied : accessor_code [SRLock; SReturnNNSHash; SRUnlock]
| nns_locked : accessor_code [SReturnNNSHash; SRUnlock]
| groupKey_call : accessor_code groupKey_body
| groupKey_copied : accessor_code [SRLock; SReturnGKey; SRUnlock]
| groupKey_locked : accessor_code [SReturnGKey; SRUnlock]
| accessor_unlocking : accessor_code [SRUnlock]
| accessor_return : accessor_code [].

(** A fact is its value before the invalidation, or absent. *)
Definition old_or_absent {A} (old v : option A) : Prop := v = old \/ v = None.

Definition fact_old_or_absent (f : cache) (x : fact) : Prop :=
  match x with
  | FactNNS v => old_or_absent (nnsHash f) v
  | FactGroupKey v => old_or_absent (gKey f) v
  end.

Definition accessor_ok (f : cache) (fr : frame) : Prop :=
  accessor_code (code fr) /\
  old_or_absent (nnsHash f) (nnsHash (receiver fr)) /\
  old_or_absent (gKey f) (gKey (receiver fr)) /\
  (forall x, returned fr = Some x -> fact_old_or_absent f x).

Definition holding (l : list frame) : nat := List.length (filter holds_rlock l).

Record invariant (f : cache) (cf : config) : Prop := mkInvariant {
  inv_invalidator :
    invalidator_at f (code (invalidator cf)) (writer (m (mem cf))) (fields (mem cf));
  inv_readers : readers (m (mem cf)) = holding (accessors cf);
  inv_exclusive : writer (m (mem cf)) = true -> readers (m (mem cf)) = 0%nat;
  inv_accessors : Forall (accessor_ok f) (accessors cf)
}.

(** A schedule names, step by step, the goroutine that runs its next
    statement: [None] for the one in [invalidate], [Some i] for accessor
    [i]. *)
Definition schedule_step (who : option nat) (cf : config) : option config :=
  match who with
  | None =>
      match step_frame (mem cf) (invalidator cf) with
      | Some (sh', fr') => Some (mkConfig sh' fr' (accessors cf))
      | None => None
      end
  | Some i =>
      match nth_error (accessors cf) i with
      | Some fr =>
          match step_frame (mem cf) fr with
          | Some (sh', fr') =>
              Some (mkConfig sh' (invalidator cf) (set_nth i fr' (accessors cf)))
          | None => None
          end
      | None => None
      end
  end.

Fixpoint run_schedule (sched : list (option nat)) (cf : config) : option config :=
  match sched with
  | [] => Some cf
  | who :: rest =>
      match schedule_step who cf with
      | Some cf' => run_schedule rest cf'
      | None => None
      end
  end.

Definition is_lock (s : stmt) : bool :=
  match s with SLock => true | _ => false end.

Definition sample_cache : cache :=
  mkCache (Some sample_hash) (Some (mkPublicKey [Byte.x03])) [(mkUint256 [], 17)].

(** A run in which [groupKey] copies its receiver before the
    invalidation, [nns] copies it in the middle of it, and both take the
    read lock after it. *)
Definition sample_schedule : list (option nat) :=
  [Some 1; None; None; Some 0; None; None; None; Some 0; Some 1]%nat.

Definition sample_final : config :=
  mkConfig (mkShared (mkRWMutex false 2) zero_cache)
    (mkFrame [] zero_cache None)
    [mkFrame [SReturnNNSHash; SRUnlock]
       (mkCache None (gKey sample_cache) (txHeights sample_cache)) None;
     mkFrame [SReturnGKey; SRUnlock] sample_cache None].







(** ** Reading traces *)

Definition is_request (e : event) : bool :=
  match e with EvRequest _ => true | _ => false end.

Definition is_height_query (e : event) : bool :=
  match e with EvRequest ReqGetBlockCount => true | _ => false end.

Definition is_submission (e : event) : bool :=
  match e with EvRequest (ReqSignAndPushInvocationTx _ _ _ _ _) => true | _ => false end.

Definition is_sleep (e : event) : bool :=
  match e with EvSleep _ => true | _ => false end.

Definition is_close (e : event) : bool :=
  match e with EvClose => true | _ => false end.

Definition is_callback (e : event) : bool :=
  match e with EvInactiveModeCb _ => true | _ => false end.

Definition count (p : event -> bool) (tr : list event) : nat :=
  List.length (filter p tr).

(** An operation that is refused because the client is inactive: it
    returns under the shared lock, with the connection-lost error, and the
    connection has served no further request. *)
Definition fails_fast {A} (m : M A) (err_of : A -> option error) : Prop :=
  forall t, exists a,
    run m t = (Returned a, mkWorld t [EvRLock; EvRUnlock]) /\
    err_of a = Some ErrConnectionLost.

(** An operation that sends exactly one request, between taking and
    releasing the shared lock. *)
Definition one_request_under_lock {A} (m : M A) (t : nat) : Prop :=
  exists r, trace_of m t = [EvRLock; EvRequest r; EvRUnlock].

(** The dynamic types outside the type switch of [toStackParameter]. *)
Definition unsupported (a : arg) : bool :=
  match a with GoOther _ _ => true | _ => false end.

(** [errors.Is]-like: [e'] is [e] or wraps it with [%w]. *)
Fixpoint carries (e' e : error) : Prop :=
  e' = e \/
  match e' with
  | errWrap _ inner => carries inner e
  | _ => False
  end.

(** The events of [k] passes of the loop of [Wait] that neither stop on
    the context nor reach the height: a height query and a sleep each. *)
Fixpoint polling (d : Z) (k : nat) : list event :=
  match k with
  | O => []
  | S k' => EvRequest ReqGetBlockCount :: EvSleep d :: polling d k'
  end.

(** Pass [k0 + j] of the loop, run when the connection has served [t + j]
    requests, goes on to the next pass: the context is live, the query
    succeeds and the height is below [height + n]. *)
Definition pass_goes_on (c : Client) (ctx : Context) (height n : Z)
    (k0 t j : nat) : Prop :=
  ctx (k0 + j)%nat = false /\
  exists h, GetBlockCount (client c) (t + j)%nat = (h, None) /\
            (h >=? uint32 (height + n)) = false.

(** A wait that retries: when the first pass of the loop finds the
    context live and its height query fails, a further height query is sent
    (the initial one, the failed one and at least one more). *)
Definition retries_after_failed_pass (fuel : nat) (c : Client) (ctx : Context)
    (n : Z) (t : nat) : Prop :=
  forall height h' e,
    GetBlockCount (client c) t = (height, None) ->
    ctx 0%nat = false ->
    GetBlockCount (client c) (S t) = (h', Some e) ->
    (3 <= count is_height_query (trace_of (Wait fuel c ctx n) t))%nat.

(** The uniform pattern of the auxiliary read methods as one property:
    each of the nine sends exactly one request under the shared lock. *)
Definition auxiliary_reads_send_one_request (c : Client) (t : nat) : Prop :=
  one_request_under_lock (BlockCount c) t /\
  one_request_under_lock (GetDesignateHash c) t /\
  one_request_under_lock (Committee c) t /\
  one_request_under_lock (MsPerBlock c) t /\
  (forall h, one_request_under_lock (TxHeight c h) t) /\
  (forall h, one_request_under_lock (TxHalt c h) t) /\
  one_request_under_lock (NeoFSAlphabetList c) t /\
  one_request_under_lock (GasBalance c) t /\
  (forall script signers, one_request_under_lock (IsValidScript c script signers) t).

(** A read method hands the error [e] of a failed query to its caller:
    it returns, and its error is [e] or wraps it. *)
Definition propagates {A} (op : M (A * option error)) (t : nat) (e : error) : Prop :=
  exists a e', result_of op t = Returned (a, Some e') /\ carries e' e.

(** The events of the callback of [inactiveMode], if one is configured. *)
Definition callback_events (c : Client) : list event :=
  match inactiveModeCb (cfg_ c) with
  | Some cb => [EvInactiveModeCb cb]
  | None => []
  end.

(** A caller that runs the terminal transition [k] times in a row. *)
Fixpoint repeat_inactiveMode (k : nat) (c : Client) : M Client :=
  match k with
  | O => ret c
  | S k' => c' <- inactiveMode c ;; repeat_inactiveMode k' c'
  end.

Definition callbacks_configured (c : Client) : nat :=
  match inactiveModeCb (cfg_ c) with Some _ => 1%nat | None => 0%nat end.

(** *** The life of a client

    What is done to a client between its construction and the end of the
    program: calls of the public operations, and runs of [inactiveMode].
    The operations hold the switch lock shared and [inactiveMode] holds it
    exclusively, so a run of [inactiveMode] falls between operations, and
    the life of the client is a sequence of both. *)
Inductive action :=
| ActInvoke (contract : Uint160) (fee : Z) (method : string) (args : list arg)
| ActTestInvoke (contract : Uint160) (method : string) (args : list arg)
| ActTransferGas (receiver : Uint160) (amount : Z)
| ActWait (fuel : nat) (ctx : Context) (n : Z)
| ActGasBalance
| ActCommittee
| ActTxHalt (h : Uint256)
| ActTxHeight (h : Uint256)
| ActBlockCount
| ActMsPerBlock
| ActIsValidScript (script : bytes) (signers : list Signer)
| ActNeoFSAlphabetList
| ActGetDesignateHash
| ActMagicNumber
| ActInactiveMode.

(** An operation leaves the fields of the client as they are. *)
Definition unchanged {A} (op : M A) (c : Client) : M Client := op ;;; ret c.

Definition perform (a : action) (c : Client) : M Client :=
  match a with
  | ActInvoke contract fee method args => unchanged (Invoke c contract fee method args) c
  | ActTestInvoke contract method args => unchanged (TestInvoke c contract method args) c
  | ActTransferGas receiver amount => unchanged (TransferGas c receiver amount) c
  | ActWait fuel ctx n => unchanged (Wait fuel c ctx n) c
  | ActGasBalance => unchanged (GasBalance c) c
  | ActCommittee => unchanged (Committee c) c
  | ActTxHalt h => unchanged (TxHalt c h) c
  | ActTxHeight h => unchanged (TxHeight c h) c
  | ActBlockCount => unchanged (BlockCount c) c
  | ActMsPerBlock => unchanged (MsPerBlock c) c
  | ActIsValidScript script signers => unchanged (IsValidScript c script signers) c
  | ActNeoFSAlphabetList => unchanged (NeoFSAlphabetList c) c
  | ActGetDesignateHash => unchanged (GetDesignateHash c) c
  | ActMagicNumber => unchanged (MagicNumber c) c
  | ActInactiveMode => inactiveMode c
  end.

(** The actions one after the other; a panic ends the life of the client. *)
Fixpoint run_history (acts : list action) (c : Client) : M Client :=
  match acts with
  | [] => ret c
  | a :: rest => c' <- perform a c ;; run_history rest c'
  end.

Definition is_operation (a : action) : bool :=
  match a with ActInactiveMode => false | _ => true end.

(** The client as the constructor leaves it: the flag is not set and the
    notification channel is open. *)
Definition Active (c : Client) : Prop :=
  inactive c = false /\ notifications_closed c = false.

(** Every close of the channel and every call of the callback on the
    trace happens while the exclusive switch lock is held; the result is
    whether the lock is held at the end. *)
Fixpoint under_lock (held : bool) (tr : list event) : option bool :=
  match tr with
  | [] => Some held
  | EvLock :: rest => if held then None else under_lock true rest
  | EvUnlock :: rest => if held then under_lock false rest else None
  | EvClose :: rest => if held then under_lock held rest else None
  | EvInactiveModeCb _ :: rest => if held then under_lock held rest else None
  | _ :: rest => under_lock held rest
  end.

(** An event of an operation: it neither closes the channel, nor calls
    the callback, nor touches the exclusive lock. *)
Definition is_operation_event (e : event) : bool :=
  match e with
  | EvLock | EvUnlock | EvClose | EvInactiveModeCb _ => false
  | _ => true
  end.

(** An operation only appends events of operations to the trace. *)
Definition appends_operation_events {A} (op : M A) : Prop :=
  forall w, exists seg,
    trace (snd (op w)) = trace w ++ seg /\
    forallb is_operation_event seg = true.

(** ** Sample connections *)

Definition sample_tx : Uint256 := mkUint256 (repeat Byte.x22 32).
Definition sample_key : PublicKey := mkPublicKey (Byte.x02 :: repeat Byte.x33 32).

(** A connection that answers every execution request with [report] and
    every height query, by the number of requests served, with [height];
    every other query returns [other] as its error. *)
Definition sample_ws (report : result_Invoke * option error)
    (height : nat -> Z * option error) (other : option error) : WSClient :=
  mkWSClient
    (fun _ _ _ _ _ => report)
    (fun _ _ _ _ _ _ => (sample_tx, other))
    (fun _ _ => (sample_hash, other))
    (fun _ _ _ _ _ _ => (sample_tx, other))
    height
    (fun _ _ _ => (700, other))
    (fun _ => ([sample_key], other))
    (fun _ _ _ => (mkLog [mkState true false false], other))
    (fun _ _ => (42, other))
    (fun _ _ _ => ([sample_key], other))
    (fun _ => (5195086, other))
    (fun _ => (15000, other))
    (fun _ _ _ => report).

Definition sample_client (ws : WSClient) (is_inactive : bool) : Client :=
  mkClient ws (mkAccount sample_hash) (mkSigner sample_hash Global [] [])
    (mkCfg 500 (Some 7%nat)) is_inactive is_inactive.

Definition halt_report : result_Invoke * option error :=
  (mkInvoke "HALT" 1000 [Byte.x0c; Byte.x41] [ItemBool true] "", None).

Definition fault_report : result_Invoke * option error :=
  (mkInvoke "FAULT" 5 [] [] "at instruction 3 (THROW): not witnessed", None).

Definition growing_height (t : nat) : Z * option error := (100 + Z.of_nat t, None).

(** The height query fails once, at the second request, and the chain
    is ten blocks further at every later request. *)
Definition flaky_height (t : nat) : Z * option error :=
  if (t =? 1)%nat then (0, Some (errRPC "timeout"))
  else (100 + 10 * Z.of_nat t, None).

(** The same, but the height query fails at the third request, after a
    pass that has found the chain one block further. *)
Definition late_flaky_height (t : nat) : Z * option error :=
  if (t =? 2)%nat then (0, Some (errRPC "timeout"))
  else (100 + Z.of_nat t, None).

Definition good_ws : WSClient := sample_ws halt_report growing_height None.
Definition faulting_ws : WSClient := sample_ws fault_report growing_height None.
Definition flaky_ws : WSClient := sample_ws halt_report flaky_height None.
Definition late_flaky_ws : WSClient := sample_ws halt_report late_flaky_height None.
Definition broken_ws : WSClient :=
  sample_ws (mkInvoke "" 0 [] [] "", Some (errRPC "eof"))
    (fun _ => (0, Some (errRPC "eof"))) (Some (errRPC "eof")).

Definition never_cancelled : Context := fun _ => false.
Definition cancelled : Context := fun _ => true.

(** ** Further trace predicates *)

Definition is_lock_event (e : event) : bool :=
  match e with
  | EvRLock | EvRUnlock | EvLock | EvUnlock => true
  | _ => false
  end.

(** A trace that takes the shared lock first, releases it last and does
    not touch the switch lock in between. *)
Definition bracketed (tr : list event) : bool :=
  match tr with
  | EvRLock :: rest =>
      match rev rest with
      | EvRUnlock :: mid => forallb (fun e => negb (is_lock_event e)) mid
      | _ => false
      end
  | _ => false
  end.

(** What the loop of [Wait] may leave on the trace: height queries, log
    records and sleeps of the configured interval. *)
Definition is_wait_event (d : Z) (e : event) : bool :=
  match e with
  | EvRequest ReqGetBlockCount => true
  | EvLog _ _ _ => true
  | EvSleep d' => d' =? d
  | _ => false
  end.

(** A connection on which the chain stands still at [h]. *)
Definition still_height (h : Z) (t : nat) : Z * option error := (h, None).

(** The parameter that a supported argument converts to. *)
Definition converted (a : arg) : sc_Parameter := fst (toStackParameter a).

(** ** Any mix of calls on the fact cache *)

(** Goroutines in any of the five methods of the cache. *)
Record pool := mkPool { pool_mem : shared; frames : list frame }.

Inductive pool_step : pool -> pool -> Prop :=
| pool_step_frame p i fr sh' fr' :
    nth_error (frames p) i = Some fr ->
    step_frame (pool_mem p) fr = Some (sh', fr') ->
    pool_step p (mkPool sh' (set_nth i fr' (frames p))).

Inductive pool_steps : pool -> pool -> Prop :=
| pool_steps_refl p : pool_steps p p
| pool_steps_step p1 p2 p3 : pool_steps p1 p2 -> pool_step p2 p3 -> pool_steps p1 p3.

Definition is_method_body (b : list stmt) : Prop :=
  b = nns_body \/ b = groupKey_body \/ b = invalidate_body \/
  (exists h, b = setNNSHash_body h) \/ (exists k, b = setGroupKey_body k).

Definition pool_initial (f : cache) (bodies : list (list stmt)) : pool :=
  mkPool (mkShared (mkRWMutex false 0) f) (map enter bodies).

(** A frame holds the exclusive lock between its [Lock] and its [Unlock]:
    when its next statement is a write or the [Unlock]. *)
Definition holds_wlock (fr : frame) : bool :=
  match code fr with
  | SSetNNSHash _ :: _ | SSetGKey _ :: _ | SPurge :: _ | SUnlock :: _ => true
  | _ => false
  end.

(** Where a method can stand. *)
Inductive method_code : list stmt -> Prop :=
| code_accessor cd : accessor_code cd -> method_code cd
| code_invalidate : method_code invalidate_body
| code_invalidate_1 : method_code [SSetNNSHash None; SSetGKey None; SPurge; SUnlock]
| code_invalidate_2 : method_code [SSetGKey None; SPurge; SUnlock]
| code_invalidate_3 : method_code [SPurge; SUnlock]
| code_unlocking : method_code [SUnlock]
| code_setNNSHash h : method_code (setNNSHash_body h)
| code_setNNSHash_1 h : method_code [SSetNNSHash (Some h); SUnlock]
| code_setGroupKey k : method_code (setGroupKey_body k)
| code_setGroupKey_1 k : method_code [SSetGKey k; SUnlock].

Definition counting (p : frame -> bool) (l : list frame) : nat :=
  List.length (filter p l).

Record pool_invariant (p : pool) : Prop := mkPoolInvariant {
  pinv_readers : readers (m (pool_mem p)) = counting holds_rlock (frames p);
  pinv_writer : Nat.b2n (writer (m (pool_mem p))) = counting holds_wlock (frames p);
  pinv_exclusive : writer (m (pool_mem p)) = true -> readers (m (pool_mem p)) = 0%nat;
  pinv_code : Forall (fun fr => method_code (code fr)) (frames p)
}.

(** A schedule for a pool names the frame that runs its next statement. *)
Definition pool_schedule_step (i : nat) (p : pool) : option pool :=
  match nth_error (frames p) i with
  | Some fr =>
      match step_frame (pool_mem p) fr with
      | Some (sh', fr') => Some (mkPool sh' (set_nth i fr' (frames p)))
      | None => None
      end
  | None => None
  end.

Fixpoint pool_run (sched : list nat) (p : pool) : option pool :=
  match sched with
  | [] => Some p
  | i :: rest =>
      match pool_schedule_step i p with
      | Some p' => pool_run rest p'
      | None => None
      end
  end.

(** ** Node attributes ([package attributes])

    Go strings are byte sequences; here they are [string]s, a byte being
    an [ascii]. *)
Module attributes.

(** [strings.ReplaceAll] for a non-empty [old] (it is [2] or [1] bytes long
    at every use below): the occurrences of [old] are replaced from left to
    right without overlap.  [skip] counts the bytes of a matched occurrence
    that are still to be passed over. *)
Fixpoint replace_from (skip : nat) (s old new : string) : string :=
  match s with
  | EmptyString => EmptyString
  | String c rest =>
      match skip with
      | S k => replace_from k rest old new
      | O =>
          if String.prefix old s
          then String.append new (replace_from (String.length old - 1) rest old new)
          else String c (replace_from 0 rest old new)
      end
  end.

Definition ReplaceAll (s old new : string) : string := replace_from 0 s old new.

(** The suffix of [s] after its first [n] bytes. *)
Fixpoint drop (n : nat) (s : string) : string :=
  match n, s with
  | O, _ => s
  | S _, EmptyString => EmptyString
  | S k, String _ rest => drop k rest
  end.

(** [strings.Cut]: the text before and after the first occurrence of
    [sep]; without an occurrence, [s], the empty string and [false]. *)
Fixpoint Cut (s sep : string) : string * string * bool :=
  if String.prefix sep s then (EmptyString, drop (String.length sep) s, true)
  else
    match s with
    | EmptyString => (s, EmptyString, false)
    | String c rest =>
        match Cut rest sep with
        | (before, after, true) => (String c before, after, true)
        | (_, _, false) => (s, EmptyString, false)
        end
    end.

Definition keyValueSeparator : string := ":".
Definition escChar : string := "\".

(** [string(uint8(2))] and [string(uint8(3))]. *)
Definition byte2 : ascii := "002"%char.
Definition byte3 : ascii := "003"%char.

Definition replaceEscaping (target : string) (rollback : bool) : string :=
  let oldKVSep := String.append escChar keyValueSeparator in
  let oldEsc := String.append escChar escChar in
  let newKVSep := String byte2 EmptyString in
  let newEsc := String byte3 EmptyString in
  let '(oldKVSep, oldEsc, newKVSep, newEsc) :=
    if rollback
    then (newKVSep, newEsc, keyValueSeparator, escChar)
    else (oldKVSep, oldEsc, newKVSep, newEsc) in
  let s := ReplaceAll target oldEsc newEsc in
  ReplaceAll s oldKVSep newKVSep.

Inductive parse_error :=
| errMissing                       (* missing attribute key and/or value *)
| errDuplicated (k : string)       (* duplicated keys %s *)
| errEmptyKey                      (* empty key *)
| errEmptyValue.                   (* empty value *)

Definition parse_error_text (e : parse_error) : string :=
  match e with
  | errMissing => "missing attribute key and/or value"
  | errDuplicated k => String.append "duplicated keys " k
  | errEmptyKey => "empty key"
  | errEmptyValue => "empty value"
  end.

(** The loop of [ReadNodeAttributes].  [cache] holds the keys seen so far
    (the Go map used as a set); [written] is the sequence of
    [dst.SetAttribute(k, v)] calls made so far, which stay made when a later
    line fails. *)
Fixpoint read_lines (attrs : list string) (cache : list string)
    (written : list (string * string))
  : list (string * string) * option parse_error :=
  match attrs with
  | [] => (written, None)
  | attr :: rest =>
      let line := replaceEscaping attr false in
      match Cut line keyValueSeparator with
      | (_, _, false) => (written, Some errMissing)
      | (k, v, true) =>
          if existsb (String.eqb k) cache then (written, Some (errDuplicated k))
          else
            let cache := k :: cache in
            let k := replaceEscaping k true in
            let v := replaceEscaping v true in
            if String.eqb k EmptyString then (written, Some errEmptyKey)
            else if String.eqb v EmptyString then (written, Some errEmptyValue)
            else read_lines rest cache (written ++ [(k, v)])
      end
  end.

Definition ReadNodeAttributes (attrs : list string)
  : list (string * string) * option parse_error :=
  read_lines attrs [] [].

(** [escape] writes a key or value the way the parser expects it: a
    backslash before every backslash and every separator. *)
Fixpoint escape (s : string) : string :=
  match s with
  | EmptyString => EmptyString
  | String c rest =>
      if Ascii.eqb c "\"%char then String "\"%char (String "\"%char (escape rest))
      else if Ascii.eqb c ":"%char then String "\"%char (String ":"%char (escape rest))
      else String c (escape rest)
  end.

(** The line of an attribute. *)
Definition line_of (kv : string * string) : string :=
  String.append (escape (fst kv)) (String.append keyValueSeparator (escape (snd kv))).

(** The form of a text between the two passes of the parser: the
    backslashes are byte 3, the separators byte 2. *)
Fixpoint coded (s : string) : string :=
  match s with
  | EmptyString => EmptyString
  | String c rest =>
      if Ascii.eqb c "\"%char then String byte3 (coded rest)
      else if Ascii.eqb c ":"%char then String byte2 (coded rest)
      else String c (coded rest)
  end.

(** The text after the first replacement of the forward pass (escaped
    backslashes are byte 3, escaped separators still escaped), and after
    the first replacement of the backward pass (backslashes are back,
    separators are byte 2). *)
Fixpoint half_coded (s : string) : string :=
  match s with
  | EmptyString => EmptyString
  | String c rest =>
      if Ascii.eqb c "\"%char then String byte3 (half_coded rest)
      else if Ascii.eqb c ":"%char
           then String "\"%char (String ":"%char (half_coded rest))
           else String c (half_coded rest)
  end.

Fixpoint half_decoded (s : string) : string :=
  match s with
  | EmptyString => EmptyString
  | String c rest =>
      if Ascii.eqb c ":"%char then String byte2 (half_decoded rest)
      else String c (half_decoded rest)
  end.

(** No byte of [s] satisfies [p]. *)
Fixpoint free_of (p : ascii -> bool) (s : string) : bool :=
  match s with
  | EmptyString => true
  | String c rest => negb (p c) && free_of p rest
  end.

Definition is_control (c : ascii) : bool := Ascii.eqb c byte2 || Ascii.eqb c byte3.
Definition is_separator (c : ascii) : bool := Ascii.eqb c ":"%char.

(** A key or value that can be written and read back: not empty, and
    without the two bytes that the parser uses for itself. *)
Definition plain (s : string) : bool :=
  negb (String.eqb s EmptyString) && free_of is_control s.

Definition plain_pair (kv : string * string) : bool :=
  plain (fst kv) && plain (snd kv).

Definition is_backslash (c : ascii) : bool := Ascii.eqb c "\"%char.

(** The key of a line as the loop looks it up in its set of keys: the text
    before the first separator that the forward pass has left. *)
Definition compared_key (attr : string) : string :=
  fst (fst (Cut (replaceEscaping attr false) keyValueSeparator)).

(** Whether every separator of a line is escaped.  The line is read from
    the left: a backslash and the backslash after it are an escaped
    backslash, a backslash and the separator after it are an escaped
    separator, and every other byte, a backslash before anything else
    included, stands for itself. *)
Fixpoint separators_escaped (s : string) : bool :=
  match s with
  | EmptyString => true
  | String c rest =>
      if Ascii.eqb c "\"%char then
        match rest with
        | EmptyString => true
        | String d rest' =>
            if Ascii.eqb d "\"%char || Ascii.eqb d ":"%char
            then separators_escaped rest'
            else separators_escaped rest
        end
      else if Ascii.eqb c ":"%char then false
      else separators_escaped rest
  end.

(** The same of a text in which the escaped backslashes have been
    replaced: every separator stands after a backslash. *)
Fixpoint separators_behind_backslash (s : string) : bool :=
  match s with
  | EmptyString => true
  | String c rest =>
      if Ascii.eqb c "\"%char then
        match rest with
        | EmptyString => true
        | String d rest' =>
            if Ascii.eqb d ":"%char
            then separators_behind_backslash rest'
            else separators_behind_backslash rest
        end
      else if Ascii.eqb c ":"%char then false
      else separators_behind_backslash rest
  end.

End attributes.

(** ** Setting policy parameters ([package morph])

    [newInitializeContext], [sendCommitteeTx] and [awaitTx] are not part of
    the file; their results are taken as given: the error of the
    initialization, the error of sending a script, the error of awaiting the
    transaction. *)
Module morph.

Definition execFeeParam : string := "ExecFeeFactor".
Definition storagePriceParam : string := "StoragePrice".
Definition setFeeParam : string := "FeePerByte".

(** [strconv.ParseUint(s, 10, 32)]: the two kinds of [*NumError]. *)
Inductive NumError := ErrSyntax | ErrRange.

Definition maxVal : Z := 2 ^ 32 - 1.
Definition cutoff : Z := (2 ^ 64 - 1) / 10 + 1.

(** The value of a byte as a decimal digit.  (A letter is a digit of a
    larger base for [ParseUint]; it is not below the base 10, which is the
    same syntax error as any other byte.) *)
Definition digit (c : ascii) : option Z :=
  let n := Z.of_nat (nat_of_ascii c) in
  if (48 <=? n) && (n <=? 57) then Some (n - 48) else None.

(** The loop of [ParseUint] over the bytes of the text; [n] is a
    [uint64]. *)
Fixpoint parse_digits (s : string) (n : Z) : Z * option NumError :=
  match s with
  | EmptyString => (n, None)
  | String c rest =>
      match digit c with
      | None => (0, Some ErrSyntax)
      | Some d =>
          if n >=? cutoff then (maxVal, Some ErrRange)
          else
            let n := uint64 (n * 10) in
            let n1 := uint64 (n + d) in
            if (n1 <? n) || (n1 >? maxVal) then (maxVal, Some ErrRange)
            else parse_digits rest n1
      end
  end.

Definition ParseUint (s : string) : Z * option NumError :=
  match s with
  | EmptyString => (0, Some ErrSyntax)
  | _ => parse_digits s 0
  end.

(** One [emit.AppCall] on the policy contract: the method and its
    argument. *)
Definition AppCall := (string * Z)%type.

Inductive cmd_error :=
| errInitialize (e : string)       (* can't to initialize context: %w *)
| errFormat                        (* invalid parameter format, must be Parameter=Value *)
| errParameter                     (* parameter must be one of ... *)
| errValue (quoted : string) (e : NumError)   (* can't parse parameter value '%s': %w *)
| errContext (e : string).         (* from sendCommitteeTx or awaitTx *)

Inductive cmd_result :=
| Return (err : option cmd_error)
| PanicIndexOutOfRange.

Inductive cmd_event :=
| SendCommitteeTx (script : list AppCall)
| AwaitTx.

Definition is_policy_param (k : string) : bool :=
  String.eqb k execFeeParam || String.eqb k storagePriceParam
  || String.eqb k setFeeParam.

(** The loop over the arguments; [all] is the whole slice, which the
    message for a value that does not parse indexes at 1. *)
Fixpoint policy_loop (all args : list string) (script : list AppCall)
  : list AppCall + cmd_result :=
  match args with
  | [] => inl script
  | arg :: rest =>
      match attributes.Cut arg "=" with
      | (_, _, false) => inr (Return (Some errFormat))
      | (k, v, true) =>
          if negb (is_policy_param k) then inr (Return (Some errParameter))
          else
            match ParseUint v with
            | (_, Some e) =>
                match nth_error all 1 with
                | Some quoted => inr (Return (Some (errValue quoted e)))
                | None => inr PanicIndexOutOfRange
                end
            | (value, None) =>
                policy_loop all rest
                  (script ++ [(String.append "set" k, int64 value)])
            end
      end
  end.

Definition setPolicyCmd (initialized : option string)
    (sendCommitteeTx : list AppCall -> option string) (awaitTx : option string)
    (args : list string) : cmd_result * list cmd_event :=
  match initialized with
  | Some e => (Return (Some (errInitialize e)), [])
  | None =>
      match policy_loop args args [] with
      | inr r => (r, [])
      | inl script =>
          match sendCommitteeTx script with
          | Some e => (Return (Some (errContext e)), [SendCommitteeTx script])
          | None =>
              (Return (option_map errContext awaitTx),
               [SendCommitteeTx script; AwaitTx])
          end
      end
  end.

(** An argument that passes the checks of the loop, and the call it
    adds to the script. *)
Definition parsed_arg (arg : string) : option AppCall :=
  match attributes.Cut arg "=" with
  | (k, v, true) =>
      if is_policy_param k
      then match ParseUint v with
           | (value, None) => Some (String.append "set" k, int64 value)
           | _ => None
           end
      else None
  | _ => None
  end.

Definition valid_arg (arg : string) : bool :=
  match parsed_arg arg with Some _ => true | None => false end.

(** The calls of the arguments that pass the checks. *)
Fixpoint calls_of (args : list string) : list AppCall :=
  match args with
  | [] => []
  | arg :: rest =>
      match parsed_arg arg with
      | Some call => call :: calls_of rest
      | None => calls_of rest
      end
  end.

Definition is_send (e : cmd_event) : bool :=
  match e with SendCommitteeTx _ => true | AwaitTx => false end.

(** The value of a text of decimal digits, read from [n] on. *)
Fixpoint value_from (n : Z) (s : string) : Z :=
  match s with
  | EmptyString => n
  | String c rest =>
      match digit c with
      | Some d => value_from (10 * n + d) rest
      | None => n
      end
  end.

Definition decimal_value (s : string) : Z := value_from 0 s.

Fixpoint all_digits (s : string) : bool :=
  match s with
  | EmptyString => true
  | String c rest =>
      match digit c with Some _ => all_digits rest | None => false end
  end.

(** A value that [setPolicyCmd] accepts: decimal digits, at least one,
    worth at most [2^32 - 1]. *)
Definition accepted_value (v : string) : bool :=
  negb (String.eqb v EmptyString) && all_digits v && (decimal_value v <=? maxVal).

End morph.

(** ** Reading a configuration directory ([package config])

    The file system and the configuration library are outside the file:
    what [os.ReadDir], [os.Open], [MergeConfig] and [Close] return is
    given by an [environment], and [path.Join] is its [Join]. *)
Module config.

Record DirEntry := mkEntry { Name : string; IsDir : bool }.

Record environment := mkEnv {
  ReadDir : string -> list DirEntry * option string;
  Join : string -> string -> string;
  Open : string -> option string;
  MergeConfig : string -> option string;
  Close : string -> option string
}.

Inductive fs_event :=
| EvOpen (fileName : string)
| EvMergeConfig (fileName : string)
| EvCloseFile (fileName : string).

Fixpoint has_slash (p : string) : bool :=
  match p with
  | EmptyString => false
  | String c rest => Ascii.eqb c "/"%char || has_slash rest
  end.

(** [path.Ext]: the suffix that begins at the last dot of the last
    slash-separated element of the path; empty if there is no dot. *)
Fixpoint Ext (p : string) : string :=
  match p with
  | EmptyString => EmptyString
  | String c rest =>
      if has_slash rest then Ext rest
      else if negb (String.eqb (Ext rest) EmptyString) then Ext rest
      else if Ascii.eqb c "."%char then p
      else EmptyString
  end.

(** [mergeConfig]: the deferred function closes the file and reports the
    error of closing only if nothing else failed. *)
Definition mergeConfig (env : environment) (fileName : string)
  : option string * list fs_event :=
  match Open env fileName with
  | Some err => (Some err, [EvOpen fileName])
  | None =>
      let events := [EvOpen fileName; EvMergeConfig fileName; EvCloseFile fileName] in
      match MergeConfig env fileName with
      | Some err => (Some err, events)
      | None => (Close env fileName, events)
      end
  end.

(** An entry that [ReadConfigDir] merges. *)
Definition is_config_file (entry : DirEntry) : bool :=
  negb (IsDir entry)
  && (String.eqb (Ext (Name entry)) ".yaml" || String.eqb (Ext (Name entry)) ".yml").

Fixpoint merge_entries (env : environment) (configDir : string)
    (entries : list DirEntry) : option string * list fs_event :=
  match entries with
  | [] => (None, [])
  | entry :: rest =>
      if IsDir entry then merge_entries env configDir rest
      else
        let ext := Ext (Name entry) in
        if negb (String.eqb ext ".yaml") && negb (String.eqb ext ".yml")
        then merge_entries env configDir rest
        else
          match mergeConfig env (Join env configDir (Name entry)) with
          | (Some err, events) => (Some err, events)
          | (None, events) =>
              let '(err, more) := merge_entries env configDir rest in
              (err, events ++ more)
          end
  end.

Definition ReadConfigDir (env : environment) (configDir : string)
  : option string * list fs_event :=
  match ReadDir env configDir with
  | (_, Some err) => (Some err, [])
  | (entries, None) => merge_entries env configDir entries
  end.

Definition is_open (e : fs_event) : bool :=
  match e with EvOpen _ => true | _ => false end.
Definition is_close_file (e : fs_event) : bool :=
  match e with EvCloseFile _ => true | _ => false end.

(** The events of merging one file without any failure. *)
Definition merged (fileName : string) : list fs_event :=
  [EvOpen fileName; EvMergeConfig fileName; EvCloseFile fileName].

(** The files to merge, in the order of the entries. *)
Definition config_files (env : environment) (configDir : string)
    (entries : list DirEntry) : list string :=
  map (fun entry => Join env configDir (Name entry)) (filter is_config_file entries).

(** A file that opens, merges and closes without error. *)
Definition file_ok (env : environment) (fileName : string) : Prop :=
  Open env fileName = None /\ MergeConfig env fileName = None /\
  Close env fileName = None.

(** A directory with a subdirectory and four files, in which merging the
    file [bad] fails, and closing it too. *)
Definition sample_env (bad : string) : environment :=
  mkEnv
    (fun _ => ([mkEntry "conf.d" true; mkEntry "a.yaml" false;
                mkEntry "notes.txt" false; mkEntry "b.yml" false;
                mkEntry "c.yaml" false], None))
    (fun dir name => String.append dir (String "/"%char name))
    (fun _ => None)
    (fun f => if String.eqb f bad then Some "malformed"%string else None)
    (fun f => if String.eqb f bad then Some "close failed"%string else None).

End config.

(** * Properties *)

(** ** Argument conversion *)

Example toStackParameter_keys :
  toStackParameter (GoPublicKeys [mkPublicKey [Byte.x02]; mkPublicKey []]) =
  (mkParameter ArrayType
     (Params [mkParameter ByteArrayType (Raw (GoBytes [Byte.x02]));
              mkParameter ByteArrayType (Raw (GoBytes []))]), None).
Proof. reflexivity. Qed.

Example toStackParameter_uint64_max :
  toStackParameter (GoUint64 (2 ^ 64 - 1)) =
  (mkParameter IntegerType (BigInt 18446744073709551615), None).
Proof. reflexivity. Qed.

(** ** Running the operations *)

Ltac run_op :=
  unfold fails_fast, one_request_under_lock, result_of, trace_of, run,
    RLock, RUnlock, log_height_error, roleList, defer, bind, emit, call, ret,
    panic, out_of_fuel;
  cbn [sent trace fst snd app].

Ltac use_eq H := rewrite H; cbn [sent trace fst snd app negb].

Lemma HaltState_eqb (s : string) : s = HaltState -> String.eqb s HaltState = true.
Proof. intros ->. reflexivity. Qed.

Lemma not_HaltState_eqb (s : string) : s <> HaltState -> String.eqb s HaltState = false.
Proof. intros H. apply String.eqb_neq. exact H. Qed.

(** ** The terminal flag *)

(** C2.  Once [inactive] is set, each of the fourteen public operations
    takes the shared switch lock, sees the flag and returns
    [ErrConnectionLost] at once: the trace is the lock and its release, and
    the connection has served no request. *)
Theorem inactive_client_fails_fast (c : Client) (Hc : inactive c = true) :
  (forall contract fee method args,
      fails_fast (Invoke c contract fee method args) (fun e => e)) /\
  (forall contract method args,
      fails_fast (TestInvoke c contract method args) snd) /\
  (forall receiver amount, fails_fast (TransferGas c receiver amount) (fun e => e)) /\
  (forall fuel ctx n, fails_fast (Wait fuel c ctx n) (fun e => e)) /\
  fails_fast (GasBalance c) snd /\
  fails_fast (Committee c) snd /\
  (forall h, fails_fast (TxHalt c h) snd) /\
  (forall h, fails_fast (TxHeight c h) snd) /\
  fails_fast (BlockCount c) snd /\
  fails_fast (MsPerBlock c) snd /\
  (forall script signers, fails_fast (IsValidScript c script signers) snd) /\
  fails_fast (NeoFSAlphabetList c) snd /\
  fails_fast (GetDesignateHash c) snd /\
  fails_fast (MagicNumber c) snd.
Proof.
  repeat split; intros;
    unfold Invoke, TestInvoke, TransferGas, Wait, GasBalance, Committee, TxHalt,
      TxHeight, BlockCount, MsPerBlock, IsValidScript, NeoFSAlphabetList,
      GetDesignateHash, MagicNumber;
    run_op; intros; use_eq Hc; eexists; split; reflexivity.
Qed.

Lemma inactive_client_fails_fast_sample :
  inactive (sample_client good_ws true) = true /\
  fails_fast (BlockCount (sample_client good_ws true)) snd /\
  fails_fast (MagicNumber (sample_client good_ws true)) snd.
Proof.
  split; [reflexivity|].
  pose proof (inactive_client_fails_fast (sample_client good_ws true) eq_refl) as H.
  split; apply H.
Defined.

(** ** State-changing invoke *)

(** C1.  When the execution report of [Invoke] has a state other than
    ["HALT"], the call returns the NeoFS error around [notHaltStateError]
    with the reported state and fault text (both appear in its message),
    and the only request on the trace is the test execution: nothing is
    signed or pushed. *)
Theorem Invoke_fault_is_reported_not_submitted
    (c : Client) (contract : Uint160) (fee : Z) (method : string)
    (args : list arg) (params : list sc_Parameter) (resp : result_Invoke) (t : nat)
    (Hactive : inactive c = false)
    (Hargs : toStackParameters args [] = inl params)
    (Hresp : InvokeFunction (client c) t contract method params (invoke_cosigner c)
             = (resp, None))
    (Hstate : State resp <> HaltState) :
  let e := neofsError (notHaltStateError (State resp) (FaultException resp)) in
  let op := Invoke c contract fee method args in
  result_of op t = Returned (Some e) /\
  Error e = ("neofs error: chain/client: contract execution finished with state "
               ++ State resp ++ "; exception: " ++ FaultException resp)%string /\
  trace_of op t =
    [EvRLock;
     EvRequest (ReqInvokeFunction contract method params (invoke_cosigner c));
     EvRUnlock] /\
  count is_submission (trace_of op t) = 0%nat.
Proof.
  intros e op. subst e op.
  assert (Hrun : run (Invoke c contract fee method args) t =
    (Returned (Some (neofsError (notHaltStateError (State resp) (FaultException resp)))),
     mkWorld (S t)
       [EvRLock;
        EvRequest (ReqInvokeFunction contract method params (invoke_cosigner c));
        EvRUnlock])).
  { unfold Invoke. run_op. use_eq Hactive. use_eq Hargs. use_eq Hresp.
    rewrite (not_HaltState_eqb _ Hstate). reflexivity. }
  unfold result_of, trace_of. rewrite Hrun. cbn [fst snd trace].
  repeat split; reflexivity.
Qed.

Lemma Invoke_fault_is_reported_not_submitted_sample :
  let c := sample_client faulting_ws false in
  result_of (Invoke c sample_hash 10 "put" [GoInt64 1]) 0 =
    Returned (Some (neofsError
      (notHaltStateError "FAULT" "at instruction 3 (THROW): not witnessed"))) /\
  count is_submission (trace_of (Invoke c sample_hash 10 "put" [GoInt64 1]) 0) = 0%nat.
Proof.
  intros c.
  assert (Hstate : State (fst fault_report) <> HaltState) by discriminate.
  destruct (Invoke_fault_is_reported_not_submitted c sample_hash 10 "put"
              [GoInt64 1] [mkParameter IntegerType (BigInt 1)] (fst fault_report) 0
              eq_refl eq_refl eq_refl Hstate) as (Hres & _ & _ & Hcount).
  split; [exact Hres | exact Hcount].
Defined.

(** C7.  When the report is ["HALT"] with a non-empty script, [Invoke]
    sends the script to [SignAndPushInvocationTx] with, as system fee, the
    [int64] sum of the consumed gas and the extra fee (the exact sum
    whenever it fits 64 bits) and network fee 0, and returns what the
    submission returned: the submission is the last request, no query for
    confirmation follows. *)
Theorem Invoke_halt_submits_with_fee
    (c : Client) (contract : Uint160) (fee : Z) (method : string)
    (args : list arg) (params : list sc_Parameter) (resp : result_Invoke) (t : nat)
    (Hactive : inactive c = false)
    (Hargs : toStackParameters args [] = inl params)
    (Hresp : InvokeFunction (client c) t contract method params (invoke_cosigner c)
             = (resp, None))
    (Hstate : State resp = HaltState)
    (Hscript : Script resp <> []) :
  let op := Invoke c contract fee method args in
  let sysFee := int64 (GasConsumed resp + fee) in
  let pushed := SignAndPushInvocationTx (client c) (S t) (Script resp) (acc c)
                  sysFee 0 (invoke_cosignerAcc c) in
  (- 2 ^ 63 <= GasConsumed resp + fee < 2 ^ 63 -> sysFee = GasConsumed resp + fee) /\
  result_of op t = Returned (snd pushed) /\
  trace_of op t =
    [EvRLock;
     EvRequest (ReqInvokeFunction contract method params (invoke_cosigner c));
     EvRequest (ReqSignAndPushInvocationTx (Script resp) (acc c) sysFee 0
                  (invoke_cosignerAcc c))]
    ++ match snd pushed with
       | Some _ => []
       | None => [EvLog "debug" "neo client invoke"
                    [zap_String "method" method;
                     zap_Hash "tx_hash" (Reverse (fst pushed))]]
       end
    ++ [EvRUnlock] /\
  sent (snd (run op t)) = S (S t).
Proof.
  intros op sysFee pushed. split.
  { intros Hfit. unfold sysFee, int64.
    rewrite Z.mod_small by lia. lia. }
  assert (Hlen : (List.length (Script resp) =? 0)%nat = false).
  { destruct (Script resp); [contradiction | reflexivity]. }
  subst op pushed. unfold Invoke. run_op. use_eq Hactive. use_eq Hargs. use_eq Hresp.
  rewrite (HaltState_eqb _ Hstate). cbn [negb]. rewrite Hlen.
  fold sysFee.
  destruct (SignAndPushInvocationTx _ _ _ _ _ _ _) as [txHash [e|]];
    cbn [fst snd sent trace app]; repeat split; reflexivity.
Qed.

Lemma Invoke_halt_submits_with_fee_sample :
  let c := sample_client good_ws false in
  trace_of (Invoke c sample_hash 10 "put" [GoInt64 1]) 0 =
    [EvRLock;
     EvRequest (ReqInvokeFunction sample_hash "put"
                  [mkParameter IntegerType (BigInt 1)] (invoke_cosigner c));
     EvRequest (ReqSignAndPushInvocationTx [Byte.x0c; Byte.x41] (acc c) 1010 0
                  (invoke_cosignerAcc c));
     EvLog "debug" "neo client invoke"
       [zap_String "method" "put"; zap_Hash "tx_hash" (Reverse sample_tx)];
     EvRUnlock].
Proof.
  intros c.
  assert (Hscript : Script (fst halt_report) <> []) by discriminate.
  destruct (Invoke_halt_submits_with_fee c sample_hash 10 "put"
              [GoInt64 1] [mkParameter IntegerType (BigInt 1)] (fst halt_report) 0
              eq_refl eq_refl eq_refl eq_refl Hscript) as (_ & _ & Htrace & _).
  exact Htrace.
Defined.

(** ** Unsupported arguments *)

Lemma toStackParameter_bytes (x : bytes) :
  toStackParameter (GoBytes x) = (mkParameter ByteArrayType (Raw (GoBytes x)), None).
Proof. now simp toStackParameter. Qed.

Lemma convert_elems_bytes (v : list bytes) : forall arr,
  convert_elems (fun x => toStackParameter (GoBytes x)) v arr =
  inl (arr ++ map (fun x => mkParameter ByteArrayType (Raw (GoBytes x))) v).
Proof.
  induction v as [|x v IH]; intros arr; cbn [convert_elems map].
  - now rewrite app_nil_r.
  - rewrite toStackParameter_bytes, IH, <- app_assoc. reflexivity.
Qed.

Lemma toStackParameter_bytes_slice (v : list bytes) :
  toStackParameter (GoBytesSlice v) =
  (mkParameter ArrayType
     (Params (map (fun x => mkParameter ByteArrayType (Raw (GoBytes x))) v)), None).
Proof. simp toStackParameter. now rewrite convert_elems_bytes. Qed.

Lemma toStackParameter_public_keys (v : PublicKeys) :
  toStackParameter (GoPublicKeys v) =
  (mkParameter ArrayType
     (Params (map (fun x => mkParameter ByteArrayType (Raw (GoBytes x)))
                (map Bytes v))), None).
Proof. rewrite <- toStackParameter_bytes_slice. now simp toStackParameter. Qed.

(** The conversion fails on the dynamic types outside the switch, and on
    nothing else. *)
Lemma toStackParameter_error (a : arg) :
  snd (toStackParameter a) =
  if unsupported a then Some (neofsError (errUnsupportedParameter a)) else None.
Proof.
  destruct a; cbn [unsupported];
    try (rewrite toStackParameter_bytes_slice; reflexivity);
    try (rewrite toStackParameter_public_keys; reflexivity);
    now simp toStackParameter.
Qed.

Lemma toStackParameters_unsupported (args : list arg) : forall params,
  existsb unsupported args = true ->
  exists a, In a args /\ unsupported a = true /\
            toStackParameters args params = inr (neofsError (errUnsupportedParameter a)).
Proof.
  induction args as [|a args IH]; intros params H; cbn in H; [discriminate|].
  cbn [toStackParameters].
  pose proof (toStackParameter_error a) as Ha.
  destruct (toStackParameter a) as [p e]. cbn [snd] in Ha. subst e.
  destruct (unsupported a) eqn:Hu.
  - exists a. repeat split; [now left | exact Hu].
  - cbn in H. destruct (IH (params ++ [p]) H) as (b & Hin & Hb & Hconv).
    exists b. repeat split; [now right | exact Hb | exact Hconv].
Qed.

(** C6.  If some argument of [Invoke] or [TestInvoke] has a dynamic type
    outside the supported set, the call returns an error and the connection
    has served no request; on an active client the error is the NeoFS
    error for an unsupported argument of the call (on an inactive one the
    call has already ended with [ErrConnectionLost]).  Byte-slice arrays
    and key lists are typed, so their elements are always supported: an
    unsupported value is an argument of the call itself. *)
Theorem unsupported_argument_fails_before_io
    (c : Client) (contract : Uint160) (fee : Z) (method : string)
    (args : list arg) (t : nat)
    (Hbad : existsb unsupported args = true) :
  exists e : error,
    (inactive c = false ->
       exists a, In a args /\ unsupported a = true /\
                 e = neofsError (errUnsupportedParameter a)) /\
    (inactive c = true -> e = ErrConnectionLost) /\
    run (Invoke c contract fee method args) t =
      (Returned (Some e), mkWorld t [EvRLock; EvRUnlock]) /\
    run (TestInvoke c contract method args) t =
      (Returned ([], Some e), mkWorld t [EvRLock; EvRUnlock]).
Proof.
  destruct (toStackParameters_unsupported args [] Hbad) as (a & Hin & Hu & Hconv).
  unfold Invoke, TestInvoke. run_op.
  destruct (inactive c) eqn:Hc; cbn [sent trace fst snd app].
  - exists ErrConnectionLost. repeat split; try reflexivity. discriminate.
  - rewrite Hconv. cbn [sent trace fst snd app].
    exists (neofsError (errUnsupportedParameter a)).
    repeat split; try reflexivity.
    + intros _. exists a. repeat split; assumption.
    + discriminate.
Qed.

Lemma unsupported_argument_fails_before_io_sample :
  exists e : error,
    run (Invoke (sample_client good_ws false) sample_hash 0 "put"
           [GoBytes []; GoOther "float64" "1.5"; GoBool true]) 0 =
      (Returned (Some e), mkWorld 0 [EvRLock; EvRUnlock]).
Proof.
  destruct (unsupported_argument_fails_before_io (sample_client good_ws false)
              sample_hash 0 "put"
              [GoBytes []; GoOther "float64" "1.5"; GoBool true] 0 eq_refl)
    as (e & _ & _ & Hrun & _).
  exists e. exact Hrun.
Defined.

Example unsupported_argument_message :
  option_map Error
    (snd (toStackParameter (GoOther "float64" "1.5"))) =
  Some "neofs error: chain/client: unsupported parameter 1.5"%string.
Proof. reflexivity. Qed.

(** ** Waiting for blocks *)

Lemma count_app (p : event -> bool) (l1 l2 : list event) :
  count p (l1 ++ l2) = (count p l1 + count p l2)%nat.
Proof. unfold count. now rewrite filter_app, length_app. Qed.

Lemma count_polling_queries (d : Z) (k : nat) :
  count is_height_query (polling d k) = k.
Proof.
  induction k as [|k IH]; [reflexivity|].
  unfold count in *. cbn. now rewrite IH.
Qed.

Lemma count_polling_sleeps (d : Z) (k : nat) :
  count is_sleep (polling d k) = k.
Proof.
  induction k as [|k IH]; [reflexivity|].
  unfold count in *. cbn. now rewrite IH.
Qed.

(** The loop ends at the first failed query: [k] passes go on, the query
    of the next pass fails, and the loop logs and returns [nil] there. *)
Lemma Wait_loop_stops_on_error (c : Client) (ctx : Context) (height n : Z) :
  forall (k fuel k0 : nat) (w : world) (h' : Z) (e : error),
    (forall j, (j < k)%nat -> pass_goes_on c ctx height n k0 (sent w) j) ->
    ctx (k0 + k)%nat = false ->
    GetBlockCount (client c) (sent w + k)%nat = (h', Some e) ->
    (k < fuel)%nat ->
    Wait_loop fuel c ctx height n k0 w =
    (Returned None,
     mkWorld (S (sent w + k))
       (trace w ++ polling (waitInterval (cfg_ c)) k ++
          [EvRequest ReqGetBlockCount;
           EvLog "error" "can't get blockchain height"
             [zap_String "error" (Error e)]])).
Proof.
  induction k as [|k IH]; intros fuel k0 w h' e Hgo Hctx Herr Hfuel;
    (destruct fuel as [|fuel]; [lia|]); cbn [Wait_loop].
  - rewrite Nat.add_0_r in Hctx, Herr. rewrite Hctx. run_op. use_eq Herr.
    rewrite Nat.add_0_r, <- app_assoc. reflexivity.
  - destruct (Hgo 0%nat ltac:(lia)) as (Hc0 & h & Hq & Hlow).
    rewrite Nat.add_0_r in Hc0, Hq. rewrite Hc0. run_op. use_eq Hq. rewrite Hlow.
    rewrite (IH fuel (S k0) _ h' e).
    + cbn [sent trace polling]. rewrite <- !app_assoc. cbn [app].
      now rewrite Nat.add_succ_r.
    + intros j Hj. destruct (Hgo (S j) ltac:(lia)) as (Hcj & hj & Hqj & Hlj).
      split; [now rewrite Nat.add_succ_comm | exists hj].
      cbn [sent]. split; [now rewrite Nat.add_succ_comm | exact Hlj].
    + now rewrite Nat.add_succ_comm.
    + cbn [sent]. now rewrite Nat.add_succ_comm.
    + lia.
Qed.

(** The loop never returns an error. *)
Lemma Wait_loop_returns_nil (c : Client) (ctx : Context) (height n : Z) :
  forall (fuel k : nat) (w : world),
    fst (Wait_loop fuel c ctx height n k w) = Returned None \/
    fst (Wait_loop fuel c ctx height n k w) = OutOfFuel.
Proof.
  induction fuel as [|fuel IH]; intros k w; cbn [Wait_loop].
  - now right.
  - destruct (ctx k); [now left|]. run_op.
    destruct (GetBlockCount (client c) (sent w)) as [h [e|]]; [now left|].
    destruct (h >=? uint32 (height + n)); [now left|].
    apply IH.
Qed.

(** C8.  With a context that is already cancelled, [Wait] sends at most
    one height query (the initial one), never sleeps, returns with any
    fuel for one pass of the loop, and on an active client returns [nil]
    (an inactive client returns [ErrConnectionLost] without any query). *)
Theorem Wait_cancelled_context_returns_at_once
    (c : Client) (ctx : Context) (n : Z) (fuel t : nat)
    (Hctx : already_cancelled ctx) :
  let op := Wait (S fuel) c ctx n in
  (count is_height_query (trace_of op t) <= 1)%nat /\
  count is_request (trace_of op t) = count is_height_query (trace_of op t) /\
  count is_sleep (trace_of op t) = 0%nat /\
  (inactive c = false -> result_of op t = Returned None) /\
  (inactive c = true -> result_of op t = Returned (Some ErrConnectionLost)).
Proof.
  intros op. subst op. unfold Wait. cbn [Wait_loop]. rewrite (Hctx 0%nat). run_op.
  destruct (inactive c); cbn [sent trace fst snd app].
  - repeat split; try reflexivity; try discriminate. cbn. lia.
  - destruct (GetBlockCount (client c) t) as [h [e|]]; cbn [sent trace fst snd app];
      repeat split; try reflexivity; try discriminate; cbn; lia.
Qed.

Lemma Wait_cancelled_context_returns_at_once_sample :
  already_cancelled cancelled /\
  trace_of (Wait 1 (sample_client good_ws false) cancelled 5) 0 =
    [EvRLock; EvRequest ReqGetBlockCount; EvRUnlock] /\
  result_of (Wait 1 (sample_client good_ws false) cancelled 5) 0 = Returned None.
Proof.
  assert (Hc : already_cancelled cancelled) by (intros k; reflexivity).
  split; [exact Hc|]. split; [reflexivity|].
  destruct (Wait_cancelled_context_returns_at_once
              (sample_client good_ws false) cancelled 5 0 0 Hc) as (_ & _ & _ & H & _).
  apply H. reflexivity.
Defined.

(** C3, as stated, fails: the chain is at height 100, the query of the
    first pass times out, and a third query would find height 120, beyond
    the awaited 105; [Wait] sends no third query. *)
Lemma Wait_does_not_retry :
  ~ retries_after_failed_pass 10 (sample_client flaky_ws false) never_cancelled 5 0.
Proof.
  intros H.
  specialize (H 100 0 (errRPC "timeout") eq_refl eq_refl eq_refl).
  vm_compute in H. lia.
Qed.

Example Wait_flaky_trace :
  run (Wait 10 (sample_client flaky_ws false) never_cancelled 5) 0 =
  (Returned None,
   mkWorld 2
     [EvRLock; EvRequest ReqGetBlockCount; EvRequest ReqGetBlockCount;
      EvLog "error" "can't get blockchain height" [zap_String "error" "timeout"];
      EvRUnlock]).
Proof. reflexivity. Qed.

(** C3, amended.  On an active client [Wait] ends at the first height query
    that fails, be it the initial one or the one of a pass of the loop: it
    logs the error and returns [nil], and the failed query is its last
    request, so nothing is retried.  No query error is ever returned:
    whatever the connection answers, the result is [nil] (or the loop is
    still polling when the fuel ends). *)
Theorem Wait_ends_at_first_failed_query
    (c : Client) (ctx : Context) (n : Z) (t : nat)
    (Hactive : inactive c = false) :
  (forall fuel h e,
      GetBlockCount (client c) t = (h, Some e) ->
      run (Wait fuel c ctx n) t =
      (Returned None,
       mkWorld (S t)
         [EvRLock; EvRequest ReqGetBlockCount;
          EvLog "error" "can't get blockchain height" [zap_String "error" (Error e)];
          EvRUnlock])) /\
  (forall fuel k height h' e,
      GetBlockCount (client c) t = (height, None) ->
      (forall j, (j < k)%nat -> pass_goes_on c ctx height n 0 (S t) j) ->
      ctx k = false ->
      GetBlockCount (client c) (S t + k)%nat = (h', Some e) ->
      (k < fuel)%nat ->
      run (Wait fuel c ctx n) t =
      (Returned None,
       mkWorld (S (S t + k))
         ([EvRLock; EvRequest ReqGetBlockCount]
            ++ polling (waitInterval (cfg_ c)) k
            ++ [EvRequest ReqGetBlockCount;
                EvLog "error" "can't get blockchain height"
                  [zap_String "error" (Error e)];
                EvRUnlock]))) /\
  (forall fuel,
      result_of (Wait fuel c ctx n) t = Returned None \/
      result_of (Wait fuel c ctx n) t = OutOfFuel).
Proof.
  repeat split.
  - intros fuel h e Hq. unfold Wait. run_op. use_eq Hactive. use_eq Hq. reflexivity.
  - intros fuel k height h' e Hq Hgo Hctx Herr Hfuel.
    unfold Wait. run_op. use_eq Hactive. use_eq Hq.
    rewrite (Wait_loop_stops_on_error c ctx height n k fuel 0 _ h' e);
      cbn [sent trace]; try assumption.
    cbn [snd sent trace app]. rewrite <- !app_assoc. reflexivity.
  - intros fuel. unfold Wait. run_op. use_eq Hactive.
    destruct (GetBlockCount (client c) t) as [h [e|]]; cbn [sent trace fst snd app];
      [now left|].
    destruct (Wait_loop_returns_nil c ctx h n fuel 0
                (mkWorld (S t) [EvRLock; EvRequest ReqGetBlockCount])) as [H|H];
      destruct (Wait_loop fuel c ctx h n 0 _) as [[r|r|] w'];
      cbn [fst] in H |- *; try discriminate; [left | right]; congruence.
Qed.

Lemma Wait_ends_at_first_failed_query_sample :
  run (Wait 10 (sample_client late_flaky_ws false) never_cancelled 5) 0 =
  (Returned None,
   mkWorld 3
     ([EvRLock; EvRequest ReqGetBlockCount] ++ polling 500 1 ++
        [EvRequest ReqGetBlockCount;
         EvLog "error" "can't get blockchain height"
           [zap_String "error" (Error (errRPC "timeout"))];
         EvRUnlock])).
Proof.
  destruct (Wait_ends_at_first_failed_query (sample_client late_flaky_ws false)
              never_cancelled 5 0 eq_refl) as (_ & H & _).
  apply (H 10%nat 1%nat 100 0 (errRPC "timeout")).
  - reflexivity.
  - intros j Hj. assert (j = 0%nat) as -> by lia.
    split; [reflexivity|]. exists 101. split; reflexivity.
  - reflexivity.
  - reflexivity.
  - lia.
Defined.

(** ** Auxiliary read methods *)

(** C4, as stated, fails: on a connection that answers every query,
    [GasBalance] sends two requests under the lock (the hash of the GAS
    contract, then the balance), and so does [NeoFSAlphabetList]. *)
Lemma GasBalance_sends_two_requests :
  ~ auxiliary_reads_send_one_request (sample_client good_ws false) 0.
Proof.
  intros (_ & _ & _ & _ & _ & _ & _ & (r & Hr) & _).
  vm_compute in Hr. discriminate Hr.
Qed.

Example GasBalance_trace :
  trace_of (GasBalance (sample_client good_ws false)) 0 =
  [EvRLock; EvRequest (ReqGetNativeContractHash "GasToken");
   EvRequest (ReqNEP17BalanceOf sample_hash sample_hash); EvRUnlock].
Proof. reflexivity. Qed.

Example NeoFSAlphabetList_trace :
  trace_of (NeoFSAlphabetList (sample_client good_ws false)) 0 =
  [EvRLock; EvRequest ReqGetBlockCount;
   EvRequest (ReqGetDesignatedByRole NeoFSAlphabet 100); EvRUnlock].
Proof. reflexivity. Qed.

(** C4, amended.  On an active client, [BlockCount], [GetDesignateHash],
    [Committee], [MsPerBlock], [TxHeight], [TxHalt] and [IsValidScript] send
    exactly one request between taking and releasing the shared lock.
    [GasBalance] and [NeoFSAlphabetList] send two under the same lock (hash
    lookup then balance; height then role members), and only one when the
    first fails. *)
Theorem auxiliary_reads_requests_under_lock
    (c : Client) (t : nat) (Hactive : inactive c = false) :
  one_request_under_lock (BlockCount c) t /\
  one_request_under_lock (GetDesignateHash c) t /\
  one_request_under_lock (Committee c) t /\
  one_request_under_lock (MsPerBlock c) t /\
  (forall h, one_request_under_lock (TxHeight c h) t) /\
  (forall h, one_request_under_lock (TxHalt c h) t) /\
  (forall script signers, one_request_under_lock (IsValidScript c script signers) t) /\
  trace_of (GasBalance c) t =
    match GetNativeContractHash (client c) t nativenames_Gas with
    | (_, Some _) =>
        [EvRLock; EvRequest (ReqGetNativeContractHash nativenames_Gas); EvRUnlock]
    | (gas, None) =>
        [EvRLock; EvRequest (ReqGetNativeContractHash nativenames_Gas);
         EvRequest (ReqNEP17BalanceOf gas (KeyScriptHash (acc c))); EvRUnlock]
    end /\
  trace_of (NeoFSAlphabetList c) t =
    match GetBlockCount (client c) t with
    | (_, Some _) => [EvRLock; EvRequest ReqGetBlockCount; EvRUnlock]
    | (height, None) =>
        [EvRLock; EvRequest ReqGetBlockCount;
         EvRequest (ReqGetDesignatedByRole NeoFSAlphabet height); EvRUnlock]
    end.
Proof.
  repeat split; intros;
    unfold BlockCount, GetDesignateHash, Committee, MsPerBlock, TxHeight, TxHalt,
      IsValidScript, GasBalance, NeoFSAlphabetList;
    run_op; use_eq Hactive.
  - eexists; reflexivity.
  - eexists; reflexivity.
  - eexists; reflexivity.
  - destruct (GetVersion (client c) t) as [v [e|]]; eexists; reflexivity.
  - eexists; reflexivity.
  - destruct (GetApplicationLog (client c) t h trigger_Application) as [v [e|]];
      eexists; reflexivity.
  - destruct (InvokeScript (client c) t script signers) as [v [e|]];
      eexists; reflexivity.
  - destruct (GetNativeContractHash (client c) t nativenames_Gas) as [v [e|]];
      reflexivity.
  - destruct (GetBlockCount (client c) t) as [v [e|]]; cbn [sent trace fst snd app];
      [reflexivity|].
    destruct (GetDesignatedByRole (client c) (S t) NeoFSAlphabet v) as [l [e|]];
      reflexivity.
Qed.

Lemma auxiliary_reads_requests_under_lock_sample :
  one_request_under_lock (BlockCount (sample_client good_ws false)) 0 /\
  one_request_under_lock (TxHalt (sample_client good_ws false) sample_tx) 0.
Proof.
  destruct (auxiliary_reads_requests_under_lock (sample_client good_ws false) 0
              eq_refl) as (H1 & _ & _ & _ & _ & H2 & _).
  split; [exact H1 | exact (H2 sample_tx)].
Defined.

(** ** The network magic *)

Lemma carries_refl (e : error) : carries e e.
Proof. destruct e; now left. Qed.

Lemma carries_wrap (prefix : string) (e' e : error) :
  carries e' e -> carries (errWrap prefix e') e.
Proof. intros H. cbn [carries]. now right. Qed.

Create HintDb errs.
#[local] Hint Resolve carries_refl carries_wrap : errs.

(** C10.  On an active client whose [GetNetwork] query fails,
    [MagicNumber] panics with the error of the query (the deferred unlock
    runs, nothing is returned).  Every other method that reads a value from
    the chain returns the error of each of its queries to the caller, as it
    is or wrapped with a prefix: [TestInvoke], [GasBalance], [Committee],
    [TxHalt], [TxHeight], [NeoFSAlphabetList], [GetDesignateHash],
    [BlockCount], [MsPerBlock], [IsValidScript]. *)
Theorem MagicNumber_alone_panics_on_query_error
    (c : Client) (t : nat) (e : error) (Hactive : inactive c = false) :
  (forall mNum,
      GetNetwork (client c) t = (mNum, Some e) ->
      run (MagicNumber c) t =
      (Panicked e, mkWorld (S t) [EvRLock; EvRequest ReqGetNetwork; EvRUnlock])) /\
  (forall contract method args params resp,
      toStackParameters args [] = inl params ->
      InvokeFunction (client c) t contract method params
        [mkSigner (KeyScriptHash (acc c)) Global [] []] = (resp, Some e) ->
      propagates (TestInvoke c contract method args) t e) /\
  (forall gas,
      GetNativeContractHash (client c) t nativenames_Gas = (gas, Some e) ->
      propagates (GasBalance c) t e) /\
  (forall gas balance,
      GetNativeContractHash (client c) t nativenames_Gas = (gas, None) ->
      NEP17BalanceOf (client c) (S t) gas (KeyScriptHash (acc c)) = (balance, Some e) ->
      propagates (GasBalance c) t e) /\
  (forall ks, GetCommittee (client c) t = (ks, Some e) -> propagates (Committee c) t e) /\
  (forall h aer,
      GetApplicationLog (client c) t h trigger_Application = (aer, Some e) ->
      propagates (TxHalt c h) t e) /\
  (forall h height,
      GetTransactionHeight (client c) t h = (height, Some e) ->
      propagates (TxHeight c h) t e) /\
  (forall height,
      GetBlockCount (client c) t = (height, Some e) ->
      propagates (NeoFSAlphabetList c) t e) /\
  (forall height ks,
      GetBlockCount (client c) t = (height, None) ->
      GetDesignatedByRole (client c) (S t) NeoFSAlphabet height = (ks, Some e) ->
      propagates (NeoFSAlphabetList c) t e) /\
  (forall h,
      GetNativeContractHash (client c) t nativenames_Designation = (h, Some e) ->
      propagates (GetDesignateHash c) t e) /\
  (forall height,
      GetBlockCount (client c) t = (height, Some e) -> propagates (BlockCount c) t e) /\
  (forall v, GetVersion (client c) t = (v, Some e) -> propagates (MsPerBlock c) t e) /\
  (forall script signers resp,
      InvokeScript (client c) t script signers = (resp, Some e) ->
      propagates (IsValidScript c script signers) t e).
Proof.
  repeat split; intros;
    unfold propagates, MagicNumber, TestInvoke, GasBalance, Committee, TxHalt,
      TxHeight, NeoFSAlphabetList, GetDesignateHash, BlockCount, MsPerBlock,
      IsValidScript;
    run_op; use_eq Hactive;
    repeat match goal with
           | H : _ = (_, _) |- _ => use_eq H; clear H
           | H : _ = inl _ |- _ => use_eq H; clear H
           end;
    try reflexivity;
    do 2 eexists; (split; [reflexivity | auto with errs]).
Qed.

Lemma MagicNumber_alone_panics_on_query_error_sample :
  run (MagicNumber (sample_client broken_ws false)) 0 =
    (Panicked (errRPC "eof"),
     mkWorld 1 [EvRLock; EvRequest ReqGetNetwork; EvRUnlock]) /\
  propagates (MsPerBlock (sample_client broken_ws false)) 0 (errRPC "eof").
Proof.
  destruct (MagicNumber_alone_panics_on_query_error (sample_client broken_ws false)
              0 (errRPC "eof") eq_refl)
    as (H1 & _ & _ & _ & _ & _ & _ & _ & _ & _ & _ & H2 & _).
  split; [exact (H1 5195086 eq_refl) | exact (H2 15000 eq_refl)].
Defined.

(** ** The terminal transition *)

Lemma inactiveMode_first (c : Client) (w : world) :
  notifications_closed c = false ->
  inactiveMode c w =
  (Returned (set_inactive c),
   mkWorld (sent w) (trace w ++ [EvLock; EvClose] ++ callback_events c ++ [EvUnlock])).
Proof.
  intros Hopen. unfold inactiveMode, callback_events. run_op. use_eq Hopen.
  cbn [set_inactive cfg_].
  destruct (inactiveModeCb (cfg_ c)); cbn [sent trace fst snd app];
    rewrite <- !app_assoc; reflexivity.
Qed.

Lemma inactiveMode_again (c : Client) (w : world) :
  notifications_closed c = true ->
  inactiveMode c w =
  (Panicked (errRuntime "close of closed channel"),
   mkWorld (sent w) (trace w ++ [EvLock; EvUnlock])).
Proof.
  intros Hclosed. unfold inactiveMode. run_op. use_eq Hclosed.
  rewrite <- !app_assoc. reflexivity.
Qed.

Lemma repeat_inactiveMode_trace (c : Client) (w : world) (k : nat) :
  notifications_closed c = false ->
  trace (snd (repeat_inactiveMode (S k) c w)) =
  trace w ++ [EvLock; EvClose] ++ callback_events c ++ [EvUnlock]
    ++ match k with O => [] | S _ => [EvLock; EvUnlock] end.
Proof.
  intros Hopen. cbn [repeat_inactiveMode]. unfold bind at 1.
  rewrite (inactiveMode_first c w Hopen).
  destruct k as [|k]; cbn [repeat_inactiveMode].
  - unfold ret. cbn [snd trace]. now rewrite app_nil_r.
  - unfold bind at 1. rewrite (inactiveMode_again (set_inactive c) _ eq_refl).
    cbn [snd trace]. rewrite <- !app_assoc. reflexivity.
Qed.

(** [inactiveMode] has no guard against a second run: run again, it
    panics on the closed channel. *)
Example inactiveMode_twice_trace :
  run (repeat_inactiveMode 2 (sample_client good_ws false)) 0 =
  (Panicked (errRuntime "close of closed channel"),
   mkWorld 0 [EvLock; EvClose; EvInactiveModeCb 7; EvUnlock; EvLock; EvUnlock]).
Proof. reflexivity. Qed.

(** ** The fact cache *)

Lemma set_nth_holding (l : list frame) : forall (i : nat) (fr fr' : frame),
  nth_error l i = Some fr ->
  (holding (set_nth i fr' l) + Nat.b2n (holds_rlock fr)
   = holding l + Nat.b2n (holds_rlock fr'))%nat.
Proof.
  unfold holding.
  induction l as [|x l IH]; intros [|i] fr fr' H; cbn in H; try discriminate.
  - injection H as ->. cbn [set_nth filter].
    destruct (holds_rlock fr), (holds_rlock fr'); cbn [List.length Nat.b2n]; lia.
  - cbn [set_nth filter]. specialize (IH i fr fr' H).
    destruct (holds_rlock x); cbn [List.length]; lia.
Qed.

Lemma set_nth_Forall {A} (P : A -> Prop) (l : list A) : forall (i : nat) (x : A),
  Forall P l -> P x -> Forall P (set_nth i x l).
Proof.
  induction l as [|y l IH]; intros [|i] x Hl Hx; cbn [set_nth]; try assumption;
    inversion Hl; subst; constructor; auto.
Qed.

Lemma holding_In (l : list frame) (fr : frame) :
  In fr l -> holds_rlock fr = true -> (1 <= holding l)%nat.
Proof.
  intros Hin Hh. unfold holding.
  assert (Hf : In fr (filter holds_rlock l)) by (apply filter_In; now split).
  destruct (filter holds_rlock l); [contradiction | cbn; lia].
Qed.

Lemma invalidator_at_fields (f : cache) (cd : list stmt) (wr : bool) (x : cache) :
  invalidator_at f cd wr x ->
  old_or_absent (nnsHash f) (nnsHash x) /\ old_or_absent (gKey f) (gKey x).
Proof. intros H; inversion H; subst; cbn; unfold old_or_absent; auto. Qed.

Lemma invariant_initial (f : cache) (bodies : list (list stmt)) :
  Forall is_accessor_body bodies -> invariant f (initial f bodies).
Proof.
  intros Hb. unfold initial. split; cbn [mem invalidator accessors m fields writer readers code enter].
  - constructor.
  - unfold holding. induction Hb as [|b bodies Hb _ IH]; [reflexivity|].
    cbn [map filter]. destruct Hb as [-> | ->]; cbn; exact IH.
  - discriminate.
  - induction Hb as [|b bodies Hb _ IH]; cbn [map]; constructor; [|exact IH].
    unfold accessor_ok, enter, old_or_absent. cbn.
    repeat split; auto; try discriminate.
    destruct Hb as [-> | ->]; constructor.
Qed.

Lemma invariant_step (f : cache) (cf cf' : config) :
  invariant f cf -> step cf cf' -> invariant f cf'.
Proof.
  intros [Hinv Hrd Hex Hacc] Hstep.
  destruct cf as [[[wr rd] x] [icode ircv iret] accs].
  cbn [mem invalidator accessors m fields writer readers code] in *.
  inversion Hstep as [cf0 sh' fr' Hs | cf0 i fr sh' fr' Hnth Hs]; subst;
    cbn [mem invalidator accessors] in *.
  - (* a statement of invalidate *)
    unfold step_frame in Hs. cbn [code] in Hs.
    inversion Hinv; subst; cbn in Hs; try discriminate.
    + destruct (holding accs =? 0)%nat eqn:Hz; cbn in Hs; [|discriminate].
      apply Nat.eqb_eq in Hz. injection Hs as <- <-.
      split; cbn; auto; try constructor; lia.
    + injection Hs as <- <-. split; cbn; auto. constructor.
    + injection Hs as <- <-. split; cbn; auto. constructor.
    + injection Hs as <- <-. split; cbn; auto. constructor.
    + injection Hs as <- <-. split; cbn; auto; try discriminate. constructor.
  - (* a statement of an accessor *)
    assert (Hfr : accessor_ok f fr).
    { rewrite Forall_forall in Hacc. apply Hacc. eapply nth_error_In; eassumption. }
    pose proof (set_nth_holding accs i fr fr' Hnth) as Hcount.
    pose proof (invalidator_at_fields _ _ _ _ Hinv) as [Hn Hg].
    destruct fr as [cd rcv rt]. destruct Hfr as (Hcode & Hrn & Hrg & Hret).
    cbn [code receiver returned] in *.
    unfold step_frame in Hs. cbn [code] in Hs.
    inversion Hcode; subst; cbn in Hs; try discriminate;
      try (destruct wr; [discriminate|]);
      injection Hs as <- <-; cbn in Hcount;
      (split; cbn [mem invalidator accessors m fields writer readers code];
       [ try exact Hinv
       | try lia
       | try (intros Hw; specialize (Hex Hw); lia); try discriminate
       | apply set_nth_Forall; [exact Hacc|];
         unfold accessor_ok; cbn [code receiver returned];
         repeat split; try assumption;
         try match goal with |- accessor_code _ => constructor end;
         try (intros y Hy; injection Hy as <-; cbn; assumption) ]).
Qed.

Lemma invariant_steps (f : cache) (cf cf' : config) :
  invariant f cf -> steps cf cf' -> invariant f cf'.
Proof.
  intros H Hs. induction Hs as [|cf1 cf2 cf3 _ IH Hstep]; [exact H|].
  eapply invariant_step; [apply IH; exact H | exact Hstep].
Qed.

Lemma schedule_step_sound (who : option nat) (cf cf' : config) :
  schedule_step who cf = Some cf' -> step cf cf'.
Proof.
  destruct who as [i|]; cbn [schedule_step]; intros H.
  - destruct (nth_error (accessors cf) i) as [fr|] eqn:Hnth; [|discriminate].
    destruct (step_frame (mem cf) fr) as [[sh' fr']|] eqn:Hs; [|discriminate].
    injection H as <-. eapply step_accessor; eassumption.
  - destruct (step_frame (mem cf) (invalidator cf)) as [[sh' fr']|] eqn:Hs;
      [|discriminate].
    injection H as <-. now apply step_invalidator.
Qed.

Lemma steps_trans (cf1 cf2 cf3 : config) :
  steps cf1 cf2 -> steps cf2 cf3 -> steps cf1 cf3.
Proof.
  intros H12 H23. induction H23 as [|cf2 cf3 cf4 _ IH Hstep]; [exact H12|].
  apply (steps_step cf1 cf3 cf4); [apply IH; exact H12 | exact Hstep].
Qed.

Lemma run_schedule_sound (sched : list (option nat)) : forall cf cf',
  run_schedule sched cf = Some cf' -> steps cf cf'.
Proof.
  induction sched as [|who rest IH]; intros cf cf' H; cbn [run_schedule] in H.
  - injection H as <-. constructor.
  - destruct (schedule_step who cf) as [cf1|] eqn:H1; [|discriminate].
    apply (steps_trans cf cf1 cf'); [|apply IH; exact H].
    apply (steps_step cf cf cf1); [constructor | apply (schedule_step_sound who); exact H1].
Qed.

(** An accessor that copied its receiver before the invalidation returns
    the fact of its copy, also when it gets the read lock afterwards. *)
Example nns_returns_its_copy :
  option_map (fun cf => (fields (mem cf), map returned (accessors cf)))
    (run_schedule [Some 0; None; None; None; None; None; Some 0; Some 0; Some 0]%nat
       (initial sample_cache [nns_body])) =
  Some (zero_cache, [Some (FactNNS (Some sample_hash))]).
Proof. reflexivity. Qed.

(** What the mutex does guarantee, of the shared fields and of single
    values.  [invalidate] takes the exclusive lock once and, holding it,
    sets both facts to absent and purges the transaction heights; run on
    a free cache it leaves every fact absent, and an accessor called
    afterwards returns the absent marker.  Among goroutines that
    interleave statement by statement, whenever the exclusive lock is not
    held the shared fields are wholly as before the call or wholly
    cleared, each accessor returns the former value of its fact or the
    absent marker, and once [invalidate] has returned the shared fields
    are cleared.  This says nothing of the copies the accessors read. *)
Lemma shared_fields_whole_outside_invalidate (f : cache) :
  let free := mkRWMutex false 0 in
  List.length (filter is_lock invalidate_body) = 1%nat /\
  invalidate (mkShared free f) = Some (mkShared free zero_cache) /\
  nns (mkShared free zero_cache) = Some None /\
  groupKey (mkShared free zero_cache) = Some None /\
  (forall bodies cf,
      Forall is_accessor_body bodies ->
      steps (initial f bodies) cf ->
      (writer (m (mem cf)) = false ->
         fields (mem cf) = f \/ cleared (fields (mem cf))) /\
      (forall fr, In fr (accessors cf) -> holds_rlock fr = true ->
         fields (mem cf) = f \/ cleared (fields (mem cf))) /\
      (forall fr x, In fr (accessors cf) -> returned fr = Some x ->
         fact_old_or_absent f x) /\
      (code (invalidator cf) = [] -> cleared (fields (mem cf)))).
Proof.
  intros free.
  split; [reflexivity|]. split; [destruct f; reflexivity|].
  split; [reflexivity|]. split; [reflexivity|].
  intros bodies cf Hb Hsteps.
  destruct (invariant_steps f _ cf (invariant_initial f bodies Hb) Hsteps)
    as [Hinv Hrd Hex Hacc].
  assert (Hfree : writer (m (mem cf)) = false ->
                  fields (mem cf) = f \/ cleared (fields (mem cf))).
  { intros Hw. rewrite Hw in Hinv. inversion Hinv; [now left | now right]. }
  split; [exact Hfree|]. split; [|split].
  - intros fr Hin Hh. apply Hfree.
    pose proof (holding_In _ _ Hin Hh) as Hone.
    destruct (writer (m (mem cf))); [|reflexivity].
    specialize (Hex eq_refl). lia.
  - intros fr x Hin Hret.
    rewrite Forall_forall in Hacc. destruct (Hacc fr Hin) as (_ & _ & _ & Hx).
    now apply Hx.
  - intros Hdone. rewrite Hdone in Hinv. inversion Hinv. reflexivity.
Qed.

Lemma shared_fields_whole_outside_invalidate_sample :
  run_schedule sample_schedule (initial sample_cache [nns_body; groupKey_body])
    = Some sample_final /\
  code (invalidator sample_final) = [] /\
  cleared (fields (mem sample_final)) /\
  (fields (mem sample_final) = sample_cache \/ cleared (fields (mem sample_final))).
Proof.
  assert (Hrun : run_schedule sample_schedule
                   (initial sample_cache [nns_body; groupKey_body])
                 = Some sample_final) by (vm_compute; reflexivity).
  split; [exact Hrun|]. split; [reflexivity|].
  destruct (shared_fields_whole_outside_invalidate sample_cache) as (_ & _ & _ & _ & H).
  assert (Hb : Forall is_accessor_body [nns_body; groupKey_body]).
  { apply Forall_cons; [now left|]. apply Forall_cons; [now right|]. apply Forall_nil. }
  destruct (H [nns_body; groupKey_body] sample_final Hb
              (run_schedule_sound _ _ _ Hrun)) as (_ & Hheld & _ & Hdone).
  split.
  - apply Hdone. reflexivity.
  - apply (Hheld (mkFrame [SReturnGKey; SRUnlock] sample_cache None)).
    + right. left. reflexivity.
    + reflexivity.
Defined.


(** * Further properties of the client *)

(** ** Conversion of argument lists *)

Lemma toStackParameters_supported (args : list arg) : forall params,
  existsb unsupported args = false ->
  toStackParameters args params = inl (params ++ map converted args).
Proof.
  induction args as [|a args IH]; intros params H; cbn [toStackParameters map].
  - now rewrite app_nil_r.
  - cbn [existsb] in H. apply orb_false_elim in H as [Ha Hrest].
    pose proof (toStackParameter_error a) as He. rewrite Ha in He.
    unfold converted at 1.
    destruct (toStackParameter a) as [p e]. cbn [fst snd] in *. subst e.
    rewrite (IH _ Hrest), <- app_assoc. reflexivity.
Qed.

(** X1.  An argument list converts if and only if every argument has a
    supported dynamic type; the parameters are then the converted
    arguments, one per argument and in the order of the arguments. *)
Theorem toStackParameters_succeeds_iff_supported (args : list arg) :
  (existsb unsupported args = false <->
   exists params, toStackParameters args [] = inl params) /\
  (forall params,
      toStackParameters args [] = inl params ->
      params = map converted args /\ List.length params = List.length args).
Proof.
  assert (Hok : existsb unsupported args = false ->
                toStackParameters args [] = inl (map converted args)).
  { intros H. now rewrite (toStackParameters_supported args [] H). }
  assert (Hbad : forall params, toStackParameters args [] = inl params ->
                                existsb unsupported args = false).
  { intros params Hp. destruct (existsb unsupported args) eqn:Hu; [|reflexivity].
    destruct (toStackParameters_unsupported args [] Hu) as (a & _ & _ & Ha).
    congruence. }
  split; [split|].
  - intros H. eexists. apply Hok, H.
  - intros [params Hp]. exact (Hbad params Hp).
  - intros params Hp. pose proof (Hok (Hbad params Hp)) as Hq.
    assert (params = map converted args) as -> by congruence.
    split; [reflexivity | apply length_map].
Qed.

Lemma toStackParameters_succeeds_iff_supported_sample :
  toStackParameters [GoString "k"; GoUint64 (2 ^ 64 - 1); GoBool false] [] =
  inl [mkParameter StringType (Raw (GoString "k"));
       mkParameter IntegerType (BigInt 18446744073709551615);
       mkParameter BoolType (Raw (GoBool false))].
Proof.
  destruct (toStackParameters_succeeds_iff_supported
              [GoString "k"; GoUint64 (2 ^ 64 - 1); GoBool false]) as [[H _] _].
  destruct (H eq_refl) as [params Hp]. rewrite Hp. f_equal.
  revert Hp. vm_compute. intros Hp. injection Hp as <-. reflexivity.
Defined.

(** X2.  The conversion stops at the first unsupported argument: the
    error names that argument, whatever follows it. *)
Theorem toStackParameters_reports_first_unsupported
    (pre post : list arg) (a : arg)
    (Hpre : existsb unsupported pre = false) (Ha : unsupported a = true) :
  toStackParameters (pre ++ a :: post) [] =
  inr (neofsError (errUnsupportedParameter a)).
Proof.
  assert (H : forall params,
             toStackParameters (pre ++ a :: post) params =
             inr (neofsError (errUnsupportedParameter a))).
  { induction pre as [|b pre IH]; intros params; cbn [app toStackParameters].
    - pose proof (toStackParameter_error a) as He. rewrite Ha in He.
      destruct (toStackParameter a) as [p e]. cbn [snd] in He. now subst e.
    - cbn [existsb] in Hpre. apply orb_false_elim in Hpre as [Hb Hrest].
      pose proof (toStackParameter_error b) as He. rewrite Hb in He.
      destruct (toStackParameter b) as [p e]. cbn [snd] in He. subst e.
      apply IH, Hrest. }
  apply H.
Qed.

Lemma toStackParameters_reports_first_unsupported_sample :
  toStackParameters
    ([GoInt 1] ++ GoOther "uint32" "7" :: [GoOther "float64" "1.5"]) [] =
  inr (neofsError (errUnsupportedParameter (GoOther "uint32" "7"))).
Proof.
  apply (toStackParameters_reports_first_unsupported
           [GoInt 1] [GoOther "float64" "1.5"] (GoOther "uint32" "7"));
    reflexivity.
Defined.

(** X3.  A key list converts like the slice of the keys' encodings: an
    array parameter with one byte-array parameter per key, in order. *)
Theorem toStackParameter_public_keys_as_encodings (ks : PublicKeys) :
  toStackParameter (GoPublicKeys ks) = toStackParameter (GoBytesSlice (map Bytes ks)) /\
  toStackParameter (GoPublicKeys ks) =
    (mkParameter ArrayType
       (Params (map (fun k => mkParameter ByteArrayType (Raw (GoBytes (Bytes k)))) ks)),
     None).
Proof.
  rewrite toStackParameter_public_keys, toStackParameter_bytes_slice, map_map.
  split; reflexivity.
Qed.

(** ** Invocations *)

(** Case analysis on what the client is and what the connection answers,
    innermost scrutinee first. *)
Ltac break_step :=
  match goal with
  | |- context [if inactive ?c then _ else _] =>
      destruct (inactive c) eqn:?
  | |- context [match toStackParameters ?a ?p with _ => _ end] =>
      destruct (toStackParameters a p) eqn:?
  | |- context [let (_, _) := ?x in _] =>
      lazymatch x with
      | context [match _ with _ => _ end] => fail
      | _ => destruct x as [? [?|]] eqn:?
      end
  | |- context [if negb (String.eqb ?a ?b) then _ else _] =>
      destruct (String.eqb a b) eqn:?; cbn [negb]
  | |- context [if (List.length ?l =? 0)%nat then _ else _] =>
      destruct l eqn:?; cbn [List.length Nat.eqb]
  end;
  cbn [sent trace fst snd app].

Ltac break_match := repeat break_step.

(** X4.  [TestInvoke] never signs or pushes a transaction and sends at
    most one request, whatever the client, the arguments and the answers
    of the connection.  When the execution report comes back, the result
    is the stack of the report if its state is ["HALT"], and otherwise
    the NeoFS error with the reported state and fault text. *)
Theorem TestInvoke_reads_without_submitting
    (c : Client) (contract : Uint160) (method : string) (args : list arg) (t : nat) :
  let op := TestInvoke c contract method args in
  count is_submission (trace_of op t) = 0%nat /\
  (count is_request (trace_of op t) <= 1)%nat /\
  (forall params val,
      inactive c = false ->
      toStackParameters args [] = inl params ->
      InvokeFunction (client c) t contract method params
        [mkSigner (KeyScriptHash (acc c)) Global [] []] = (val, None) ->
      result_of op t =
        Returned (if String.eqb (State val) HaltState
                  then (Stack val, None)
                  else ([], Some (neofsError
                                    (notHaltStateError (State val)
                                       (FaultException val)))))).
Proof.
  intros op. subst op. unfold TestInvoke. run_op. repeat split.
  - break_match; reflexivity.
  - break_match; cbn; lia.
  - intros params val Hc Hp Hv. use_eq Hc. use_eq Hp. use_eq Hv.
    destruct (String.eqb (State val) HaltState); reflexivity.
Qed.

Lemma TestInvoke_reads_without_submitting_sample :
  result_of (TestInvoke (sample_client good_ws false) sample_hash "get"
               [GoBytes [Byte.x01]]) 0 = Returned ([ItemBool true], None) /\
  result_of (TestInvoke (sample_client faulting_ws false) sample_hash "get"
               [GoBytes [Byte.x01]]) 0 =
    Returned ([], Some (neofsError
      (notHaltStateError "FAULT" "at instruction 3 (THROW): not witnessed"))).
Proof.
  split.
  - destruct (TestInvoke_reads_without_submitting (sample_client good_ws false)
                sample_hash "get" [GoBytes [Byte.x01]] 0) as (_ & _ & H).
    exact (H _ (fst halt_report) eq_refl eq_refl eq_refl).
  - destruct (TestInvoke_reads_without_submitting (sample_client faulting_ws false)
                sample_hash "get" [GoBytes [Byte.x01]] 0) as (_ & _ & H).
    exact (H _ (fst fault_report) eq_refl eq_refl eq_refl).
Defined.

(** X5.  [Invoke] submits at most one transaction, and it submits one
    only when the client is active, the arguments convert and the test
    execution reports ["HALT"] with a non-empty script. *)
Theorem Invoke_submits_only_after_halt
    (c : Client) (contract : Uint160) (fee : Z) (method : string)
    (args : list arg) (t : nat) :
  let op := Invoke c contract fee method args in
  (count is_submission (trace_of op t) <= 1)%nat /\
  (count is_submission (trace_of op t) = 1%nat ->
   inactive c = false /\
   exists params resp,
     toStackParameters args [] = inl params /\
     InvokeFunction (client c) t contract method params (invoke_cosigner c)
       = (resp, None) /\
     State resp = HaltState /\
     Script resp <> []).
Proof.
  intros op. subst op. unfold Invoke. run_op.
  destruct (inactive c) eqn:Hc; cbn [sent trace fst snd app];
    [split; [cbn; lia | discriminate]|].
  destruct (toStackParameters args []) as [params|e] eqn:Hp;
    cbn [sent trace fst snd app]; [|split; [cbn; lia | discriminate]].
  destruct (InvokeFunction (client c) t contract method params (invoke_cosigner c))
    as [resp [e|]] eqn:Hr; cbn [sent trace fst snd app];
    [split; [cbn; lia | discriminate]|].
  destruct (String.eqb (State resp) HaltState) eqn:Hs; cbn [negb sent trace fst snd app];
    [|split; [cbn; lia | discriminate]].
  destruct (Script resp) as [|b script] eqn:Hscript;
    cbn [List.length Nat.eqb sent trace fst snd app];
    [split; [cbn; lia | discriminate]|].
  split.
  - break_match; cbn; lia.
  - intros _. split; [reflexivity|]. exists params, resp.
    repeat split; try assumption.
    + now apply String.eqb_eq.
    + rewrite Hscript. discriminate.
Qed.

Lemma Invoke_submits_only_after_halt_sample :
  State (fst halt_report) = HaltState /\ Script (fst halt_report) <> [].
Proof.
  destruct (Invoke_submits_only_after_halt (sample_client good_ws false)
              sample_hash 10 "put" [GoInt64 1] 0) as (_ & H).
  destruct (H eq_refl) as (_ & params & resp & _ & Hr & Hs & Hn).
  injection Hr as <-. split; assumption.
Defined.

(** X6.  An execution report ["HALT"] with an empty script makes [Invoke]
    return the NeoFS error for an empty invocation script; an error of the
    test execution request itself is returned as the connection gave it,
    not wrapped as a NeoFS error.  In both cases the test execution is the
    only request. *)
Theorem Invoke_malformed_or_failed_report
    (c : Client) (contract : Uint160) (fee : Z) (method : string)
    (args : list arg) (params : list sc_Parameter) (t : nat)
    (Hactive : inactive c = false)
    (Hargs : toStackParameters args [] = inl params) :
  let op := Invoke c contract fee method args in
  let only_execution :=
    [EvRLock;
     EvRequest (ReqInvokeFunction contract method params (invoke_cosigner c));
     EvRUnlock] in
  (forall resp,
      InvokeFunction (client c) t contract method params (invoke_cosigner c)
        = (resp, None) ->
      State resp = HaltState -> Script resp = [] ->
      run op t = (Returned (Some (neofsError errEmptyInvocationScript)),
                  mkWorld (S t) only_execution)) /\
  (forall resp e,
      InvokeFunction (client c) t contract method params (invoke_cosigner c)
        = (resp, Some e) ->
      run op t = (Returned (Some e), mkWorld (S t) only_execution)).
Proof.
  intros op only. subst op only. split.
  - intros resp Hr Hs Hscript. unfold Invoke. run_op.
    use_eq Hactive. use_eq Hargs. use_eq Hr.
    rewrite (HaltState_eqb _ Hs), Hscript. reflexivity.
  - intros resp e Hr. unfold Invoke. run_op.
    use_eq Hactive. use_eq Hargs. use_eq Hr. reflexivity.
Qed.

Lemma Invoke_malformed_or_failed_report_sample :
  result_of (Invoke (sample_client broken_ws false) sample_hash 10 "put" []) 0 =
  Returned (Some (errRPC "eof")).
Proof.
  destruct (Invoke_malformed_or_failed_report (sample_client broken_ws false)
              sample_hash 10 "put" [] [] 0 eq_refl eq_refl) as (_ & H).
  unfold result_of. rewrite (H (mkInvoke "" 0 [] [] "") (errRPC "eof") eq_refl).
  reflexivity.
Defined.

(** X7.  [TransferGas] first asks for the hash of the GAS contract.  If
    that fails it returns the error and sends no transfer; otherwise it
    sends one NEP-17 transfer of [amount] from the account of the client to
    the receiver, on the contract just looked up and with network fee 0,
    and returns the error of the transfer ([nil] when it went through). *)
Theorem TransferGas_looks_up_then_transfers
    (c : Client) (receiver : Uint160) (amount : Z) (t : nat)
    (Hactive : inactive c = false) :
  let op := TransferGas c receiver amount in
  let lookup := EvRequest (ReqGetNativeContractHash nativenames_Gas) in
  (forall gas e,
      GetNativeContractHash (client c) t nativenames_Gas = (gas, Some e) ->
      run op t = (Returned (Some e), mkWorld (S t) [EvRLock; lookup; EvRUnlock])) /\
  (forall gas txHash err,
      GetNativeContractHash (client c) t nativenames_Gas = (gas, None) ->
      TransferNEP17 (client c) (S t) (acc c) receiver gas amount 0 = (txHash, err) ->
      result_of op t = Returned err /\
      count is_request (trace_of op t) = 2%nat /\
      exists rest,
        trace_of op t =
          EvRLock :: lookup ::
          EvRequest (ReqTransferNEP17 (acc c) receiver gas amount 0) :: rest).
Proof.
  intros op lookup. subst op lookup. split.
  - intros gas e Hg. unfold TransferGas. run_op. use_eq Hactive. use_eq Hg.
    reflexivity.
  - intros gas txHash err Hg Ht. unfold TransferGas. run_op.
    use_eq Hactive. use_eq Hg. use_eq Ht.
    destruct err as [e|]; cbn [sent trace fst snd app];
      (split; [reflexivity|]); (split; [reflexivity|]); eexists; reflexivity.
Qed.

Lemma TransferGas_looks_up_then_transfers_sample :
  result_of (TransferGas (sample_client good_ws false) sample_hash 25) 0 =
    Returned None /\
  result_of (TransferGas (sample_client broken_ws false) sample_hash 25) 0 =
    Returned (Some (errRPC "eof")).
Proof.
  split.
  - destruct (TransferGas_looks_up_then_transfers (sample_client good_ws false)
                sample_hash 25 0 eq_refl) as (_ & H).
    destruct (H sample_hash sample_tx None eq_refl eq_refl) as (Hres & _).
    exact Hres.
  - destruct (TransferGas_looks_up_then_transfers (sample_client broken_ws false)
                sample_hash 25 0 eq_refl) as (H & _).
    unfold result_of. rewrite (H sample_hash (errRPC "eof") eq_refl). reflexivity.
Defined.

(** ** The switch lock *)

Lemma bracketed_app (mid : list event) :
  forallb (fun e => negb (is_lock_event e)) mid = true ->
  bracketed (EvRLock :: mid ++ [EvRUnlock]) = true.
Proof.
  intros H. cbn [bracketed]. rewrite rev_app_distr. cbn [rev app].
  rewrite forallb_forall in *. intros e He. apply H. now apply in_rev.
Qed.

Lemma Wait_loop_events (c : Client) (ctx : Context) (height n : Z) :
  forall (fuel k : nat) (w : world),
  exists mid,
    trace (snd (Wait_loop fuel c ctx height n k w)) = trace w ++ mid /\
    forallb (is_wait_event (waitInterval (cfg_ c))) mid = true.
Proof.
  induction fuel as [|fuel IH]; intros k w; cbn [Wait_loop].
  - exists []. split; [now rewrite app_nil_r | reflexivity].
  - destruct (ctx k).
    { exists []. split; [now rewrite app_nil_r | reflexivity]. }
    run_op. destruct (GetBlockCount (client c) (sent w)) as [h [e|]];
      cbn [sent trace fst snd app].
    { eexists [_; _]. split; [now rewrite <- app_assoc | reflexivity]. }
    destruct (h >=? uint32 (height + n)); cbn [sent trace fst snd app].
    { eexists [_]. split; reflexivity. }
    destruct (IH (S k) (mkWorld (S (sent w))
                ((trace w ++ [EvRequest ReqGetBlockCount])
                   ++ [EvSleep (waitInterval (cfg_ c))]))) as (mid & Hmid & Hall).
    exists (EvRequest ReqGetBlockCount :: EvSleep (waitInterval (cfg_ c)) :: mid).
    split.
    + rewrite Hmid. cbn [trace]. rewrite <- !app_assoc. reflexivity.
    + cbn [forallb is_wait_event]. rewrite Z.eqb_refl. exact Hall.
Qed.

Lemma wait_events_no_lock (d : Z) (mid : list event) :
  forallb (is_wait_event d) mid = true ->
  forallb (fun e => negb (is_lock_event e)) mid = true.
Proof.
  rewrite !forallb_forall. intros H e He. specialize (H e He).
  destruct e; try discriminate; reflexivity.
Qed.

(** X8.  Every public operation takes the shared switch lock first and
    releases it last, on every path: on each error return, and when
    [MagicNumber] panics.  No operation takes the lock twice or touches
    the exclusive lock.  ([Wait] is covered whenever it returns.) *)
Theorem operations_release_the_switch_lock (c : Client) (t : nat) :
  (forall contract fee method args,
      bracketed (trace_of (Invoke c contract fee method args) t) = true) /\
  (forall contract method args,
      bracketed (trace_of (TestInvoke c contract method args) t) = true) /\
  (forall receiver amount,
      bracketed (trace_of (TransferGas c receiver amount) t) = true) /\
  (forall fuel ctx n,
      result_of (Wait fuel c ctx n) t <> OutOfFuel ->
      bracketed (trace_of (Wait fuel c ctx n) t) = true) /\
  bracketed (trace_of (GasBalance c) t) = true /\
  bracketed (trace_of (Committee c) t) = true /\
  (forall h, bracketed (trace_of (TxHalt c h) t) = true) /\
  (forall h, bracketed (trace_of (TxHeight c h) t) = true) /\
  bracketed (trace_of (BlockCount c) t) = true /\
  bracketed (trace_of (MsPerBlock c) t) = true /\
  (forall script signers,
      bracketed (trace_of (IsValidScript c script signers) t) = true) /\
  bracketed (trace_of (NeoFSAlphabetList c) t) = true /\
  bracketed (trace_of (GetDesignateHash c) t) = true /\
  bracketed (trace_of (MagicNumber c) t) = true.
Proof.
  repeat match goal with |- _ /\ _ => split end; intros;
    try (unfold Invoke, TestInvoke, TransferGas, GasBalance, Committee, TxHalt,
           TxHeight, BlockCount, MsPerBlock, IsValidScript, NeoFSAlphabetList,
           GetDesignateHash, MagicNumber;
         run_op; break_match; reflexivity).
  (* Wait *)
  revert H. unfold Wait. run_op.
  destruct (inactive c); cbn [sent trace fst snd app]; [reflexivity|].
  destruct (GetBlockCount (client c) t) as [h [e|]]; cbn [sent trace fst snd app];
    [reflexivity|].
  destruct (Wait_loop_events c ctx h n fuel 0
              (mkWorld (S t) [EvRLock; EvRequest ReqGetBlockCount]))
    as (mid & Hmid & Hall).
  destruct (Wait_loop fuel c ctx h n 0 _) as [[r|r|] w']; cbn [fst snd trace] in *;
    intros Hres; try congruence; rewrite Hmid; cbn [app];
    apply (bracketed_app (EvRequest ReqGetBlockCount :: mid));
    cbn [forallb is_lock_event negb andb]; now apply (wait_events_no_lock _ _ Hall).
Qed.

Lemma operations_release_the_switch_lock_sample :
  bracketed (trace_of (Wait 10 (sample_client flaky_ws false) never_cancelled 5) 0)
    = true /\
  trace_of (MagicNumber (sample_client broken_ws false)) 0 =
    [EvRLock; EvRequest ReqGetNetwork; EvRUnlock].
Proof.
  destruct (operations_release_the_switch_lock (sample_client flaky_ws false) 0)
    as (_ & _ & _ & H & _).
  split; [apply H; discriminate | reflexivity].
Defined.

(** ** More on waiting *)

(** After [k] passes that go on, the loop ends at pass [k] if the context
    is cancelled there, or if the height query of that pass finds the
    awaited height. *)
Lemma Wait_loop_stops (c : Client) (ctx : Context) (height n : Z) :
  forall (k fuel k0 : nat) (w : world),
    (forall j, (j < k)%nat -> pass_goes_on c ctx height n k0 (sent w) j) ->
    (k < fuel)%nat ->
    (ctx (k0 + k)%nat = true ->
     Wait_loop fuel c ctx height n k0 w =
     (Returned None,
      mkWorld (sent w + k) (trace w ++ polling (waitInterval (cfg_ c)) k))) /\
    (forall h,
        ctx (k0 + k)%nat = false ->
        GetBlockCount (client c) (sent w + k)%nat = (h, None) ->
        (h >=? uint32 (height + n)) = true ->
        Wait_loop fuel c ctx height n k0 w =
        (Returned None,
         mkWorld (S (sent w + k))
           (trace w ++ polling (waitInterval (cfg_ c)) k
              ++ [EvRequest ReqGetBlockCount]))).
Proof.
  induction k as [|k IH]; intros fuel k0 w Hgo Hfuel;
    (destruct fuel as [|fuel]; [lia|]); cbn [Wait_loop].
  - rewrite !Nat.add_0_r. split.
    + intros Hc. rewrite Hc. unfold ret. cbn [polling]. rewrite app_nil_r.
      now destruct w.
    + intros h Hc Hq Hge. rewrite Hc. run_op. use_eq Hq. rewrite Hge. reflexivity.
  - destruct (Hgo 0%nat ltac:(lia)) as (Hc0 & h0 & Hq0 & Hlow).
    rewrite Nat.add_0_r in Hc0, Hq0. rewrite Hc0. run_op. use_eq Hq0. rewrite Hlow.
    cbn [sent trace].
    assert (Hgo' : forall j, (j < k)%nat ->
              pass_goes_on c ctx height n (S k0) (S (sent w)) j).
    { intros j Hj. destruct (Hgo (S j) ltac:(lia)) as (Hcj & hj & Hqj & Hlj).
      split; [now rewrite Nat.add_succ_comm | exists hj].
      split; [now rewrite Nat.add_succ_comm | exact Hlj]. }
    destruct (IH fuel (S k0)
                (mkWorld (S (sent w))
                   ((trace w ++ [EvRequest ReqGetBlockCount])
                      ++ [EvSleep (waitInterval (cfg_ c))]))
                Hgo' ltac:(lia)) as [IHc IHq].
    cbn [sent trace] in IHc, IHq. split.
    + intros Hc. rewrite IHc by (now rewrite Nat.add_succ_comm).
      cbn [polling]. rewrite <- !app_assoc. cbn [app].
      now rewrite Nat.add_succ_r.
    + intros h Hc Hq Hge.
      rewrite (IHq h) by (try assumption; now rewrite Nat.add_succ_comm).
      cbn [polling]. rewrite <- !app_assoc. cbn [app].
      now rewrite Nat.add_succ_r.
Qed.

Lemma Wait_loop_keeps_polling (c : Client) (ctx : Context) (height n : Z) :
  forall (fuel k0 : nat) (w : world),
    (forall j, (j < fuel)%nat -> pass_goes_on c ctx height n k0 (sent w) j) ->
    Wait_loop fuel c ctx height n k0 w =
    (OutOfFuel,
     mkWorld (sent w + fuel) (trace w ++ polling (waitInterval (cfg_ c)) fuel)).
Proof.
  induction fuel as [|fuel IH]; intros k0 w Hgo; cbn [Wait_loop].
  - unfold out_of_fuel. cbn [polling]. rewrite app_nil_r, Nat.add_0_r.
    now destruct w.
  - destruct (Hgo 0%nat ltac:(lia)) as (Hc0 & h0 & Hq0 & Hlow).
    rewrite Nat.add_0_r in Hc0, Hq0. rewrite Hc0. run_op. use_eq Hq0. rewrite Hlow.
    rewrite IH.
    + cbn [sent trace polling]. rewrite <- !app_assoc. cbn [app].
      now rewrite Nat.add_succ_r.
    + intros j Hj. destruct (Hgo (S j) ltac:(lia)) as (Hcj & hj & Hqj & Hlj).
      split; [now rewrite Nat.add_succ_comm | exists hj]. cbn [sent].
      split; [now rewrite Nat.add_succ_comm | exact Hlj].
Qed.

(** X9.  On an active client whose initial height query succeeds, [Wait]
    polls once per pass and sleeps the configured interval between passes
    for as long as the context is live, the query succeeds and the height
    is below the first height plus [n] (in [uint32] arithmetic).  It
    returns [nil] at the first pass where the context is cancelled (before
    the query of that pass) or where the query finds the awaited height
    (without a further sleep); while no pass ends it, it is still
    polling. *)
Theorem Wait_polls_until_height_or_cancel
    (c : Client) (ctx : Context) (n : Z) (t : nat) (height : Z)
    (Hactive : inactive c = false)
    (Hfirst : GetBlockCount (client c) t = (height, None)) :
  let d := waitInterval (cfg_ c) in
  let start := [EvRLock; EvRequest ReqGetBlockCount] in
  (forall fuel k,
      (forall j, (j < k)%nat -> pass_goes_on c ctx height n 0 (S t) j) ->
      (k < fuel)%nat ->
      ctx k = true ->
      run (Wait fuel c ctx n) t =
      (Returned None,
       mkWorld (S t + k) (start ++ polling d k ++ [EvRUnlock]))) /\
  (forall fuel k h,
      (forall j, (j < k)%nat -> pass_goes_on c ctx height n 0 (S t) j) ->
      (k < fuel)%nat ->
      ctx k = false ->
      GetBlockCount (client c) (S t + k)%nat = (h, None) ->
      uint32 (height + n) <= h ->
      run (Wait fuel c ctx n) t =
      (Returned None,
       mkWorld (S (S t + k))
         (start ++ polling d k ++ [EvRequest ReqGetBlockCount; EvRUnlock]))) /\
  (forall fuel,
      (forall j, (j < fuel)%nat -> pass_goes_on c ctx height n 0 (S t) j) ->
      run (Wait fuel c ctx n) t =
      (OutOfFuel, mkWorld (S t + fuel) (start ++ polling d fuel))).
Proof.
  intros d start. subst d start. repeat split.
  - intros fuel k Hgo Hfuel Hc. unfold Wait. run_op. use_eq Hactive. use_eq Hfirst.
    destruct (Wait_loop_stops c ctx height n k fuel 0
                (mkWorld (S t) [EvRLock; EvRequest ReqGetBlockCount]) Hgo Hfuel)
      as [Hstop _].
    rewrite (Hstop Hc). cbn [sent trace snd app]. rewrite <- ?app_assoc. reflexivity.
  - intros fuel k h Hgo Hfuel Hc Hq Hge. unfold Wait. run_op.
    use_eq Hactive. use_eq Hfirst.
    destruct (Wait_loop_stops c ctx height n k fuel 0
                (mkWorld (S t) [EvRLock; EvRequest ReqGetBlockCount]) Hgo Hfuel)
      as [_ Hstop].
    rewrite (Hstop h Hc Hq) by (apply Z.geb_le; lia).
    cbn [sent trace snd app]. rewrite <- ?app_assoc. reflexivity.
  - intros fuel Hgo. unfold Wait. run_op. use_eq Hactive. use_eq Hfirst.
    rewrite (Wait_loop_keeps_polling c ctx height n fuel 0
               (mkWorld (S t) [EvRLock; EvRequest ReqGetBlockCount]) Hgo).
    reflexivity.
Qed.

Lemma Wait_polls_until_height_or_cancel_sample :
  run (Wait 10 (sample_client good_ws false) never_cancelled 2) 0 =
  (Returned None,
   mkWorld 3
     [EvRLock; EvRequest ReqGetBlockCount;
      EvRequest ReqGetBlockCount; EvSleep 500;
      EvRequest ReqGetBlockCount; EvRUnlock]).
Proof.
  destruct (Wait_polls_until_height_or_cancel (sample_client good_ws false)
              never_cancelled 2 0 100 eq_refl eq_refl) as (_ & H & _).
  apply (H 10%nat 1%nat 102).
  - intros j Hj. assert (j = 0%nat) as -> by lia.
    split; [reflexivity|]. exists 101. split; reflexivity.
  - lia.
  - reflexivity.
  - reflexivity.
  - vm_compute. discriminate.
Defined.

(** X10.  The awaited height is computed in [uint32]: when the first
    height plus [n] passes 2^32 it wraps around, and [Wait] returns at its
    first pass as soon as the chain is not below the wrapped value, in
    particular when the chain has not moved at all. *)
Theorem Wait_awaited_height_wraps
    (c : Client) (ctx : Context) (n : Z) (t fuel : nat) (height h : Z)
    (Hactive : inactive c = false)
    (Hheight : 0 <= height < 2 ^ 32) (Hn : 0 <= n < 2 ^ 32)
    (Hwrap : 2 ^ 32 <= height + n)
    (Hfirst : GetBlockCount (client c) t = (height, None))
    (Hctx : ctx 0%nat = false)
    (Hsecond : GetBlockCount (client c) (S t) = (h, None))
    (Hh : height <= h) :
  uint32 (height + n) = height + n - 2 ^ 32 /\
  run (Wait (S fuel) c ctx n) t =
  (Returned None,
   mkWorld (S (S t))
     [EvRLock; EvRequest ReqGetBlockCount; EvRequest ReqGetBlockCount; EvRUnlock]).
Proof.
  assert (Hu : uint32 (height + n) = height + n - 2 ^ 32).
  { unfold uint32.
    replace (height + n) with ((height + n - 2 ^ 32) + 1 * 2 ^ 32) at 1 by lia.
    rewrite Z.mod_add by lia. apply Z.mod_small. lia. }
  split; [exact Hu|].
  unfold Wait. cbn [Wait_loop]. run_op. use_eq Hactive. use_eq Hfirst.
  rewrite Hctx. cbn [sent trace fst snd app]. rewrite Hsecond.
  cbn [sent trace fst snd app].
  assert (Hge : (h >=? uint32 (height + n)) = true) by (apply Z.geb_le; lia).
  rewrite Hge. reflexivity.
Qed.

Lemma Wait_awaited_height_wraps_sample :
  run (Wait 1 (sample_client (sample_ws halt_report (still_height (2 ^ 32 - 1)) None)
                 false) never_cancelled 5) 0 =
  (Returned None,
   mkWorld 2
     [EvRLock; EvRequest ReqGetBlockCount; EvRequest ReqGetBlockCount; EvRUnlock]).
Proof.
  apply (Wait_awaited_height_wraps
           (sample_client (sample_ws halt_report (still_height (2 ^ 32 - 1)) None) false)
           never_cancelled 5 0 0 (2 ^ 32 - 1) (2 ^ 32 - 1));
    try reflexivity; lia.
Defined.

Lemma wait_trace_reading (d : Z) (tr : list event) :
  forallb (fun e => is_wait_event d e || is_lock_event e) tr = true ->
  count is_request tr = count is_height_query tr /\
  Forall (fun e => is_sleep e = true -> e = EvSleep d) tr.
Proof.
  induction tr as [|e tr IH]; intros H; [split; [reflexivity | constructor]|].
  cbn [forallb] in H. apply andb_prop in H as [He Hrest].
  destruct (IH Hrest) as [IH1 IH2]. unfold count in *. split.
  - destruct e as [| | | |r| | | |]; try discriminate; cbn; try exact IH1.
    destruct r; try discriminate. cbn. now rewrite IH1.
  - constructor; [|exact IH2].
    destruct e; try discriminate; cbn; try discriminate.
    intros _. cbn in He. rewrite orb_false_r in He. apply Z.eqb_eq in He. now subst.
Qed.

(** X11.  Whatever the connection answers and whether or not it returns,
    [Wait] sends no request other than height queries, and every sleep
    lasts the configured wait interval. *)
Theorem Wait_only_queries_height
    (c : Client) (ctx : Context) (n : Z) (fuel t : nat) :
  let tr := trace_of (Wait fuel c ctx n) t in
  count is_request tr = count is_height_query tr /\
  Forall (fun e => is_sleep e = true -> e = EvSleep (waitInterval (cfg_ c))) tr.
Proof.
  intros tr. apply wait_trace_reading. subst tr. unfold Wait. run_op.
  destruct (inactive c); cbn [sent trace fst snd app]; [reflexivity|].
  destruct (GetBlockCount (client c) t) as [h [e|]]; cbn [sent trace fst snd app];
    [reflexivity|].
  destruct (Wait_loop_events c ctx h n fuel 0
              (mkWorld (S t) [EvRLock; EvRequest ReqGetBlockCount]))
    as (mid & Htr & Hall).
  assert (Hmid : forallb
            (fun e => is_wait_event (waitInterval (cfg_ c)) e || is_lock_event e)
            mid = true).
  { rewrite forallb_forall in *. intros e He. now rewrite (Hall e He). }
  destruct (Wait_loop fuel c ctx h n 0 _) as [[r|r|] w'];
    cbn [fst snd trace] in *; rewrite Htr; cbn [trace];
    rewrite ?forallb_app, Hmid; reflexivity.
Qed.

(** ** Reading results *)

(** X12.  [TxHalt] answers for the first execution of the application log
    only: [true] when that execution has the HALT flag, [false] when it has
    not or when the log has no execution at all (no error in either
    case). *)
Theorem TxHalt_looks_at_first_execution
    (c : Client) (h : Uint256) (t : nat) (aer : ApplicationLog)
    (Hactive : inactive c = false)
    (Hlog : GetApplicationLog (client c) t h trigger_Application = (aer, None)) :
  result_of (TxHalt c h) t =
  Returned (match Executions aer with
            | [] => false
            | first :: _ => halt first
            end, None).
Proof.
  unfold TxHalt. run_op. use_eq Hactive. use_eq Hlog.
  destruct (Executions aer); reflexivity.
Qed.

Lemma TxHalt_looks_at_first_execution_sample :
  result_of (TxHalt (sample_client good_ws false) sample_tx) 0 = Returned (true, None).
Proof.
  apply (TxHalt_looks_at_first_execution (sample_client good_ws false) sample_tx 0
           (mkLog [mkState true false false]) eq_refl eq_refl).
Defined.

(** X13.  [NeoFSAlphabetList] asks for the members of the NeoFS alphabet
    role at the height that the height query has just returned, and
    returns them.  A failed height query is reported with the text
    ["can't get alphabet nodes role list: can't get chain height: ..."],
    a failed role query with ["can't get alphabet nodes role list: ..."],
    each with an empty list. *)
Theorem NeoFSAlphabetList_at_current_height
    (c : Client) (t : nat) (Hactive : inactive c = false) :
  (forall height ks,
      GetBlockCount (client c) t = (height, None) ->
      GetDesignatedByRole (client c) (S t) NeoFSAlphabet height = (ks, None) ->
      run (NeoFSAlphabetList c) t =
      (Returned (ks, None),
       mkWorld (S (S t))
         [EvRLock; EvRequest ReqGetBlockCount;
          EvRequest (ReqGetDesignatedByRole NeoFSAlphabet height); EvRUnlock])) /\
  (forall height e,
      GetBlockCount (client c) t = (height, Some e) ->
      exists err,
        result_of (NeoFSAlphabetList c) t = Returned ([], Some err) /\
        Error err = ("can't get alphabet nodes role list: can't get chain height: "
                       ++ Error e)%string) /\
  (forall height ks e,
      GetBlockCount (client c) t = (height, None) ->
      GetDesignatedByRole (client c) (S t) NeoFSAlphabet height = (ks, Some e) ->
      exists err,
        result_of (NeoFSAlphabetList c) t = Returned ([], Some err) /\
        Error err = ("can't get alphabet nodes role list: " ++ Error e)%string).
Proof.
  repeat split.
  - intros height ks Hh Hk. unfold NeoFSAlphabetList. run_op.
    use_eq Hactive. use_eq Hh. use_eq Hk. reflexivity.
  - intros height e Hh. unfold NeoFSAlphabetList. run_op.
    use_eq Hactive. use_eq Hh. eexists. split; reflexivity.
  - intros height ks e Hh Hk. unfold NeoFSAlphabetList. run_op.
    use_eq Hactive. use_eq Hh. use_eq Hk. eexists. split; reflexivity.
Qed.

Lemma NeoFSAlphabetList_at_current_height_sample :
  result_of (NeoFSAlphabetList (sample_client good_ws false)) 4 =
  Returned ([sample_key], None).
Proof.
  destruct (NeoFSAlphabetList_at_current_height (sample_client good_ws false) 4
              eq_refl) as (H & _).
  unfold result_of. rewrite (H 104 [sample_key] eq_refl eq_refl). reflexivity.
Defined.

(** ** After the terminal transition *)

(** X14.  Once [inactiveMode] has run on a client with an open channel,
    the notification channel is closed and every public operation on the
    client fails fast with [ErrConnectionLost], without a request. *)
Theorem operations_fail_fast_after_inactiveMode
    (c : Client) (t : nat) (Hopen : notifications_closed c = false) :
  exists c',
    result_of (inactiveMode c) t = Returned c' /\
    NotificationChannel c' = true /\
    (forall contract fee method args,
        fails_fast (Invoke c' contract fee method args) (fun e => e)) /\
    (forall contract method args,
        fails_fast (TestInvoke c' contract method args) snd) /\
    (forall receiver amount, fails_fast (TransferGas c' receiver amount) (fun e => e)) /\
    (forall fuel ctx n, fails_fast (Wait fuel c' ctx n) (fun e => e)) /\
    fails_fast (GasBalance c') snd /\
    fails_fast (Committee c') snd /\
    (forall h, fails_fast (TxHalt c' h) snd) /\
    (forall h, fails_fast (TxHeight c' h) snd) /\
    fails_fast (BlockCount c') snd /\
    fails_fast (MsPerBlock c') snd /\
    (forall script signers, fails_fast (IsValidScript c' script signers) snd) /\
    fails_fast (NeoFSAlphabetList c') snd /\
    fails_fast (GetDesignateHash c') snd /\
    fails_fast (MagicNumber c') snd.
Proof.
  exists (set_inactive c). split.
  { unfold result_of, run. now rewrite (inactiveMode_first c _ Hopen). }
  split; [reflexivity|].
  repeat split; intros;
    unfold Invoke, TestInvoke, TransferGas, Wait, GasBalance, Committee, TxHalt,
      TxHeight, BlockCount, MsPerBlock, IsValidScript, NeoFSAlphabetList,
      GetDesignateHash, MagicNumber;
    run_op; intros; cbn [inactive set_inactive]; eexists; split; reflexivity.
Qed.

Lemma operations_fail_fast_after_inactiveMode_sample :
  exists c',
    result_of (inactiveMode (sample_client good_ws false)) 0 = Returned c' /\
    fails_fast (BlockCount c') snd.
Proof.
  destruct (operations_fail_fast_after_inactiveMode (sample_client good_ws false) 0
              eq_refl)
    as (c' & Hres & _ & _ & _ & _ & _ & _ & _ & _ & _ & H & _).
  exists c'. split; assumption.
Defined.

(** ** More on the fact cache *)

(** X15.  On a cache whose mutex is free, a fact that has been set is the
    fact the accessor returns, the other fact and the transaction heights
    are untouched, the mutex is free again, and [invalidate] afterwards
    makes both accessors return the absent marker and empties the
    transaction heights. *)
Theorem cache_set_get_invalidate (f : cache) (h : Uint160) (k : option PublicKey) :
  let free := mkRWMutex false 0 in
  let with_hash := mkShared free (mkCache (Some h) (gKey f) (txHeights f)) in
  let with_key := mkShared free (mkCache (nnsHash f) k (txHeights f)) in
  setNNSHash h (mkShared free f) = Some with_hash /\
  nns with_hash = Some (Some h) /\
  groupKey with_hash = Some (gKey f) /\
  setGroupKey k (mkShared free f) = Some with_key /\
  groupKey with_key = Some k /\
  nns with_key = Some (nnsHash f) /\
  invalidate with_hash = Some (mkShared free zero_cache) /\
  invalidate with_key = Some (mkShared free zero_cache).
Proof.
  destruct f as [n g txs]. cbn. repeat split; reflexivity.
Qed.

Lemma set_nth_counting (p : frame -> bool) (l : list frame) :
  forall (i : nat) (fr fr' : frame),
    nth_error l i = Some fr ->
    (counting p (set_nth i fr' l) + Nat.b2n (p fr)
     = counting p l + Nat.b2n (p fr'))%nat.
Proof.
  unfold counting.
  induction l as [|x l IH]; intros [|i] fr fr' H; cbn in H; try discriminate.
  - injection H as ->. cbn [set_nth filter].
    destruct (p fr), (p fr'); cbn [List.length Nat.b2n]; lia.
  - cbn [set_nth filter]. specialize (IH i fr fr' H).
    destruct (p x); cbn [List.length]; lia.
Qed.

Lemma counting_one (p : frame -> bool) (l : list frame) (i : nat) (fr : frame) :
  nth_error l i = Some fr -> p fr = true -> (1 <= counting p l)%nat.
Proof.
  intros Hnth Hp. unfold counting.
  assert (Hf : In fr (filter p l)).
  { apply filter_In. split; [eapply nth_error_In; eassumption | exact Hp]. }
  destruct (filter p l); [contradiction | cbn; lia].
Qed.

Lemma counting_two (p : frame -> bool) (l : list frame) :
  forall (i j : nat) (a b : frame),
    i <> j ->
    nth_error l i = Some a -> nth_error l j = Some b ->
    p a = true -> p b = true ->
    (2 <= counting p l)%nat.
Proof.
  induction l as [|x l IH]; intros [|i] [|j] a b Hij Ha Hb Hpa Hpb;
    cbn in Ha, Hb; try discriminate; try congruence.
  - injection Ha as ->. pose proof (counting_one p l j b Hb Hpb) as H.
    unfold counting in *. cbn [filter]. rewrite Hpa. cbn [List.length]. lia.
  - injection Hb as ->. pose proof (counting_one p l i a Ha Hpa) as H.
    unfold counting in *. cbn [filter]. rewrite Hpb. cbn [List.length]. lia.
  - assert (Hij' : i <> j) by congruence.
    pose proof (IH i j a b Hij' Ha Hb Hpa Hpb) as H.
    unfold counting in *. cbn [filter]. destruct (p x); cbn [List.length]; lia.
Qed.

Ltac solve_code :=
  first [ solve [apply code_accessor; constructor]
        | apply code_invalidate | apply code_invalidate_1
        | apply code_invalidate_2 | apply code_invalidate_3
        | apply code_unlocking
        | apply code_setNNSHash | apply code_setNNSHash_1
        | apply code_setGroupKey | apply code_setGroupKey_1 ].

Lemma pool_invariant_initial (f : cache) (bodies : list (list stmt)) :
  Forall is_method_body bodies -> pool_invariant (pool_initial f bodies).
Proof.
  intros Hb. unfold pool_initial.
  assert (H : counting holds_rlock (map enter bodies) = 0%nat /\
              counting holds_wlock (map enter bodies) = 0%nat /\
              Forall (fun fr => method_code (code fr)) (map enter bodies)).
  { induction Hb as [|b bodies Hb _ (IH1 & IH2 & IH3)];
      [repeat split; constructor|].
    unfold counting in *. cbn [map filter].
    destruct Hb as [-> | [-> | [-> | [[h ->] | [k ->]]]]]; cbn;
      (split; [exact IH1 | split; [exact IH2|]]);
      constructor; try exact IH3; cbn; solve_code. }
  destruct H as (H1 & H2 & H3).
  split; cbn [pool_mem frames m writer readers Nat.b2n]; auto; discriminate.
Qed.

Lemma pool_invariant_step (p p' : pool) :
  pool_invariant p -> pool_step p p' -> pool_invariant p'.
Proof.
  intros [Hrd Hwr Hex Hcode] Hstep.
  destruct p as [[[wr rd] x] frs].
  cbn [pool_mem frames m fields writer readers] in *.
  inversion Hstep as [p0 i fr sh' fr' Hnth Hs]; subst.
  cbn [pool_mem frames] in *.
  assert (Hfr : method_code (code fr)).
  { rewrite Forall_forall in Hcode. apply Hcode. eapply nth_error_In; eassumption. }
  pose proof (set_nth_counting holds_rlock frs i fr fr' Hnth) as Hcr.
  pose proof (set_nth_counting holds_wlock frs i fr fr' Hnth) as Hcw.
  destruct fr as [cd rcv rt]. cbn [code] in Hfr.
  unfold step_frame in Hs. cbn [code] in Hs.
  inversion Hfr as [cd0 Hacc | | | | | | h | h | k | k]; subst;
    [inversion Hacc; subst|..];
    cbn in Hs; try discriminate;
    try (destruct wr; [discriminate|]);
    try (destruct (counting holds_rlock frs =? 0)%nat eqn:Hz;
         [apply Nat.eqb_eq in Hz | discriminate]);
    cbn in Hs; injection Hs as <- <-;
    unfold nns_body, groupKey_body, invalidate_body, setNNSHash_body,
      setGroupKey_body in Hcr, Hcw;
    cbn [holds_rlock holds_wlock code Nat.b2n] in Hcr, Hcw.
  all: split; cbn [pool_mem frames m fields writer readers Nat.b2n].
  all: try lia.
  all: cbn [Nat.b2n] in *; try lia.
  all: try (destruct wr; cbn [Nat.b2n] in *; lia).
  all: try (intros Hw; try discriminate; specialize (Hex Hw); lia).
  all: try (apply set_nth_Forall; [exact Hcode|]; cbn [code]; solve_code).

Qed.

Lemma pool_invariant_steps (p p' : pool) :
  pool_invariant p -> pool_steps p p' -> pool_invariant p'.
Proof.
  intros H Hs. induction Hs as [|p1 p2 p3 _ IH Hstep]; [exact H|].
  eapply pool_invariant_step; [apply IH; exact H | exact Hstep].
Qed.

Lemma pool_run_sound (sched : list nat) : forall p p',
  pool_run sched p = Some p' -> pool_steps p p'.
Proof.
  assert (Htrans : forall p1 p2 p3,
             pool_steps p1 p2 -> pool_steps p2 p3 -> pool_steps p1 p3).
  { intros p1 p2 p3 H12 H23. induction H23 as [|p2 p3 p4 _ IH Hstep]; [exact H12|].
    apply (pool_steps_step p1 p3 p4); [apply IH; exact H12 | exact Hstep]. }
  induction sched as [|i rest IH]; intros p p' H; cbn [pool_run] in H.
  - injection H as <-. constructor.
  - destruct (pool_schedule_step i p) as [p1|] eqn:H1; [|discriminate].
    apply (Htrans p p1 p'); [|apply IH; exact H].
    apply (pool_steps_step p p p1); [constructor|].
    unfold pool_schedule_step in H1.
    destruct (nth_error (frames p) i) as [fr|] eqn:Hnth; [|discriminate].
    destruct (step_frame (pool_mem p) fr) as [[sh' fr']|] eqn:Hs; [|discriminate].
    injection H1 as <-. apply (pool_step_frame p i fr sh' fr' Hnth Hs).
Qed.

Lemma step_frame_writes (sh sh' : shared) (fr fr' : frame) :
  step_frame sh fr = Some (sh', fr') ->
  fields sh' <> fields sh ->
  holds_wlock fr = true.
Proof.
  unfold step_frame, holds_wlock. destruct (code fr) as [|s rest]; [discriminate|].
  destruct s; cbn; intros Hs Hne; try reflexivity; exfalso; apply Hne;
    try (destruct (writer (m sh)); [discriminate|]);
    try (destruct (readers (m sh) =? 0)%nat; cbn in Hs; [|discriminate]);
    cbn in Hs; injection Hs as <- _; reflexivity.
Qed.

(** X16.  For any mix of calls of [nns], [groupKey], [setNNSHash],
    [setGroupKey] and [invalidate] that interleave statement by statement
    on one cache: while a call is between its [Lock] and [Unlock], no other
    call is between its own [Lock] and [Unlock] or between its [RLock] and
    [RUnlock]; and every statement that changes a field of the cache is
    run by a call that holds the exclusive lock alone. *)
Theorem cache_sections_exclude_each_other
    (f : cache) (bodies : list (list stmt)) (p : pool)
    (Hbodies : Forall is_method_body bodies)
    (Hreach : pool_steps (pool_initial f bodies) p) :
  (forall i j fri frj,
      i <> j ->
      nth_error (frames p) i = Some fri ->
      nth_error (frames p) j = Some frj ->
      holds_wlock fri = true ->
      holds_wlock frj = false /\ holds_rlock frj = false) /\
  (forall i fr sh' fr',
      nth_error (frames p) i = Some fr ->
      step_frame (pool_mem p) fr = Some (sh', fr') ->
      fields sh' <> fields (pool_mem p) ->
      holds_wlock fr = true /\
      forall j frj, j <> i -> nth_error (frames p) j = Some frj ->
                    holds_wlock frj = false /\ holds_rlock frj = false).
Proof.
  destruct (pool_invariant_steps _ p (pool_invariant_initial f bodies Hbodies) Hreach)
    as [Hrd Hwr Hex _].
  assert (Hexcl : forall i j fri frj,
             i <> j ->
             nth_error (frames p) i = Some fri ->
             nth_error (frames p) j = Some frj ->
             holds_wlock fri = true ->
             holds_wlock frj = false /\ holds_rlock frj = false).
  { intros i j fri frj Hij Hi Hj Hw.
    pose proof (counting_one holds_wlock _ i fri Hi Hw) as Hone.
    assert (Hwriter : writer (m (pool_mem p)) = true).
    { destruct (writer (m (pool_mem p))); [reflexivity | cbn in Hwr; lia]. }
    rewrite Hwriter in Hwr. cbn [Nat.b2n] in Hwr.
    specialize (Hex Hwriter). split.
    - destruct (holds_wlock frj) eqn:Hwj; [|reflexivity].
      pose proof (counting_two holds_wlock _ i j fri frj Hij Hi Hj Hw Hwj). lia.
    - destruct (holds_rlock frj) eqn:Hrj; [|reflexivity].
      pose proof (counting_one holds_rlock _ j frj Hj Hrj). lia. }
  split; [exact Hexcl|].
  intros i fr sh' fr' Hi Hs Hne.
  pose proof (step_frame_writes _ _ _ _ Hs Hne) as Hw.
  split; [exact Hw|].
  intros j frj Hji Hj. apply (Hexcl i j fr frj); auto.
Qed.

Lemma cache_sections_exclude_each_other_sample :
  let start := pool_initial sample_cache
                 [setNNSHash_body sample_hash; nns_body; invalidate_body] in
  let locked := mkPool (mkShared (mkRWMutex true 0) sample_cache)
                  [mkFrame [SSetNNSHash (Some sample_hash); SUnlock] zero_cache None;
                   mkFrame [SRLock; SReturnNNSHash; SRUnlock] sample_cache None;
                   enter invalidate_body] in
  pool_run [1; 0]%nat start = Some locked /\
  pool_run [1; 0; 2]%nat start = None /\
  holds_wlock (enter invalidate_body) = false /\
  holds_rlock (enter invalidate_body) = false.
Proof.
  intros start locked.
  assert (Hrun : pool_run [1; 0]%nat start = Some locked) by reflexivity.
  split; [exact Hrun|]. split; [reflexivity|].
  assert (Hb : Forall is_method_body
                 [setNNSHash_body sample_hash; nns_body; invalidate_body]).
  { apply Forall_cons; [right; right; right; left; now exists sample_hash|].
    apply Forall_cons; [now left|].
    apply Forall_cons; [right; right; now left | apply Forall_nil]. }
  destruct (cache_sections_exclude_each_other sample_cache _ _ Hb
              (pool_run_sound _ _ _ Hrun)) as [H _].
  apply (H 0%nat 2%nat (mkFrame [SSetNNSHash (Some sample_hash); SUnlock]
                           zero_cache None)); try reflexivity. lia.
Defined.

(** * Node attributes *)

Import attributes.

Lemma append_empty_r (s : string) : String.append s EmptyString = s.
Proof. induction s as [|c s IH]; cbn; [reflexivity | now rewrite IH]. Qed.

Lemma append_assoc_str (a b c : string) :
  String.append (String.append a b) c = String.append a (String.append b c).
Proof. induction a as [|x a IH]; cbn; [reflexivity | now rewrite IH]. Qed.

Ltac case_char c :=
  let Hbs := fresh "Hbs" in
  let Hsep := fresh "Hsep" in
  destruct (Ascii.eqb_spec c "\"%char) as [->|Hbs];
  [| destruct (Ascii.eqb_spec c ":"%char) as [->|Hsep]].

Lemma prefix_empty (s : string) : String.prefix EmptyString s = true.
Proof. now destruct s. Qed.

Lemma prefix_same (a : ascii) (s1 s2 : string) :
  String.prefix (String a s1) (String a s2) = String.prefix s1 s2.
Proof. cbn [String.prefix]. destruct (ascii_dec a a); [reflexivity | congruence]. Qed.

Lemma prefix_other (a b : ascii) (s1 s2 : string) :
  a <> b -> String.prefix (String a s1) (String b s2) = false.
Proof. intros H. cbn [String.prefix]. destruct (ascii_dec a b); [congruence | reflexivity]. Qed.

Lemma replace_from_hit (c : ascii) (rest old new : string) :
  String.prefix old (String c rest) = true ->
  replace_from 0 (String c rest) old new =
  String.append new (replace_from (String.length old - 1) rest old new).
Proof. intros H. cbn [replace_from]. now rewrite H. Qed.

Lemma replace_from_miss (c : ascii) (rest old new : string) :
  String.prefix old (String c rest) = false ->
  replace_from 0 (String c rest) old new = String c (replace_from 0 rest old new).
Proof. intros H. cbn [replace_from]. now rewrite H. Qed.

Lemma replace_from_skip (k : nat) (c : ascii) (rest old new : string) :
  replace_from (S k) (String c rest) old new = replace_from k rest old new.
Proof. reflexivity. Qed.

(** A byte other than the first byte of [old] is copied. *)
Lemma replace_from_copy (a c : ascii) (old' rest new : string) :
  a <> c ->
  replace_from 0 (String c rest) (String a old') new =
  String c (replace_from 0 rest (String a old') new).
Proof. intros H. apply replace_from_miss. now apply prefix_other. Qed.

(** The forward pass on an escaped text, first replacement. *)
Lemma forward_first (s tail : string) :
  replace_from 0 (String.append (escape s) tail) "\\" (String byte3 EmptyString) =
  String.append (half_coded s)
    (replace_from 0 tail "\\" (String byte3 EmptyString)).
Proof.
  induction s as [|c s IH]; [reflexivity|].
  cbn [escape half_coded]. case_char c; cbn [Ascii.eqb Bool.eqb String.append].
  - rewrite replace_from_hit by (now rewrite !prefix_same, prefix_empty).
    cbn [String.length Nat.sub String.append]. rewrite replace_from_skip, IH.
    reflexivity.
  - rewrite replace_from_miss
      by (rewrite prefix_same; apply prefix_other; discriminate).
    rewrite replace_from_copy by discriminate. now rewrite IH.
  - cbn [String.append]. rewrite replace_from_copy by congruence. now rewrite IH.
Qed.

(** The forward pass, second replacement. *)
Lemma forward_second (s tail : string) :
  replace_from 0 (String.append (half_coded s) tail) "\:" (String byte2 EmptyString) =
  String.append (coded s)
    (replace_from 0 tail "\:" (String byte2 EmptyString)).
Proof.
  induction s as [|c s IH]; [reflexivity|].
  cbn [coded half_coded]. case_char c; cbn [Ascii.eqb Bool.eqb String.append].
  - rewrite replace_from_copy by discriminate. now rewrite IH.
  - rewrite replace_from_hit by (now rewrite !prefix_same, prefix_empty).
    cbn [String.length Nat.sub String.append]. rewrite replace_from_skip, IH.
    reflexivity.
  - cbn [String.append]. rewrite replace_from_copy by congruence. now rewrite IH.
Qed.

Lemma replaceEscaping_escape (s : string) : replaceEscaping (escape s) false = coded s.
Proof.
  unfold replaceEscaping, ReplaceAll. cbn [escChar keyValueSeparator String.append].
  rewrite <- (append_empty_r (escape s)), forward_first. cbn [replace_from].
  rewrite forward_second. cbn [replace_from]. apply append_empty_r.
Qed.

Lemma replaceEscaping_line (kv : string * string) :
  replaceEscaping (line_of kv) false =
  String.append (coded (fst kv)) (String ":"%char (coded (snd kv))).
Proof.
  destruct kv as [k v]. unfold line_of, replaceEscaping, ReplaceAll.
  cbn [fst snd escChar keyValueSeparator String.append].
  rewrite forward_first, replace_from_copy by discriminate.
  rewrite <- (append_empty_r (escape v)), forward_first. cbn [replace_from].
  rewrite append_empty_r, forward_second, replace_from_copy by discriminate.
  rewrite <- (append_empty_r (half_coded v)), forward_second. cbn [replace_from].
  now rewrite append_empty_r.
Qed.

(** A coded text holds no separator: the cut falls on the separator that
    follows it, or finds none. *)
Lemma Cut_coded (s rest : string) :
  Cut (String.append (coded s) (String ":"%char rest)) keyValueSeparator =
  (coded s, rest, true).
Proof.
  unfold keyValueSeparator.
  induction s as [|c s IH].
  - cbn [coded String.append Cut]. now rewrite prefix_same, prefix_empty.
  - cbn [coded]. case_char c; cbn [Ascii.eqb Bool.eqb String.append Cut];
      rewrite prefix_other by (unfold byte2, byte3; congruence);
      now rewrite IH.
Qed.

Lemma Cut_coded_none (s : string) :
  Cut (coded s) keyValueSeparator = (coded s, EmptyString, false).
Proof.
  unfold keyValueSeparator.
  induction s as [|c s IH]; [reflexivity|].
  cbn [coded]. case_char c; cbn [Ascii.eqb Bool.eqb Cut];
    rewrite prefix_other by (unfold byte2, byte3; congruence);
    now rewrite IH.
Qed.

(** The backward pass undoes the coding of a text without bytes 2 and 3. *)
Lemma backward_first (s : string) :
  free_of is_control s = true ->
  replace_from 0 (coded s) (String byte3 EmptyString) escChar = half_decoded s.
Proof.
  unfold escChar.
  induction s as [|c s IH]; [reflexivity|]. cbn [free_of]. intros H.
  apply andb_prop in H as [Hc Hs]. specialize (IH Hs).
  unfold is_control in Hc. apply negb_true_iff, orb_false_elim in Hc as [H2 H3].
  apply Ascii.eqb_neq in H2, H3.
  cbn [coded half_decoded]. case_char c; cbn [Ascii.eqb Bool.eqb].
  - rewrite replace_from_hit by (now rewrite prefix_same, prefix_empty).
    cbn [String.length Nat.sub String.append]. now rewrite IH.
  - rewrite replace_from_copy by (unfold byte2, byte3; discriminate). now rewrite IH.
  - rewrite replace_from_copy by congruence. now rewrite IH.
Qed.

Lemma backward_second (s : string) :
  free_of is_control s = true ->
  replace_from 0 (half_decoded s) (String byte2 EmptyString) keyValueSeparator = s.
Proof.
  unfold keyValueSeparator.
  induction s as [|c s IH]; [reflexivity|]. cbn [free_of]. intros H.
  apply andb_prop in H as [Hc Hs]. specialize (IH Hs).
  unfold is_control in Hc. apply negb_true_iff, orb_false_elim in Hc as [H2 H3].
  apply Ascii.eqb_neq in H2, H3.
  cbn [half_decoded]. destruct (Ascii.eqb_spec c ":"%char) as [->|Hsep].
  - rewrite replace_from_hit by (now rewrite prefix_same, prefix_empty).
    cbn [String.length Nat.sub String.append]. now rewrite IH.
  - rewrite replace_from_copy by congruence. now rewrite IH.
Qed.

Lemma replaceEscaping_coded (s : string) :
  free_of is_control s = true -> replaceEscaping (coded s) true = s.
Proof.
  intros H. unfold replaceEscaping, ReplaceAll.
  now rewrite backward_first, backward_second.
Qed.

Lemma coded_injective (a b : string) :
  free_of is_control a = true -> free_of is_control b = true ->
  coded a = coded b -> a = b.
Proof.
  intros Ha Hb H.
  rewrite <- (replaceEscaping_coded a Ha), <- (replaceEscaping_coded b Hb).
  now rewrite H.
Qed.

Lemma plain_parts (s : string) :
  plain s = true -> s <> EmptyString /\ free_of is_control s = true.
Proof.
  unfold plain. intros H. apply andb_prop in H as [Hne Hfree].
  split; [|exact Hfree]. apply negb_true_iff in Hne. now apply String.eqb_neq.
Qed.

Lemma not_seen (k : string) (seen : list string) :
  free_of is_control k = true ->
  Forall (fun s => free_of is_control s = true) seen ->
  ~ In k seen ->
  existsb (String.eqb (coded k)) (map coded seen) = false.
Proof.
  intros Hk Hseen Hnot. induction Hseen as [|s seen Hs _ IH]; [reflexivity|].
  cbn [map existsb]. rewrite IH by (intros Hin; apply Hnot; now right).
  rewrite orb_false_r. apply String.eqb_neq. intros Heq.
  apply Hnot. left. symmetry. now apply coded_injective.
Qed.

Lemma seen_before (k : string) (seen : list string) :
  In k seen -> existsb (String.eqb (coded k)) (map coded seen) = true.
Proof.
  intros Hin. apply existsb_exists. exists (coded k).
  split; [now apply in_map | apply String.eqb_refl].
Qed.

(** The loop on the lines of attributes that can be written and read
    back, none of whose keys has been seen. *)
Lemma read_lines_plain (kvs : list (string * string)) :
  forall (seen : list string) (written : list (string * string))
         (rest : list string),
    forallb plain_pair kvs = true ->
    NoDup (map fst kvs) ->
    (forall k, In k (map fst kvs) -> ~ In k seen) ->
    Forall (fun s => free_of is_control s = true) seen ->
    read_lines (map line_of kvs ++ rest) (map coded seen) written =
    read_lines rest (map coded (rev (map fst kvs) ++ seen)) (written ++ kvs).
Proof.
  induction kvs as [|[k v] kvs IH]; intros seen written rest Hplain Hnodup Hnew Hseen.
  - cbn. now rewrite app_nil_r.
  - cbn [forallb] in Hplain. apply andb_prop in Hplain as [Hkv Hrest].
    unfold plain_pair in Hkv. cbn [fst snd] in Hkv.
    apply andb_prop in Hkv as [Hk Hv].
    destruct (plain_parts k Hk) as [Hkne Hkfree].
    destruct (plain_parts v Hv) as [Hvne Hvfree].
    cbn [map fst] in Hnodup, Hnew. inversion Hnodup as [|k' l' Hnotin Hnodup']; subst.
    cbn [map app read_lines]. rewrite replaceEscaping_line. cbn [fst snd].
    rewrite Cut_coded.
    rewrite (not_seen k seen Hkfree Hseen) by (apply Hnew; now left).
    rewrite !replaceEscaping_coded by assumption.
    apply String.eqb_neq in Hkne, Hvne. rewrite Hkne, Hvne.
    change (coded k :: map coded seen) with (map coded (k :: seen)).
    rewrite IH; try assumption.
    + cbn [map rev]. rewrite <- !app_assoc. reflexivity.
    + intros k0 Hin [<- | Hs]; [contradiction|].
      apply (Hnew k0); [now right | exact Hs].
    + constructor; assumption.
Qed.

(** X17.  Attributes that can be written and read back (keys and values
    not empty and without the bytes 2 and 3, keys pairwise different),
    written one per line as escaped key, separator, escaped value, are
    read without error, and [SetAttribute] is called once per line, in
    order, with the keys and values as they were before escaping. *)
Theorem ReadNodeAttributes_reads_escaped_lines (kvs : list (string * string))
    (Hplain : forallb plain_pair kvs = true)
    (Hnodup : NoDup (map fst kvs)) :
  ReadNodeAttributes (map line_of kvs) = (kvs, None).
Proof.
  unfold ReadNodeAttributes.
  pose proof (read_lines_plain kvs [] [] [] Hplain Hnodup) as H.
  rewrite app_nil_r in H. cbn [map app] in H. rewrite H; [reflexivity | | constructor].
  intros k _ [].
Qed.

Lemma ReadNodeAttributes_reads_escaped_lines_sample :
  ReadNodeAttributes ["Price:22.5"; "Country\:Code:RU"; "Path:c\:\\dir"]%string =
  ([("Price", "22.5"); ("Country:Code", "RU"); ("Path", "c:\dir")]%string, None).
Proof.
  apply (ReadNodeAttributes_reads_escaped_lines
           [("Price", "22.5"); ("Country:Code", "RU"); ("Path", "c:\dir")]%string).
  - reflexivity.
  - repeat constructor; cbn; intuition discriminate.
Defined.

(** *** Any lines *)

Lemma existsb_eqb_In (k : string) (seen : list string) :
  existsb (String.eqb k) seen = true <-> In k seen.
Proof.
  rewrite existsb_exists. split.
  - intros (x & Hin & Heq). apply String.eqb_eq in Heq. now subst.
  - intros Hin. exists k. split; [exact Hin | apply String.eqb_refl].
Qed.

(** Lines that are read without error leave their compared keys in the
    set, and the loop goes on with the lines after them. *)
Lemma read_lines_prefix (lines : list string) :
  forall (seen : list string) (written written' : list (string * string))
         (rest : list string),
    read_lines lines seen written = (written', None) ->
    read_lines (lines ++ rest) seen written =
    read_lines rest (rev (map compared_key lines) ++ seen) written'.
Proof.
  induction lines as [|l lines IH]; intros seen written written' rest H.
  - cbn [read_lines] in H. injection H as <-. reflexivity.
  - cbn [read_lines app map rev] in *.
    change (compared_key l)
      with (fst (fst (Cut (replaceEscaping l false) keyValueSeparator))).
    destruct (Cut (replaceEscaping l false) keyValueSeparator) as [[k v] found].
    cbn [fst]. destruct found; [|discriminate H].
    destruct (existsb (String.eqb k) seen); [discriminate H|].
    destruct (String.eqb (replaceEscaping k true) EmptyString); [discriminate H|].
    destruct (String.eqb (replaceEscaping v true) EmptyString); [discriminate H|].
    rewrite (IH _ _ _ rest H), <- app_assoc. reflexivity.
Qed.

Lemma compared_key_line_of (kv : string * string) :
  compared_key (line_of kv) = coded (fst kv).
Proof.
  unfold compared_key. now rewrite replaceEscaping_line, Cut_coded.
Qed.

Lemma Cut_found (s : string) :
  snd (Cut s keyValueSeparator) = negb (free_of is_separator s).
Proof.
  unfold keyValueSeparator, is_separator.
  induction s as [|c s IH]; [reflexivity|].
  cbn [Cut free_of]. destruct (Ascii.eqb_spec c ":"%char) as [->|Hc].
  - now rewrite prefix_same, prefix_empty.
  - rewrite prefix_other by congruence.
    destruct (Cut s ":") as [[before after] found]. cbn [snd negb andb] in *.
    rewrite <- IH. now destruct found.
Qed.

(** The second replacement of the forward pass leaves the separators that
    do not stand behind a backslash. *)
Lemma second_replacement_separators (n : nat) : forall s,
  (String.length s < n)%nat ->
  free_of is_separator (replace_from 0 s "\:" (String byte2 EmptyString))
  = separators_behind_backslash s.
Proof.
  unfold is_separator.
  induction n as [|n IH]; intros s Hlen; [lia|].
  destruct s as [|c rest]; [reflexivity|]. cbn [String.length] in Hlen.
  cbn [separators_behind_backslash]. case_char c; cbn [Ascii.eqb Bool.eqb].
  - destruct rest as [|d rest']; [reflexivity|]. cbn [String.length] in Hlen.
    destruct (Ascii.eqb_spec d ":"%char) as [->|Hd].
    + rewrite replace_from_hit by (now rewrite !prefix_same, prefix_empty).
      cbn [String.length Nat.sub String.append]. rewrite replace_from_skip.
      cbn [free_of]. rewrite IH by lia. reflexivity.
    + rewrite replace_from_miss
        by (rewrite prefix_same; apply prefix_other; congruence).
      cbn [free_of]. rewrite IH by (cbn [String.length]; lia). reflexivity.
  - rewrite replace_from_copy by discriminate. reflexivity.
  - rewrite replace_from_copy by congruence. cbn [free_of].
    apply Ascii.eqb_neq in Hsep. rewrite Hsep. cbn [negb andb].
    apply IH. lia.
Qed.

(** The first replacement keeps, behind a backslash, the separators that
    are escaped. *)
Lemma first_replacement_separators (n : nat) : forall s,
  (String.length s < n)%nat ->
  separators_behind_backslash (replace_from 0 s "\\" (String byte3 EmptyString))
  = separators_escaped s.
Proof.
  induction n as [|n IH]; intros s Hlen; [lia|].
  destruct s as [|c rest]; [reflexivity|]. cbn [String.length] in Hlen.
  cbn [separators_escaped]. case_char c; cbn [Ascii.eqb Bool.eqb].
  - destruct rest as [|d rest']; [reflexivity|]. cbn [String.length] in Hlen.
    case_char d; cbn [Ascii.eqb Bool.eqb orb].
    + rewrite replace_from_hit by (now rewrite !prefix_same, prefix_empty).
      cbn [String.length Nat.sub String.append]. rewrite replace_from_skip.
      cbn [separators_behind_backslash Ascii.eqb Bool.eqb]. apply IH. lia.
    + rewrite replace_from_miss
        by (rewrite prefix_same; apply prefix_other; discriminate).
      rewrite replace_from_copy by discriminate.
      cbn [separators_behind_backslash Ascii.eqb Bool.eqb]. apply IH. lia.
    + rewrite replace_from_miss
        by (rewrite prefix_same; apply prefix_other; congruence).
      rewrite <- (IH (String d rest')) by (cbn [String.length]; lia).
      rewrite replace_from_copy by congruence.
      cbn [separators_behind_backslash Ascii.eqb Bool.eqb].
      apply Ascii.eqb_neq in Hsep. rewrite Hsep. reflexivity.
  - rewrite replace_from_copy by discriminate. reflexivity.
  - rewrite replace_from_copy by congruence.
    cbn [separators_behind_backslash].
    apply Ascii.eqb_neq in Hbs, Hsep. rewrite Hbs, Hsep. apply IH. lia.
Qed.

(** The cut of a line finds a separator when one of the line is not
    escaped, and only then. *)
Lemma Cut_finds_unescaped (line : string) :
  snd (Cut (replaceEscaping line false) keyValueSeparator)
  = negb (separators_escaped line).
Proof.
  rewrite Cut_found. f_equal.
  unfold replaceEscaping, ReplaceAll. cbn [escChar keyValueSeparator String.append].
  rewrite (second_replacement_separators
             (S (String.length (replace_from 0 line "\\" (String byte3 EmptyString)))))
    by apply Nat.lt_succ_diag_r.
  apply (first_replacement_separators (S (String.length line))).
  apply Nat.lt_succ_diag_r.
Qed.

Lemma no_separator_escaped (n : nat) : forall s,
  (String.length s < n)%nat ->
  free_of is_separator s = true -> separators_escaped s = true.
Proof.
  unfold is_separator.
  induction n as [|n IH]; intros s Hlen H; [lia|].
  destruct s as [|c rest]; [reflexivity|]. cbn [String.length] in Hlen.
  cbn [free_of] in H. apply andb_prop in H as [Hc Hrest].
  apply negb_true_iff in Hc. cbn [separators_escaped]. rewrite Hc.
  destruct (Ascii.eqb c "\"%char); [|apply IH; [lia | exact Hrest]].
  destruct rest as [|d rest']; [reflexivity|]. cbn [String.length] in Hlen.
  pose proof Hrest as Hrest'. cbn [free_of] in Hrest'.
  apply andb_prop in Hrest' as [_ Hrest'].
  destruct (Ascii.eqb d "\"%char || Ascii.eqb d ":"%char);
    apply IH; try assumption; cbn [String.length]; lia.
Qed.

(** X18.  The loop looks a key up in the form the forward pass gives it
    (escaped backslashes as byte 3, escaped separators as byte 2), before
    the backward pass.  After any lines that are read without error, a
    line whose key in that form is the compared key of one of them ends
    the parsing with the error for duplicated keys, which names the key
    in that form: the attributes set so far stay set and the lines after
    it are not looked at.  A line whose compared key is new is not
    refused as a duplicate: its attribute is set (if key and value are
    not empty), also when the key it sets has been set before, as with
    the keys [a\b] and [a\\b], which both set the key [a\b].  On lines
    written with [escape] from keys without the bytes 2 and 3, the
    compared keys are equal exactly when the keys are. *)
Theorem ReadNodeAttributes_rejects_duplicate_key
    (lines : list string) (written : list (string * string))
    (line : string) (rest : list string) (k v : string)
    (Hread : ReadNodeAttributes lines = (written, None))
    (Hcut : Cut (replaceEscaping line false) keyValueSeparator = (k, v, true)) :
  (In k (map compared_key lines) ->
   ReadNodeAttributes (lines ++ line :: rest) = (written, Some (errDuplicated k))) /\
  (~ In k (map compared_key lines) ->
   replaceEscaping k true <> EmptyString ->
   replaceEscaping v true <> EmptyString ->
   ReadNodeAttributes (lines ++ [line])
   = (written ++ [(replaceEscaping k true, replaceEscaping v true)], None)) /\
  ReadNodeAttributes ["a\b:1"; "a\\b:2"]%string
  = ([("a\b", "1"); ("a\b", "2")]%string, None) /\
  (forall kvs key value,
      lines = map line_of kvs ->
      line = line_of (key, value) ->
      Forall (fun s => free_of is_control s = true) (map fst kvs) ->
      free_of is_control key = true ->
      (In k (map compared_key lines) <-> In key (map fst kvs))).
Proof.
  unfold ReadNodeAttributes in *.
  split; [|split; [|split]].
  - intros Hin. rewrite (read_lines_prefix lines [] [] written _ Hread).
    cbn [read_lines]. rewrite Hcut.
    replace (existsb (String.eqb k) (rev (map compared_key lines) ++ [])) with true;
      [reflexivity|].
    symmetry. apply existsb_eqb_In. rewrite app_nil_r. now apply in_rev in Hin.
  - intros Hnew Hk Hv. rewrite (read_lines_prefix lines [] [] written _ Hread).
    cbn [read_lines]. rewrite Hcut.
    replace (existsb (String.eqb k) (rev (map compared_key lines) ++ [])) with false.
    + apply String.eqb_neq in Hk, Hv. rewrite Hk, Hv. reflexivity.
    + symmetry. apply not_true_is_false. intros Hex.
      apply existsb_eqb_In in Hex. rewrite app_nil_r in Hex.
      apply Hnew. now apply in_rev.
  - reflexivity.
  - intros kvs key value -> -> Hkeys Hkey.
    rewrite replaceEscaping_line, Cut_coded in Hcut. cbn [fst snd] in Hcut.
    injection Hcut as <- _.
    rewrite map_map.
    rewrite (map_ext _ (fun kv => coded (fst kv)) compared_key_line_of).
    rewrite <- (map_map fst coded). rewrite in_map_iff. split.
    + intros (x & Heq & Hin).
      rewrite Forall_forall in Hkeys.
      now rewrite <- (coded_injective x key (Hkeys x Hin) Hkey Heq).
    + intros Hin. exists key. split; [reflexivity | exact Hin].
Qed.

Lemma ReadNodeAttributes_rejects_duplicate_key_sample :
  ReadNodeAttributes ["a\:b:1"; "c:2"; "a\:b:3"; "d:4"]%string =
  ([("a:b", "1"); ("c", "2")]%string,
   Some (errDuplicated (String "a" (String byte2 "b")))).
Proof.
  apply (proj1 (ReadNodeAttributes_rejects_duplicate_key
                  ["a\:b:1"; "c:2"]%string [("a:b", "1"); ("c", "2")]%string
                  "a\:b:3" ["d:4"]%string (String "a" (String byte2 "b")) "3"
                  eq_refl eq_refl)).
  left. reflexivity.
Defined.

(** X19.  After any lines that are read without error, a line in which
    every separator is escaped (in particular a line without any
    separator) ends the parsing with the error for a missing key or
    value, and the attributes set so far stay set; a line with a
    separator that is not escaped does not end it with that error.  A
    separator is escaped when the backslash before it is not itself the
    second of an escaped backslash; a backslash before any other byte,
    or at the end of the line, stands for itself. *)
Theorem ReadNodeAttributes_rejects_line_without_separator
    (lines : list string) (written : list (string * string))
    (line : string) (rest : list string)
    (Hread : ReadNodeAttributes lines = (written, None)) :
  (separators_escaped line = true ->
   ReadNodeAttributes (lines ++ line :: rest) = (written, Some errMissing)) /\
  (free_of is_separator line = true ->
   ReadNodeAttributes (lines ++ line :: rest) = (written, Some errMissing)) /\
  (separators_escaped line = false ->
   forall set, ReadNodeAttributes (lines ++ [line]) <> (set, Some errMissing)).
Proof.
  unfold ReadNodeAttributes in *.
  pose proof (Cut_finds_unescaped line) as Hfound.
  assert (Hmissing : separators_escaped line = true ->
                     read_lines (lines ++ line :: rest) [] []
                     = (written, Some errMissing)).
  { intros Hesc. rewrite (read_lines_prefix lines [] [] written _ Hread).
    cbn [read_lines]. rewrite Hesc in Hfound.
    destruct (Cut (replaceEscaping line false) keyValueSeparator) as [[k v] found].
    cbn [snd negb] in Hfound. now rewrite Hfound. }
  split; [exact Hmissing|]. split.
  - intros Hnone. apply Hmissing.
    apply (no_separator_escaped (S (String.length line))); [lia | exact Hnone].
  - intros Hbare set. rewrite (read_lines_prefix lines [] [] written _ Hread).
    cbn [read_lines]. rewrite Hbare in Hfound.
    destruct (Cut (replaceEscaping line false) keyValueSeparator) as [[k v] found].
    cbn [snd negb] in Hfound. rewrite Hfound.
    destruct (existsb (String.eqb k) _); [discriminate|].
    destruct (String.eqb (replaceEscaping k true) EmptyString); [discriminate|].
    destruct (String.eqb (replaceEscaping v true) EmptyString); discriminate.
Qed.

Lemma ReadNodeAttributes_rejects_line_without_separator_sample :
  ReadNodeAttributes ["k:v"; "Country\:Code"; "x:y"]%string
  = ([("k", "v")]%string, Some errMissing) /\
  ReadNodeAttributes ["k:v"; "a\b"; "x:y"]%string
  = ([("k", "v")]%string, Some errMissing) /\
  ReadNodeAttributes ["k:v"; "end\"; "x:y"]%string
  = ([("k", "v")]%string, Some errMissing).
Proof.
  split; [|split].
  - exact (proj1 (ReadNodeAttributes_rejects_line_without_separator
                    ["k:v"]%string [("k", "v")]%string "Country\:Code" ["x:y"]%string
                    eq_refl) eq_refl).
  - exact (proj1 (ReadNodeAttributes_rejects_line_without_separator
                    ["k:v"]%string [("k", "v")]%string "a\b" ["x:y"]%string
                    eq_refl) eq_refl).
  - exact (proj1 (proj2 (ReadNodeAttributes_rejects_line_without_separator
                           ["k:v"]%string [("k", "v")]%string "end\" ["x:y"]%string
                           eq_refl)) eq_refl).
Defined.





Lemma replace_from_absent (a : ascii) (old' new s : string) :
  free_of (fun c => Ascii.eqb c a) s = true ->
  replace_from 0 s (String a old') new = s.
Proof.
  induction s as [|c s IH]; [reflexivity|]. cbn [free_of]. intros H.
  apply andb_prop in H as [Hc Hs]. apply negb_true_iff, Ascii.eqb_neq in Hc.
  rewrite replace_from_copy by congruence. now rewrite IH.
Qed.

Lemma free_of_control (s : string) :
  free_of is_control s = true ->
  free_of (fun c => Ascii.eqb c byte2) s = true /\
  free_of (fun c => Ascii.eqb c byte3) s = true.
Proof.
  induction s as [|c s IH]; [now split|]. cbn [free_of]. intros H.
  apply andb_prop in H as [Hc Hs]. destruct (IH Hs) as [IH2 IH3].
  unfold is_control in Hc. apply negb_true_iff, orb_false_elim in Hc as [H2 H3].
  rewrite H2, H3, IH2, IH3. now split.
Qed.

Lemma replaceEscaping_back_plain (s : string) :
  free_of is_control s = true -> replaceEscaping s true = s.
Proof.
  intros H. destruct (free_of_control s H) as [H2 H3].
  unfold replaceEscaping, ReplaceAll.
  now rewrite (replace_from_absent byte3) by exact H3; rewrite (replace_from_absent byte2).
Qed.

(** X21.  Only the first unescaped separator of a line splits it: a value
    without backslashes and without the bytes 2 and 3 is read as it
    stands, separators included and without any escaping. *)
Theorem ReadNodeAttributes_value_keeps_separators (k v : string)
    (Hk : plain k = true) (Hv : plain v = true)
    (Hraw : free_of is_backslash v = true) :
  ReadNodeAttributes [String.append (escape k) (String ":"%char v)] = ([(k, v)], None).
Proof.
  destruct (plain_parts k Hk) as [Hkne Hkfree].
  destruct (plain_parts v Hv) as [Hvne Hvfree].
  assert (Hline : replaceEscaping (String.append (escape k) (String ":"%char v)) false
                  = String.append (coded k) (String ":"%char v)).
  { unfold replaceEscaping, ReplaceAll. cbn [escChar keyValueSeparator String.append].
    rewrite forward_first, replace_from_copy by discriminate.
    rewrite (replace_from_absent "\"%char _ _ v Hraw).
    rewrite forward_second, replace_from_copy by discriminate.
    now rewrite (replace_from_absent "\"%char _ _ v Hraw). }
  unfold ReadNodeAttributes. cbn [read_lines]. rewrite Hline, Cut_coded.
  cbn [existsb]. rewrite replaceEscaping_coded by exact Hkfree.
  rewrite replaceEscaping_back_plain by exact Hvfree.
  apply String.eqb_neq in Hkne, Hvne. now rewrite Hkne, Hvne.
Qed.

Lemma ReadNodeAttributes_value_keeps_separators_sample :
  ReadNodeAttributes ["UN-LOCODE:RU:MOW:x"]%string =
  ([("UN-LOCODE", "RU:MOW:x")]%string, None).
Proof.
  apply (ReadNodeAttributes_value_keeps_separators "UN-LOCODE" "RU:MOW:x");
    reflexivity.
Defined.

(** * Setting policy parameters *)

Import morph.

Lemma digit_range (c : ascii) (d : Z) : digit c = Some d -> 0 <= d <= 9.
Proof.
  unfold digit. destruct (_ && _) eqn:H; [|discriminate].
  intros [= <-]. apply andb_prop in H as [H1 H2]. lia.
Qed.

Lemma value_from_grows (s : string) : forall n, 0 <= n -> n <= value_from n s.
Proof.
  induction s as [|c s IH]; intros n Hn; cbn [value_from]; [lia|].
  destruct (digit c) as [d|] eqn:Hd; [|lia].
  pose proof (digit_range c d Hd). specialize (IH (10 * n + d) ltac:(lia)). lia.
Qed.

(** What the loop of [ParseUint] computes on decimal digits, from an
    accumulator that fits 32 bits. *)
Lemma parse_digits_spec (s : string) : forall n,
  0 <= n <= maxVal ->
  all_digits s = true ->
  parse_digits s n =
  if value_from n s <=? maxVal then (value_from n s, None)
  else (maxVal, Some ErrRange).
Proof.
  unfold maxVal.
  induction s as [|c s IH]; intros n Hn Hall;
    cbn [parse_digits all_digits value_from] in *.
  - assert (H : (n <=? 2 ^ 32 - 1) = true) by (apply Z.leb_le; lia).
    now rewrite H.
  - destruct (digit c) as [d|] eqn:Hd; [|discriminate].
    pose proof (digit_range c d Hd) as Hdr.
    assert (Hcut : (n >=? cutoff) = false).
    { unfold cutoff. rewrite Z.geb_leb. apply Z.leb_gt.
      assert (2 ^ 32 - 1 < (2 ^ 64 - 1) / 10 + 1) by (vm_compute; reflexivity). lia. }
    rewrite Hcut.
    assert (H10 : uint64 (n * 10) = n * 10).
    { unfold uint64. apply Z.mod_small.
      assert (10 * (2 ^ 32 - 1) < 2 ^ 64) by (vm_compute; reflexivity). lia. }
    assert (H1 : uint64 (n * 10 + d) = n * 10 + d).
    { unfold uint64. apply Z.mod_small.
      assert (10 * (2 ^ 32 - 1) + 9 < 2 ^ 64) by (vm_compute; reflexivity). lia. }
    rewrite H10, H1.
    assert (Hlt : (n * 10 + d <? n * 10) = false) by (apply Z.ltb_ge; lia).
    rewrite Hlt. cbn [orb]. unfold maxVal.
    replace (10 * n + d) with (n * 10 + d) by lia.
    destruct (n * 10 + d >? 2 ^ 32 - 1) eqn:Hgt.
    + rewrite Z.gtb_ltb in Hgt. apply Z.ltb_lt in Hgt.
      pose proof (value_from_grows s (n * 10 + d) ltac:(lia)) as Hg.
      assert (Hle : (value_from (n * 10 + d) s <=? 2 ^ 32 - 1) = false)
        by (apply Z.leb_gt; lia).
      now rewrite Hle.
    + assert (Hfit : 0 <= n * 10 + d <= 2 ^ 32 - 1).
      { split; [lia|]. rewrite Z.gtb_ltb in Hgt. apply Z.ltb_ge in Hgt. lia. }
      apply (IH _ Hfit Hall).
Qed.

Lemma parse_digits_non_digit (s : string) : forall n,
  all_digits s = false -> snd (parse_digits s n) <> None.
Proof.
  induction s as [|c s IH]; intros n H; cbn [all_digits parse_digits] in *;
    [discriminate|].
  destruct (digit c) as [d|]; [|discriminate].
  destruct (n >=? cutoff); [discriminate|].
  destruct (_ || _); [discriminate|]. now apply IH.
Qed.

(** [ParseUint] accepts exactly the accepted values, with their decimal
    value. *)
Lemma ParseUint_accepts (v : string) :
  (accepted_value v = true -> ParseUint v = (decimal_value v, None)) /\
  (accepted_value v = false -> snd (ParseUint v) <> None).
Proof.
  unfold accepted_value, decimal_value, ParseUint.
  destruct v as [|c v]; [split; [discriminate | intros _; discriminate]|].
  cbn [String.eqb negb andb].
  assert (H0 : 0 <= 0 <= maxVal) by (unfold maxVal; lia).
  destruct (all_digits (String c v)) eqn:Hd; cbn [andb].
  - pose proof (parse_digits_spec (String c v) 0 H0 Hd) as Hspec.
    split; intros H; rewrite Hspec, H; [reflexivity | discriminate].
  - split; [discriminate|]. intros _. now apply parse_digits_non_digit.
Qed.

Lemma accepted_value_fits (v : string) :
  accepted_value v = true ->
  0 <= decimal_value v < 2 ^ 32 /\ int64 (decimal_value v) = decimal_value v.
Proof.
  unfold accepted_value. intros H. apply andb_prop in H as [_ Hle].
  apply Z.leb_le in Hle. unfold maxVal in Hle.
  pose proof (value_from_grows v 0 ltac:(lia)) as Hge. fold (decimal_value v) in Hge.
  split; [lia|]. unfold int64.
  assert (2 ^ 32 < 2 ^ 63) by (vm_compute; reflexivity).
  assert (2 ^ 64 = 2 * 2 ^ 63) by (vm_compute; reflexivity).
  rewrite Z.mod_small by lia. lia.
Qed.

Lemma policy_loop_valid (all args : list string) : forall script,
  forallb valid_arg args = true ->
  policy_loop all args script = inl (script ++ calls_of args).
Proof.
  induction args as [|arg args IH]; intros script H; cbn [policy_loop calls_of].
  - now rewrite app_nil_r.
  - cbn [forallb] in H. apply andb_prop in H as [Harg Hrest].
    unfold valid_arg, parsed_arg in *.
    destruct (attributes.Cut arg "=") as [[k v] [|]]; [|discriminate].
    destruct (is_policy_param k); [|discriminate]. cbn [negb].
    destruct (ParseUint v) as [value [e|]]; [discriminate|].
    rewrite (IH _ Hrest), <- app_assoc. reflexivity.
Qed.

Lemma policy_loop_invalid (all args : list string) : forall script,
  forallb valid_arg args = false ->
  exists r, policy_loop all args script = inr r.
Proof.
  induction args as [|arg args IH]; intros script H; cbn [policy_loop forallb] in *;
    [discriminate|].
  unfold valid_arg, parsed_arg in H.
  destruct (attributes.Cut arg "=") as [[k v] [|]]; [|eexists; reflexivity].
  destruct (is_policy_param k); cbn [negb]; [|eexists; reflexivity].
  destruct (ParseUint v) as [value [e|]].
  - destruct (nth_error all 1); eexists; reflexivity.
  - cbn [andb] in H. apply (IH _ H).
Qed.

Lemma calls_of_length (args : list string) :
  forallb valid_arg args = true -> List.length (calls_of args) = List.length args.
Proof.
  induction args as [|arg args IH]; intros H; [reflexivity|].
  cbn [forallb] in H. apply andb_prop in H as [Harg Hrest].
  cbn [calls_of]. unfold valid_arg in Harg.
  destruct (parsed_arg arg); [|discriminate]. cbn [List.length]. now rewrite IH.
Qed.

(** X22.  [setPolicyCmd] checks every argument before it sends anything:
    a script is sent at most once, and only when the initialization
    succeeded and every argument is [Parameter=Value] with one of the three
    policy parameters and a value that parses; the script then holds one
    call per argument, in order.  The transaction is awaited only after a
    script has been sent without error.  With valid arguments the result
    is the error of sending, and else that of awaiting. *)
Theorem setPolicyCmd_validates_before_sending
    (initialized : option string) (sendCommitteeTx : list AppCall -> option string)
    (awaitTx : option string) (args : list string) :
  let run := setPolicyCmd initialized sendCommitteeTx awaitTx args in
  (List.length (filter is_send (snd run)) <= 1)%nat /\
  (forall script,
      In (SendCommitteeTx script) (snd run) ->
      initialized = None /\ forallb valid_arg args = true /\
      script = calls_of args /\ List.length script = List.length args) /\
  (In AwaitTx (snd run) -> sendCommitteeTx (calls_of args) = None) /\
  (initialized = None -> forallb valid_arg args = true ->
   run = match sendCommitteeTx (calls_of args) with
         | Some e =>
             (Return (Some (errContext e)), [SendCommitteeTx (calls_of args)])
         | None =>
             (Return (option_map errContext awaitTx),
              [SendCommitteeTx (calls_of args); AwaitTx])
         end).
Proof.
  intros run. subst run. unfold setPolicyCmd.
  destruct initialized as [e0|].
  { cbn. repeat split; try lia; try contradiction; discriminate. }
  destruct (forallb valid_arg args) eqn:Hvalid.
  - rewrite (policy_loop_valid args args [] Hvalid). cbn [app].
    pose proof (calls_of_length args Hvalid) as Hlen.
    destruct (sendCommitteeTx (calls_of args)) as [e|] eqn:Hsend; cbn [snd fst].
    + repeat split; try (cbn; lia); try reflexivity.
      * destruct H as [[= <-] | []]. reflexivity.
      * destruct H as [[= <-] | []]. exact Hlen.
      * intros [H | []]. discriminate H.
    + repeat split; try (cbn; lia); try reflexivity.
      * destruct H as [[= <-] | [H | []]]; [reflexivity | discriminate H].
      * destruct H as [[= <-] | [H | []]]; [exact Hlen | discriminate H].
  - destruct (policy_loop_invalid args args [] Hvalid) as [r Hr]. rewrite Hr.
    cbn [snd fst filter List.length In].
    repeat split; try lia; try contradiction; discriminate.
Qed.

Lemma setPolicyCmd_validates_before_sending_sample :
  setPolicyCmd None (fun _ => None) None ["ExecFeeFactor=30"; "FeePerByte=1000"]%string =
    (Return None,
     [SendCommitteeTx [("setExecFeeFactor", 30); ("setFeePerByte", 1000)]%string;
      AwaitTx]) /\
  setPolicyCmd None (fun _ => None) None [] = (Return None, [SendCommitteeTx []; AwaitTx]).
Proof.
  split.
  - destruct (setPolicyCmd_validates_before_sending None (fun _ => None) None
                ["ExecFeeFactor=30"; "FeePerByte=1000"]%string) as (_ & _ & _ & H).
    rewrite (H eq_refl eq_refl). reflexivity.
  - destruct (setPolicyCmd_validates_before_sending None (fun _ => None) None [])
      as (_ & _ & _ & H).
    rewrite (H eq_refl eq_refl). reflexivity.
Defined.

(** X23.  When the value of an argument does not parse (after arguments
    that pass the checks), nothing is sent.  The error message quotes the
    second argument of the command, whichever argument failed; and when
    the command has a single argument, building the message panics with an
    index out of range. *)
Theorem setPolicyCmd_unparsable_value
    (sendCommitteeTx : list AppCall -> option string) (awaitTx : option string)
    (pre post : list string) (arg k v : string) (x : Z) (e : NumError)
    (Hpre : forallb valid_arg pre = true)
    (Hcut : attributes.Cut arg "=" = (k, v, true))
    (Hparam : is_policy_param k = true)
    (Hvalue : ParseUint v = (x, Some e)) :
  let args := pre ++ arg :: post in
  let run := setPolicyCmd None sendCommitteeTx awaitTx args in
  snd run = [] /\
  (forall quoted, nth_error args 1 = Some quoted ->
                  fst run = Return (Some (errValue quoted e))) /\
  (List.length args = 1%nat -> fst run = PanicIndexOutOfRange).
Proof.
  intros args run.
  assert (Hloop : forall all script,
             policy_loop all (pre ++ arg :: post) script =
             match nth_error all 1 with
             | Some quoted => inr (Return (Some (errValue quoted e)))
             | None => inr PanicIndexOutOfRange
             end).
  { intros all. clear args run. induction pre as [|p pre IH]; intros script.
    - cbn [app policy_loop]. rewrite Hcut, Hparam, Hvalue. reflexivity.
    - cbn [forallb] in Hpre. apply andb_prop in Hpre as [Hp Hrest].
      cbn [app policy_loop]. unfold valid_arg, parsed_arg in Hp.
      destruct (attributes.Cut p "=") as [[k' v'] [|]]; [|discriminate].
      destruct (is_policy_param k'); [|discriminate]. cbn [negb].
      destruct (ParseUint v') as [value [e'|]]; [discriminate|].
      apply (IH Hrest). }
  subst run args. unfold setPolicyCmd. rewrite Hloop.
  destruct (nth_error (pre ++ arg :: post) 1) as [quoted|] eqn:Hnth; cbn [fst snd].
  - repeat split.
    + intros q [= <-]. reflexivity.
    + intros Hlen.
      assert (Hsome : nth_error (pre ++ arg :: post) 1 <> None) by congruence.
      apply nth_error_Some in Hsome. lia.
  - repeat split. discriminate.
Qed.

Lemma setPolicyCmd_unparsable_value_sample :
  setPolicyCmd None (fun _ => None) None ["StoragePrice=-5"]%string =
    (PanicIndexOutOfRange, []) /\
  setPolicyCmd None (fun _ => None) None
    ["ExecFeeFactor=30"; "FeePerByte=1000"; "StoragePrice=4294967296"]%string =
    (Return (Some (errValue "FeePerByte=1000" ErrRange)), []).
Proof.
  split.
  - destruct (setPolicyCmd_unparsable_value (fun _ => None) None [] []
                "StoragePrice=-5" "StoragePrice" "-5" 0 ErrSyntax
                eq_refl eq_refl eq_refl eq_refl) as (Hev & _ & Hpanic).
    cbn [app] in Hev, Hpanic. specialize (Hpanic eq_refl).
    destruct (setPolicyCmd _ _ _ _) as [r evs]. cbn [fst snd] in *. now subst.
  - destruct (setPolicyCmd_unparsable_value (fun _ => None) None
                ["ExecFeeFactor=30"; "FeePerByte=1000"]%string []
                "StoragePrice=4294967296" "StoragePrice" "4294967296"
                4294967295 ErrRange eq_refl eq_refl eq_refl eq_refl)
      as (Hev & Hquote & _).
    cbn [app] in Hev, Hquote. specialize (Hquote "FeePerByte=1000"%string eq_refl).
    destruct (setPolicyCmd _ _ _ _) as [r evs]. cbn [fst snd] in *. now subst.
Defined.

Lemma Cut_at_first (a : ascii) (k v : string) :
  attributes.free_of (fun c => Ascii.eqb c a) k = true ->
  attributes.Cut (String.append k (String a v)) (String a EmptyString) = (k, v, true).
Proof.
  induction k as [|c k IH]; cbn [attributes.free_of String.append attributes.Cut].
  - intros _. now rewrite prefix_same, prefix_empty.
  - intros H. apply andb_prop in H as [Hc Hk].
    apply negb_true_iff, Ascii.eqb_neq in Hc.
    rewrite prefix_other by congruence. now rewrite (IH Hk).
Qed.

(** X24.  For each of the three policy parameters, [Parameter=Value] is
    accepted exactly when the value is a non-empty text of decimal digits
    worth at most [2^32 - 1]; the call added to the script is then
    ["set" + Parameter] with that value, which is below [2^32]. *)
Theorem setPolicyCmd_accepts_decimal_uint32 (k v : string)
    (Hparam : is_policy_param k = true) :
  parsed_arg (String.append k (String "="%char v)) =
    (if accepted_value v
     then Some (String.append "set" k, decimal_value v)
     else None) /\
  (accepted_value v = true -> 0 <= decimal_value v < 2 ^ 32).
Proof.
  assert (Hcut : attributes.Cut (String.append k (String "="%char v)) "=" = (k, v, true)).
  { unfold is_policy_param in Hparam.
    apply orb_prop in Hparam as [Hparam | Hparam];
      [apply orb_prop in Hparam as [Hparam | Hparam]|];
      apply String.eqb_eq in Hparam; subst k; now apply Cut_at_first. }
  split.
  - unfold parsed_arg. rewrite Hcut, Hparam.
    destruct (ParseUint_accepts v) as [Hyes Hno].
    destruct (accepted_value v) eqn:Hacc.
    + rewrite (Hyes eq_refl).
      now destruct (accepted_value_fits v Hacc) as [_ ->].
    + specialize (Hno eq_refl). destruct (ParseUint v) as [x [e|]];
        [reflexivity | now contradiction Hno].
  - intros Hacc. now destruct (accepted_value_fits v Hacc).
Qed.

Lemma setPolicyCmd_accepts_decimal_uint32_sample :
  parsed_arg "FeePerByte=4294967295" = Some ("setFeePerByte"%string, 4294967295) /\
  parsed_arg "FeePerByte=4294967296" = None /\
  parsed_arg "FeePerByte=+1" = None.
Proof.
  split; [|split].
  - destruct (setPolicyCmd_accepts_decimal_uint32 "FeePerByte" "4294967295" eq_refl)
      as [H _]. exact H.
  - destruct (setPolicyCmd_accepts_decimal_uint32 "FeePerByte" "4294967296" eq_refl)
      as [H _]. exact H.
  - destruct (setPolicyCmd_accepts_decimal_uint32 "FeePerByte" "+1" eq_refl)
      as [H _]. exact H.
Defined.

(** * Reading a configuration directory *)

Import config.

(** X25.  [mergeConfig] closes the file exactly when it has opened it, also
    when merging fails.  An error of opening or merging is the result; the
    error of closing is the result only when opening and merging
    succeeded, and is dropped otherwise. *)
Theorem mergeConfig_closes_what_it_opens (env : environment) (fileName : string) :
  let run := mergeConfig env fileName in
  List.length (filter is_close_file (snd run)) =
    (match Open env fileName with None => 1 | Some _ => 0 end)%nat /\
  (forall e, Open env fileName = Some e -> run = (Some e, [EvOpen fileName])) /\
  (forall e, Open env fileName = None -> MergeConfig env fileName = Some e ->
             run = (Some e, merged fileName)) /\
  (Open env fileName = None -> MergeConfig env fileName = None ->
   run = (Close env fileName, merged fileName)).
Proof.
  intros run. subst run. unfold mergeConfig, merged.
  destruct (Open env fileName) as [e1|]; cbn [snd].
  - repeat split; try discriminate. intros e [= <-]. reflexivity.
  - destruct (MergeConfig env fileName) as [e2|]; cbn [snd].
    + split; [reflexivity|]. split; [discriminate|]. split; [|discriminate].
      intros e _ [= <-]. reflexivity.
    + split; [reflexivity|]. split; [discriminate|]. split; [discriminate|].
      reflexivity.
Qed.

Lemma merge_entries_skips (env : environment) (configDir : string)
    (entry : DirEntry) (rest : list DirEntry) :
  is_config_file entry = false ->
  merge_entries env configDir (entry :: rest) = merge_entries env configDir rest.
Proof.
  unfold is_config_file. cbn [merge_entries]. destruct (IsDir entry); [reflexivity|].
  cbn [negb andb]. intros H. apply orb_false_elim in H as [H1 H2].
  now rewrite H1, H2.
Qed.

Lemma merge_entries_takes (env : environment) (configDir : string)
    (entry : DirEntry) (rest : list DirEntry) :
  is_config_file entry = true ->
  merge_entries env configDir (entry :: rest) =
  match mergeConfig env (Join env configDir (Name entry)) with
  | (Some err, events) => (Some err, events)
  | (None, events) =>
      let '(err, more) := merge_entries env configDir rest in (err, events ++ more)
  end.
Proof.
  unfold is_config_file. cbn [merge_entries]. destruct (IsDir entry); [discriminate|].
  cbn [negb andb]. intros H.
  destruct (String.eqb (Ext (Name entry)) ".yaml"); [reflexivity|].
  cbn [orb] in H. now rewrite H.
Qed.

Lemma mergeConfig_ok (env : environment) (fileName : string) :
  file_ok env fileName -> mergeConfig env fileName = (None, merged fileName).
Proof. intros (H1 & H2 & H3). unfold mergeConfig. now rewrite H1, H2, H3. Qed.

Lemma merge_entries_ok (env : environment) (configDir : string)
    (before : list DirEntry) : forall after,
  Forall (file_ok env) (config_files env configDir before) ->
  merge_entries env configDir (before ++ after) =
  (fst (merge_entries env configDir after),
   flat_map merged (config_files env configDir before)
     ++ snd (merge_entries env configDir after)).
Proof.
  induction before as [|entry before IH]; intros after Hok.
  - cbn. now destruct (merge_entries env configDir after).
  - cbn [app]. unfold config_files in *. cbn [filter] in *.
    destruct (is_config_file entry) eqn:Hsel.
    + cbn [map flat_map] in *. inversion Hok as [|f fs Hf Hfs]; subst.
      rewrite merge_entries_takes by exact Hsel.
      rewrite (mergeConfig_ok _ _ Hf), (IH after Hfs). cbn [fst snd].
      now rewrite <- app_assoc.
    + rewrite merge_entries_skips by exact Hsel. apply (IH after Hok).
Qed.

(** X26.  [ReadConfigDir] returns the error of reading the directory
    without touching a file.  Otherwise it merges the entries that are not
    directories and whose extension is [.yaml] or [.yml], in the order of
    the entries, each opened, merged and closed before the next; it stops
    at the first of them that fails, returns its error, and opens none of
    the entries after it.  When none fails the result is [nil]. *)
Theorem ReadConfigDir_merges_config_files_in_order
    (env : environment) (configDir : string) :
  (forall entries e,
      ReadDir env configDir = (entries, Some e) ->
      ReadConfigDir env configDir = (Some e, [])) /\
  (forall entries,
      ReadDir env configDir = (entries, None) ->
      Forall (file_ok env) (config_files env configDir entries) ->
      ReadConfigDir env configDir =
      (None, flat_map merged (config_files env configDir entries))) /\
  (forall before entry after e events,
      ReadDir env configDir = (before ++ entry :: after, None) ->
      Forall (file_ok env) (config_files env configDir before) ->
      is_config_file entry = true ->
      mergeConfig env (Join env configDir (Name entry)) = (Some e, events) ->
      ReadConfigDir env configDir =
      (Some e, flat_map merged (config_files env configDir before) ++ events)).
Proof.
  unfold ReadConfigDir. repeat split.
  - intros entries e ->. reflexivity.
  - intros entries -> Hok.
    rewrite <- (app_nil_r entries) at 1.
    rewrite (merge_entries_ok env configDir entries [] Hok). cbn.
    now rewrite app_nil_r.
  - intros before entry after e events -> Hok Hsel Hfail.
    rewrite (merge_entries_ok env configDir before (entry :: after) Hok).
    rewrite merge_entries_takes by exact Hsel. rewrite Hfail. reflexivity.
Qed.

Lemma mergeConfig_closes_what_it_opens_sample :
  mergeConfig (sample_env "etc/b.yml") "etc/b.yml" =
  (Some "malformed"%string, merged "etc/b.yml").
Proof.
  destruct (mergeConfig_closes_what_it_opens (sample_env "etc/b.yml") "etc/b.yml")
    as (_ & _ & H & _).
  apply (H "malformed"%string); reflexivity.
Defined.

Lemma ReadConfigDir_merges_config_files_in_order_sample :
  ReadConfigDir (sample_env "none") "etc" =
    (None, merged "etc/a.yaml" ++ merged "etc/b.yml" ++ merged "etc/c.yaml") /\
  ReadConfigDir (sample_env "etc/b.yml") "etc" =
    (Some "malformed"%string, merged "etc/a.yaml" ++ merged "etc/b.yml").
Proof.
  split.
  - destruct (ReadConfigDir_merges_config_files_in_order (sample_env "none") "etc")
      as (_ & H & _).
    rewrite (H _ eq_refl); [reflexivity|].
    repeat (apply Forall_cons; [repeat split|]). apply Forall_nil.
  - destruct (ReadConfigDir_merges_config_files_in_order
                (sample_env "etc/b.yml") "etc") as (_ & _ & H).
    rewrite (H [mkEntry "conf.d" true; mkEntry "a.yaml" false;
                mkEntry "notes.txt" false]
               (mkEntry "b.yml" false) [mkEntry "c.yaml" false]
               "malformed"%string (merged "etc/b.yml") eq_refl);
      try reflexivity.
    repeat (apply Forall_cons; [repeat split|]). apply Forall_nil.
Defined.

Lemma Ext_is_suffix (p : string) : forall e,
  Ext p = e -> e <> EmptyString -> exists pre, p = String.append pre e.
Proof.
  induction p as [|c rest IH]; intros e He Hne; cbn [Ext] in He.
  - now subst.
  - destruct (has_slash rest).
    { destruct (IH e He Hne) as [pre ->]. now exists (String c pre). }
    destruct (String.eqb (Ext rest) EmptyString) eqn:Hr; cbn [negb] in He.
    + destruct (Ascii.eqb c "."%char); [|now subst].
      exists EmptyString. now subst.
    + destruct (IH e He Hne) as [pre ->]. now exists (String c pre).
Qed.

Lemma Ext_of_suffix (e : string) :
  Ext e = e -> e <> EmptyString -> forall pre, Ext (String.append pre e) = e.
Proof.
  intros He Hne. induction pre as [|c pre IH]; [exact He|].
  cbn [String.append Ext]. rewrite IH.
  destruct (has_slash (String.append pre e)); [reflexivity|].
  apply String.eqb_neq in Hne. now rewrite Hne.
Qed.

(** X27.  The entries that [ReadConfigDir] merges are exactly those that
    are not directories and whose name ends in [.yaml] or in [.yml]
    (lower case, and the bare names [.yaml] and [.yml] included). *)
Theorem ReadConfigDir_selects_by_suffix (entry : DirEntry) :
  is_config_file entry = true <->
  IsDir entry = false /\
  exists pre, Name entry = String.append pre ".yaml" \/
              Name entry = String.append pre ".yml".
Proof.
  unfold is_config_file. split.
  - intros H. apply andb_prop in H as [Hdir Hext].
    apply negb_true_iff in Hdir. split; [exact Hdir|].
    apply orb_prop in Hext as [Hext | Hext]; apply String.eqb_eq in Hext;
      destruct (Ext_is_suffix _ _ Hext ltac:(discriminate)) as [pre Hpre];
      exists pre; [now left | now right].
  - intros [Hdir [pre [Hname | Hname]]]; rewrite Hdir, Hname; cbn [negb andb].
    + now rewrite (Ext_of_suffix ".yaml" eq_refl ltac:(discriminate) pre).
    + rewrite (Ext_of_suffix ".yml" eq_refl ltac:(discriminate) pre).
      reflexivity.
Qed.

Lemma ReadConfigDir_selects_by_suffix_sample :
  is_config_file (mkEntry "node.v2.yaml" false) = true /\
  is_config_file (mkEntry "node.YAML" false) = false.
Proof.
  split.
  - apply (ReadConfigDir_selects_by_suffix (mkEntry "node.v2.yaml" false)).
    split; [reflexivity|]. exists "node.v2"%string. now left.
  - destruct (is_config_file (mkEntry "node.YAML" false)) eqn:H; [|reflexivity].
    apply (ReadConfigDir_selects_by_suffix (mkEntry "node.YAML" false)) in H.
    destruct H as [_ [pre [H | H]]]; cbn [Name] in H; exfalso; revert H;
      repeat (destruct pre as [|? pre]; cbn; try discriminate).
Defined.

(** * The two passes of the escaping *)

(** X28.  The two passes of [replaceEscaping] undo the escaping: a text
    without the bytes 2 and 3, escaped and run through the forward pass and
    then the backward pass, comes back as it was; and between the passes
    it holds no separator, so that [strings.Cut] cannot split inside it. *)
Theorem replaceEscaping_undoes_escape (s : string)
    (Hfree : free_of is_control s = true) :
  replaceEscaping (replaceEscaping (escape s) false) true = s /\
  Cut (replaceEscaping (escape s) false) keyValueSeparator =
    (replaceEscaping (escape s) false, EmptyString, false).
Proof.
  rewrite replaceEscaping_escape. split.
  - now apply replaceEscaping_coded.
  - apply Cut_coded_none.
Qed.

Lemma replaceEscaping_undoes_escape_sample :
  replaceEscaping (replaceEscaping "c\:\\dir\\" false) true = "c:\dir\"%string.
Proof.
  destruct (replaceEscaping_undoes_escape "c:\dir\" eq_refl) as [H _]. exact H.
Defined.

(** * The life of the notification channel *)

Lemma wait_events_are_operation_events (d : Z) (mid : list event) :
  forallb (is_wait_event d) mid = true ->
  forallb is_operation_event mid = true.
Proof.
  rewrite !forallb_forall. intros H e He. specialize (H e He).
  destruct e; try discriminate; reflexivity.
Qed.

Ltac appended :=
  cbn [sent trace fst snd app]; rewrite <- ?app_assoc;
  eexists; split; [reflexivity | reflexivity].

Lemma Wait_appends (c : Client) (fuel : nat) (ctx : Context) (n : Z) :
  appends_operation_events (Wait fuel c ctx n).
Proof.
  intros w. unfold Wait. run_op.
  destruct (inactive c); [appended|]. cbn [sent trace fst snd app].
  destruct (GetBlockCount (client c) (sent w)) as [h [e|]]; [appended|].
  cbn [sent trace fst snd app].
  destruct (Wait_loop_events c ctx h n fuel 0
              (mkWorld (S (sent w))
                 ((trace w ++ [EvRLock]) ++ [EvRequest ReqGetBlockCount])))
    as (mid & Hmid & Hall).
  apply wait_events_are_operation_events in Hall.
  destruct (Wait_loop fuel c ctx h n 0 _) as [[r|r|] w'];
    cbn [fst snd trace] in *; rewrite Hmid; cbn [trace]; rewrite <- ?app_assoc.
  - exists ([EvRLock] ++ [EvRequest ReqGetBlockCount] ++ mid ++ [EvRUnlock]).
    split; [reflexivity|]. cbn [app forallb is_operation_event andb].
    now rewrite forallb_app, Hall.
  - exists ([EvRLock] ++ [EvRequest ReqGetBlockCount] ++ mid ++ [EvRUnlock]).
    split; [reflexivity|]. cbn [app forallb is_operation_event andb].
    now rewrite forallb_app, Hall.
  - exists ([EvRLock] ++ [EvRequest ReqGetBlockCount] ++ mid).
    split; [reflexivity|]. cbn [app forallb is_operation_event andb]. exact Hall.
Qed.

Lemma operations_append (c : Client) :
  (forall contract fee method args,
      appends_operation_events (Invoke c contract fee method args)) /\
  (forall contract method args,
      appends_operation_events (TestInvoke c contract method args)) /\
  (forall receiver amount, appends_operation_events (TransferGas c receiver amount)) /\
  appends_operation_events (GasBalance c) /\
  appends_operation_events (Committee c) /\
  (forall h, appends_operation_events (TxHalt c h)) /\
  (forall h, appends_operation_events (TxHeight c h)) /\
  appends_operation_events (BlockCount c) /\
  appends_operation_events (MsPerBlock c) /\
  (forall script signers, appends_operation_events (IsValidScript c script signers)) /\
  appends_operation_events (NeoFSAlphabetList c) /\
  appends_operation_events (GetDesignateHash c) /\
  appends_operation_events (MagicNumber c).
Proof.
  repeat match goal with |- _ /\ _ => split end; intros;
    unfold appends_operation_events, Invoke, TestInvoke, TransferGas, GasBalance,
      Committee, TxHalt, TxHeight, BlockCount, MsPerBlock, IsValidScript,
      NeoFSAlphabetList, GetDesignateHash, MagicNumber;
    intros w; run_op; break_match; appended.
Qed.

Lemma unchanged_run {A} (op : M A) (c : Client) (w : world) :
  trace (snd (unchanged op c w)) = trace (snd (op w)) /\
  (forall c', fst (unchanged op c w) = Returned c' -> c' = c).
Proof.
  unfold unchanged, bind, ret. destruct (op w) as [[a|e|] w']; cbn [fst snd].
  - split; [reflexivity|]. now intros c' [= <-].
  - split; [reflexivity | discriminate].
  - split; [reflexivity | discriminate].
Qed.

Lemma perform_operation (a : action) (c : Client) (w : world) :
  is_operation a = true ->
  exists seg,
    trace (snd (perform a c w)) = trace w ++ seg /\
    forallb is_operation_event seg = true /\
    (forall c', fst (perform a c w) = Returned c' -> c' = c).
Proof.
  intros Ha.
  destruct (operations_append c)
    as (H1 & H2 & H3 & H4 & H5 & H6 & H7 & H8 & H9 & H10 & H11 & H12 & H13).
  assert (Hop : forall A (op : M A),
             appends_operation_events op ->
             exists seg,
               trace (snd (unchanged op c w)) = trace w ++ seg /\
               forallb is_operation_event seg = true /\
               (forall c', fst (unchanged op c w) = Returned c' -> c' = c)).
  { intros A op Hop. destruct (Hop w) as (seg & Hseg & Hall).
    destruct (unchanged_run op c w) as [Htr Hc].
    exists seg. rewrite Htr. auto. }
  destruct a; cbn [perform]; try discriminate; apply Hop; auto.
  apply Wait_appends.
Qed.

Lemma under_lock_app (tr1 tr2 : list event) : forall h h',
  under_lock h tr1 = Some h' ->
  under_lock h (tr1 ++ tr2) = under_lock h' tr2.
Proof.
  induction tr1 as [|e tr1 IH]; intros h h' H; cbn [app under_lock] in *.
  - now injection H as <-.
  - destruct e, h; try discriminate; now apply IH.
Qed.

Lemma operation_events_calm (seg : list event) (h : bool) :
  forallb is_operation_event seg = true ->
  count is_close seg = 0%nat /\ count is_callback seg = 0%nat /\
  under_lock h seg = Some h.
Proof.
  unfold count. induction seg as [|e seg IH]; intros H.
  - repeat split.
  - cbn [forallb] in H. apply andb_prop in H as [He H].
    destruct (IH H) as (H1 & H2 & H3).
    destruct e; try discriminate He;
      cbn [filter is_close is_callback under_lock]; auto.
Qed.

Lemma transition_events_counts (c : Client) :
  count is_close ([EvLock; EvClose] ++ callback_events c ++ [EvUnlock]) = 1%nat /\
  count is_callback ([EvLock; EvClose] ++ callback_events c ++ [EvUnlock])
  = callbacks_configured c /\
  under_lock false ([EvLock; EvClose] ++ callback_events c ++ [EvUnlock]) = Some false.
Proof.
  unfold callback_events, callbacks_configured, count.
  destruct (inactiveModeCb (cfg_ c)); repeat split.
Qed.

Lemma history_of_operations (acts : list action) : forall (c : Client) (w : world),
  forallb is_operation acts = true ->
  exists seg,
    trace (snd (run_history acts c w)) = trace w ++ seg /\
    forallb is_operation_event seg = true /\
    (forall c', fst (run_history acts c w) = Returned c' -> c' = c).
Proof.
  induction acts as [|a acts IH]; intros c w Hops.
  - exists []. cbn [run_history]. unfold ret. cbn [fst snd].
    rewrite app_nil_r. repeat split. now intros c' [= <-].
  - cbn [forallb] in Hops. apply andb_prop in Hops as [Ha Hops].
    destruct (perform_operation a c w Ha) as (seg & Hseg & Hall & Hc).
    cbn [run_history]. unfold bind.
    destruct (perform a c w) as [[c1|e|] w1]; cbn [fst snd] in *.
    + rewrite (Hc c1 eq_refl).
      destruct (IH c w1 Hops) as (seg' & Hseg' & Hall' & Hc').
      exists (seg ++ seg'). rewrite Hseg', Hseg, app_assoc.
      split; [reflexivity|]. split; [|exact Hc'].
      now rewrite forallb_app, Hall, Hall'.
    + exists seg. repeat split; auto; discriminate.
    + exists seg. repeat split; auto; discriminate.
Qed.

Lemma history_after_close (acts : list action) : forall (c : Client) (w : world),
  notifications_closed c = true ->
  exists seg,
    trace (snd (run_history acts c w)) = trace w ++ seg /\
    count is_close seg = 0%nat /\ count is_callback seg = 0%nat /\
    under_lock false seg = Some false.
Proof.
  induction acts as [|a acts IH]; intros c w Hclosed.
  - exists []. cbn [run_history]. unfold ret. cbn [snd].
    rewrite app_nil_r. repeat split.
  - cbn [run_history]. unfold bind.
    destruct (is_operation a) eqn:Ha.
    + destruct (perform_operation a c w Ha) as (seg & Hseg & Hall & Hc).
      destruct (operation_events_calm seg false Hall) as (Q1 & Q2 & Q3).
      destruct (perform a c w) as [[c1|e|] w1]; cbn [fst snd] in *.
      * rewrite (Hc c1 eq_refl).
        destruct (IH c w1 Hclosed) as (seg' & Hseg' & R1 & R2 & R3).
        exists (seg ++ seg'). rewrite Hseg', Hseg, app_assoc.
        split; [reflexivity|].
        rewrite !count_app, Q1, Q2, R1, R2, (under_lock_app _ _ _ _ Q3).
        repeat split. exact R3.
      * exists seg. auto.
      * exists seg. auto.
    + destruct a; try discriminate Ha. cbn [perform].
      rewrite (inactiveMode_again c w Hclosed). cbn [snd trace].
      exists [EvLock; EvUnlock]. repeat split.
Qed.

Lemma history_from_active (acts : list action) : forall (c : Client) (w : world),
  notifications_closed c = false ->
  (exists seg,
      trace (snd (run_history acts c w)) = trace w ++ seg /\
      forallb is_operation_event seg = true) \/
  (exists pre post,
      trace (snd (run_history acts c w))
      = trace w ++ pre ++ ([EvLock; EvClose] ++ callback_events c ++ [EvUnlock]) ++ post /\
      forallb is_operation_event pre = true /\
      count is_close post = 0%nat /\ count is_callback post = 0%nat /\
      under_lock false post = Some false).
Proof.
  induction acts as [|a acts IH]; intros c w Hopen.
  - left. exists []. cbn [run_history]. unfold ret. cbn [snd].
    rewrite app_nil_r. repeat split.
  - cbn [run_history]. unfold bind.
    destruct (is_operation a) eqn:Ha.
    + destruct (perform_operation a c w Ha) as (seg & Hseg & Hall & Hc).
      destruct (perform a c w) as [[c1|e|] w1]; cbn [fst snd] in *.
      * rewrite (Hc c1 eq_refl).
        destruct (IH c w1 Hopen)
          as [(seg' & Hseg' & Hall') | (pre & post & Htr & Hpre & R)].
        -- left. exists (seg ++ seg'). rewrite Hseg', Hseg, app_assoc.
           split; [reflexivity|]. now rewrite forallb_app, Hall, Hall'.
        -- right. exists (seg ++ pre), post. rewrite Htr, Hseg.
           split; [now rewrite <- !app_assoc|].
           split; [now rewrite forallb_app, Hall, Hpre | exact R].
      * left. exists seg. auto.
      * left. exists seg. auto.
    + destruct a; try discriminate Ha. cbn [perform].
      rewrite (inactiveMode_first c w Hopen).
      destruct (history_after_close acts (set_inactive c)
                  (mkWorld (sent w)
                     (trace w ++ [EvLock; EvClose] ++ callback_events c ++ [EvUnlock]))
                  eq_refl) as (post & Hpost & R).
      right. exists [], post. rewrite Hpost. cbn [trace].
      split; [now rewrite <- !app_assoc|]. split; [reflexivity | exact R].
Qed.

Lemma run_history_app (before after : list action) : forall (c : Client) (w : world),
  run_history (before ++ after) c w
  = (c' <- run_history before c ;; run_history after c') w.
Proof.
  induction before as [|a before IH]; intros c w; cbn [app run_history].
  - reflexivity.
  - unfold bind. unfold bind in IH.
    destruct (perform a c w) as [[c1|e|] w1]; [apply IH | reflexivity | reflexivity].
Qed.

(** C9.  The terminal transition closes the notification channel exactly
    once.  For a client that starts active (flag not set, channel open)
    and whatever is done to it afterwards, in any order and any number of
    times, operations and runs of [inactiveMode] alike:

    - the channel is closed at most once, the callback is called once for
      each close if one is configured and never otherwise, and every close
      and every call of the callback happens while the exclusive switch
      lock is held, which is released at the end;
    - as long as only operations run, the channel is not closed, the
      callback is not called and the client stays as it was: nothing
      closes the channel before the transition;
    - the first run of [inactiveMode] takes the exclusive lock, closes the
      channel, calls the callback if there is one and releases the lock;
      whatever follows, further runs of [inactiveMode] included, neither
      closes the channel nor calls the callback again, so the history has
      exactly one close and one call of a configured callback. *)
Theorem notification_channel_closed_once_at_transition (c : Client) (t : nat)
  (Hactive : Active c) :
  (forall acts,
      (count is_close (trace_of (run_history acts c) t) <= 1)%nat /\
      count is_callback (trace_of (run_history acts c) t)
      = (count is_close (trace_of (run_history acts c) t) * callbacks_configured c)%nat /\
      under_lock false (trace_of (run_history acts c) t) = Some false) /\
  (forall acts,
      forallb is_operation acts = true ->
      count is_close (trace_of (run_history acts c) t) = 0%nat /\
      count is_callback (trace_of (run_history acts c) t) = 0%nat /\
      (forall c', result_of (run_history acts c) t = Returned c' -> c' = c)) /\
  (forall before after c1,
      forallb is_operation before = true ->
      result_of (run_history before c) t = Returned c1 ->
      exists post,
        trace_of (run_history (before ++ ActInactiveMode :: after) c) t
        = trace_of (run_history before c) t
            ++ ([EvLock; EvClose] ++ callback_events c ++ [EvUnlock]) ++ post /\
        count is_close post = 0%nat /\ count is_callback post = 0%nat /\
        count is_close
          (trace_of (run_history (before ++ ActInactiveMode :: after) c) t) = 1%nat /\
        count is_callback
          (trace_of (run_history (before ++ ActInactiveMode :: after) c) t)
        = callbacks_configured c).
Proof.
  destruct Hactive as [_ Hopen].
  pose proof (inactiveMode_first c) as Hfirst.
  pose proof (fun acts => history_from_active acts c) as Hhist.
  destruct (transition_events_counts c) as (T1 & T2 & T3).
  set (switch := [EvLock; EvClose] ++ callback_events c ++ [EvUnlock]) in *.
  clearbody switch.
  split; [|split].
  - intros acts. unfold trace_of, run.
    destruct (Hhist acts (mkWorld t []) Hopen)
      as [(seg & Hseg & Hall) | (pre & post & Htr & Hpre & R1 & R2 & R3)].
    + cbn [trace app] in Hseg. rewrite Hseg.
      destruct (operation_events_calm seg false Hall) as (Q1 & Q2 & Q3).
      rewrite Q1, Q2, Q3. repeat split. lia.
    + cbn [trace] in Htr. rewrite Htr. rewrite app_nil_l.
      destruct (operation_events_calm pre false Hpre) as (Q1 & Q2 & Q3).
      rewrite !count_app, Q1, Q2, R1, R2, T1, T2.
      rewrite (under_lock_app _ _ _ _ Q3), (under_lock_app _ _ _ _ T3), R3.
      cbn [Nat.add]. rewrite Nat.add_0_r, Nat.mul_1_l. repeat split. lia.
  - intros acts Hops. unfold trace_of, result_of, run.
    destruct (history_of_operations acts c (mkWorld t []) Hops)
      as (seg & Hseg & Hall & Hc).
    cbn [trace app] in Hseg. rewrite Hseg.
    destruct (operation_events_calm seg false Hall) as (Q1 & Q2 & _).
    split; [exact Q1|]. split; [exact Q2 | exact Hc].
  - intros before after c1 Hops Hret. unfold trace_of, result_of, run in *.
    destruct (history_of_operations before c (mkWorld t []) Hops)
      as (seg & Hseg & Hall & Hc).
    destruct (operation_events_calm seg false Hall) as (Q1 & Q2 & _).
    assert (Hrun : exists post,
               trace (snd (run_history (before ++ ActInactiveMode :: after) c
                             (mkWorld t [])))
               = trace (snd (run_history before c (mkWorld t []))) ++ switch ++ post /\
               count is_close post = 0%nat /\ count is_callback post = 0%nat).
    { rewrite run_history_app. unfold bind at 1.
      destruct (run_history before c (mkWorld t [])) as [[c2|e|] w1];
        cbn [fst snd] in *; try discriminate Hret.
      rewrite (Hc c2 eq_refl). cbn [run_history perform]. unfold bind at 1.
      rewrite (Hfirst w1 Hopen).
      destruct (history_after_close after (set_inactive c)
                  (mkWorld (sent w1) (trace w1 ++ switch))
                  eq_refl) as (post & Hpost & R1 & R2 & _).
      exists post. rewrite Hpost. cbn [trace].
      split; [now rewrite <- !app_assoc | split; assumption]. }
    destruct Hrun as (post & Htr & R1 & R2).
    exists post. rewrite Htr. split; [reflexivity|].
    split; [exact R1|]. split; [exact R2|].
    cbn [trace app] in Hseg. rewrite Hseg.
    rewrite !count_app, Q1, Q2, R1, R2, T1, T2. split; lia.
Qed.

Lemma notification_channel_closed_once_at_transition_sample :
  Active (sample_client good_ws false) /\
  (count is_close
     (trace_of (run_history [ActBlockCount; ActInactiveMode; ActGasBalance; ActInactiveMode]
                  (sample_client good_ws false)) 0) <= 1)%nat /\
  count is_close
    (trace_of (run_history [ActBlockCount; ActGasBalance]
                 (sample_client good_ws false)) 0) = 0%nat.
Proof.
  destruct (notification_channel_closed_once_at_transition
              (sample_client good_ws false) 0 (conj eq_refl eq_refl))
    as (H1 & H2 & _).
  split; [split; reflexivity|]. split.
  - exact (proj1 (H1 [ActBlockCount; ActInactiveMode; ActGasBalance; ActInactiveMode])).
  - exact (proj1 (H2 [ActBlockCount; ActGasBalance] eq_refl)).
Defined.
